(** * Quantum walks on graphs: continuous-time evolution, spectral search
      and the coined-walk circuit builder

    A shallow embedding of [src/graph_utils.py], [src/continuous_walk.py],
    [src/search.py] and [src/coined_walk.py].

    Numbers.  numpy's [float64] and [complex128] are idealised as the real
    numbers [R] and as pairs of reals; rounding is not modelled, and the
    properties below are those that do not depend on it.  The one
    exception is the module [Float64], which evaluates the first sample
    of the search in IEEE binary64.  Python integers supplied by a caller
    (vertex indices, sample counts) are [Z], loop counters and sizes are
    [nat].

    Effects.  Python exceptions are modelled by the error monad [result];
    every function that can raise returns [result T]. *)

From Stdlib Require Import String DecimalString.
From Stdlib Require Import Reals Lra Lia ZArith Bool Arith List Epsilon.
From Stdlib Require PrimFloat.
Import ListNotations.

Set Implicit Arguments.

(* ===================================================================== *)
(** ** The Python runtime: exceptions and sequence indexing *)
(* ===================================================================== *)

(** The exception classes that the modelled code can raise. *)
Inductive exn : Type :=
| ImportError
| AttributeError
| IndexError
| ValueError
| ZeroDivisionError
| NetworkXError.

Inductive result (A : Type) : Type :=
| Return (a : A)
| Raise (e : exn).

Arguments Return {A} a.
Arguments Raise {A} e.

Definition bind {A B : Type} (m : result A) (k : A -> result B) : result B :=
  match m with
  | Return a => k a
  | Raise e => Raise e
  end.

Declare Scope py_scope.
Delimit Scope py_scope with py.
Notation "x <- m ;; k" := (bind m (fun x => k))
  (at level 61, m at next level, right associativity) : py_scope.
Open Scope py_scope.

(** [for i, x in enumerate(xs): s = body(i, x, s)], starting the count
    at [i]. *)
Fixpoint for_enumerate {A St : Type} (body : nat -> A -> St -> result St)
    (i : nat) (xs : list A) (s : St) : result St :=
  match xs with
  | [] => Return s
  | x :: xs' => s' <- body i x s ;; for_enumerate body (S i) xs' s'
  end.

(** [for x in xs: s = body(x, s)] *)
Fixpoint for_each {A St : Type} (body : A -> St -> result St)
    (xs : list A) (s : St) : result St :=
  match xs with
  | [] => Return s
  | x :: xs' => s' <- body x s ;; for_each body xs' s'
  end.

(** [[f(x) for x in xs]] for an [f] that can raise. *)
Fixpoint mapM {A B : Type} (f : A -> result B) (xs : list A) : result (list B) :=
  match xs with
  | [] => Return []
  | x :: xs' => y <- f x ;; ys <- mapM f xs' ;; Return (y :: ys)
  end.

(** Index resolution of a Python sequence (and of one numpy axis) of
    length [n]: an index in [-n, 0) counts from the end, an index outside
    [-n, n) raises [IndexError]. *)
Definition norm_index (n : nat) (i : Z) : result nat :=
  if ((i <? - Z.of_nat n) || (Z.of_nat n <=? i))%Z then Raise IndexError
  else if (i <? 0)%Z then Return (Z.to_nat (i + Z.of_nat n))
  else Return (Z.to_nat i).

Fixpoint set_nth {A : Type} (k : nat) (v : A) (l : list A) : list A :=
  match l, k with
  | [], _ => []
  | _ :: l', O => v :: l'
  | x :: l', S k' => x :: set_nth k' v l'
  end.

(** [l[i]] *)
Definition getitem {A : Type} (l : list A) (i : Z) : result A :=
  k <- norm_index (length l) i ;;
  match nth_error l k with
  | Some x => Return x
  | None => Raise IndexError
  end.

(** [l[i] = v] *)
Definition setitem {A : Type} (l : list A) (i : Z) (v : A) : result (list A) :=
  k <- norm_index (length l) i ;;
  Return (set_nth k v l).

(** [m[i, j] = v] on a two-dimensional array: the first index is resolved
    against the number of rows, the second against the row length. *)
Definition setitem2 {A : Type} (m : list (list A)) (i j : Z) (v : A)
  : result (list (list A)) :=
  r <- norm_index (length m) i ;;
  match nth_error m r with
  | Some row =>
      row' <- setitem row j v ;;
      Return (set_nth r row' m)
  | None => Raise IndexError
  end.

(* ===================================================================== *)
(** ** Module loading *)
(* ===================================================================== *)

(** The five modules of the package. *)
Inductive module_id : Type :=
| graph_utils
| continuous_walk
| search
| coined_walk
| plotting.

(** Top-level statements of a module, as far as name binding goes. *)
Inductive stmt : Type :=
| ImportAs (library alias : string)          (* import library as alias *)
| FromLibraryImport (library name : string)  (* from library import name *)
| FromImport (m : module_id) (name : string) (* from .m import name *)
| Def (name : string).                       (* def name(...): ... *)

(** The top-level statements of each source file, in file order.  The
    third-party libraries (numpy, scipy, networkx, qiskit, matplotlib) are
    taken to be installed. *)
Definition module_source (m : module_id) : list stmt :=
  match m with
  | graph_utils =>
      [ ImportAs "networkx" "nx";
        ImportAs "numpy" "np";
        Def "build_complete_graph";
        Def "build_hypercube";
        Def "build_grid_2d";
        Def "build_cycle";
        Def "build_star";
        Def "classical_hitting_time";
        Def "get_graph_builders" ]
  | continuous_walk =>
      [ ImportAs "numpy" "np";
        FromLibraryImport "scipy.linalg" "expm";
        ImportAs "networkx" "nx";
        Def "adjacency_hamiltonian";
        Def "evolve_continuous_walk";
        Def "sweep_evolution" ]
  | search =>
      [ ImportAs "numpy" "np";
        FromLibraryImport "scipy.linalg" "expm";
        ImportAs "networkx" "nx";
        FromImport graph_utils "adjacency_hamiltonian";
        Def "build_search_hamiltonian";
        Def "search_continuous_walk";
        Def "benchmark_search" ]
  | coined_walk =>
      [ ImportAs "numpy" "np";
        FromLibraryImport "qiskit.circuit" "QuantumCircuit";
        FromLibraryImport "qiskit_aer" "AerSimulator";
        Def "grover_coin";
        Def "hadamard_coin";
        Def "build_coined_walk_circuit";
        Def "run_coined_walk" ]
  | plotting =>
      [ ImportAs "numpy" "np";
        ImportAs "matplotlib.pyplot" "plt";
        FromLibraryImport "pathlib" "Path";
        Def "plot_walk_distribution";
        Def "plot_search_probability";
        Def "plot_continuous_walk_evolution";
        Def "plot_scaling_comparison" ]
  end.

(** A module namespace: the names bound at top level. *)
Definition namespace : Type := list string.

Definition bound (name : string) (ns : namespace) : bool :=
  existsb (String.eqb name) ns.

(** Executing a module body.  [from .m import name] first loads [m]; a
    name that [m] does not bind raises [ImportError].  [depth] bounds the
    nesting of package-internal imports; [None] means the bound was hit. *)
Fixpoint import_module (depth : nat) (m : module_id)
  : option (result namespace) :=
  match depth with
  | O => None
  | S depth' =>
      (fix exec (body : list stmt) (ns : namespace) {struct body}
         : option (result namespace) :=
         match body with
         | [] => Some (Return ns)
         | ImportAs _ alias :: body' => exec body' (alias :: ns)
         | FromLibraryImport _ name :: body' => exec body' (name :: ns)
         | Def name :: body' => exec body' (name :: ns)
         | FromImport m' name :: body' =>
             match import_module depth' m' with
             | None => None
             | Some (Raise e) => Some (Raise e)
             | Some (Return ns') =>
                 if bound name ns' then exec body' (name :: ns)
                 else Some (Raise ImportError)
             end
         end) (module_source m) []
  end.

(** Whether the source of [m] has a top-level [def name]. *)
Definition defines (m : module_id) (name : string) : bool :=
  existsb (fun s => match s with
                    | Def n => String.eqb n name
                    | _ => false
                    end)
          (module_source m).

(** Reaching function [f] through module [m]: import [m], then look [f]
    up in its namespace. *)
Definition call_via (depth : nat) (m : module_id) (f : string)
  : option (result unit) :=
  match import_module depth m with
  | None => None
  | Some (Raise e) => Some (Raise e)
  | Some (Return ns) =>
      if bound f ns then Some (Return tt) else Some (Raise AttributeError)
  end.

(* ===================================================================== *)
(** ** numpy: complex scalars, arrays, [linspace], [argmax] *)
(* ===================================================================== *)

Open Scope R_scope.

(** [complex128], as real and imaginary part. *)
Definition C : Type := (R * R)%type.

Definition RtoC (x : R) : C := (x, 0).
Definition C0 : C := RtoC 0.
Definition C1 : C := RtoC 1.
Definition Ci : C := (0, 1).                       (* 1j *)
Definition Copp (z : C) : C := (- fst z, - snd z).
Definition Cplus (z w : C) : C := (fst z + fst w, snd z + snd w).
Definition Cmult (z w : C) : C :=
  (fst z * fst w - snd z * snd w, fst z * snd w + snd z * fst w).

(** A complex value divided by a real one. *)
Definition Cdiv_real (z : C) (x : R) : C := (fst z / x, snd z / x).

(** [np.abs] on a complex value: the modulus. *)
Definition np_abs (z : C) : R := sqrt (fst z * fst z + snd z * snd z).

(** One- and two-dimensional arrays. *)
Abbreviation vector A := (list A) (only parsing).
Abbreviation matrix A := (list (list A)) (only parsing).

(** [np.zeros(n)], [np.ones(n)] and [np.zeros((r, c))]. *)
Definition zeros {A : Type} (zero : A) (n : nat) : vector A := repeat zero n.
Definition ones {A : Type} (one : A) (n : nat) : vector A := repeat one n.
Definition zeros2 {A : Type} (zero : A) (r c : nat) : matrix A :=
  repeat (zeros zero c) r.

(** Elementwise operations on arrays of equal shape. *)
Definition vmap2 {A B D : Type} (f : A -> B -> D) (u : vector A) (v : vector B)
  : vector D :=
  map (fun p => f (fst p) (snd p)) (combine u v).

Definition mmap {A B : Type} (f : A -> B) (m : matrix A) : matrix B :=
  map (map f) m.

Definition mmap2 {A B D : Type} (f : A -> B -> D) (m1 : matrix A) (m2 : matrix B)
  : matrix D :=
  vmap2 (vmap2 f) m1 m2.

(** A two-dimensional array with [n] rows of [n] entries. *)
Definition square {A : Type} (n : nat) (M : list (list A)) : Prop :=
  length M = n /\ forall row, In row M -> length row = n.

Definition Csum (l : list C) : C := fold_right Cplus C0 l.

(** [U @ v] for a complex matrix and a complex vector. *)
Definition matvec (U : matrix C) (v : vector C) : vector C :=
  map (fun row => Csum (vmap2 Cmult row v)) U.

(** [np.linspace(start, stop, num)] with the default [endpoint=True]:
    [num - 1] equally spaced samples starting at [start], then [stop]
    itself; a single sample is [start]; a negative [num] is rejected. *)
Definition linspace (start stop : R) (num : Z) : result (vector R) :=
  if (num <? 0)%Z then Raise ValueError
  else
    Return
      match Z.to_nat num with
      | O => []
      | S O => [start]
      | S (S m) =>
          let step := (stop - start) / INR (S m) in
          map (fun i => INR i * step + start) (seq 0 (S m)) ++ [stop]
      end.

(** [np.argmax]: the index of the first occurrence of the maximum; an
    empty array is rejected. *)
Fixpoint argmax_from (best_i : nat) (best : R) (i : nat) (l : list R) : nat :=
  match l with
  | [] => best_i
  | x :: l' =>
      if Rlt_dec best x then argmax_from i x (S i) l'
      else argmax_from best_i best (S i) l'
  end.

Definition argmax (l : vector R) : result Z :=
  match l with
  | [] => Raise ValueError
  | x :: l' => Return (Z.of_nat (argmax_from 0 x 1 l'))
  end.

(** [np.sum] of a real array. *)
Definition np_sum (l : list R) : R := fold_right Rplus 0 l.

(* ===================================================================== *)
(** ** scipy: the matrix exponential *)
(* ===================================================================== *)

Definition mget (M : matrix C) (i j : nat) : C := nth j (nth i M []) C0.

Definition mat_init (n : nat) (f : nat -> nat -> C) : matrix C :=
  map (fun i => map (fun j => f i j) (seq 0 n)) (seq 0 n).

Definition midentity (n : nat) : matrix C :=
  mat_init n (fun i j => if Nat.eqb i j then C1 else C0).

Definition mmul (n : nat) (A B : matrix C) : matrix C :=
  mat_init n (fun i j =>
    Csum (map (fun k => Cmult (mget A i k) (mget B k j)) (seq 0 n))).

Definition madd (n : nat) (A B : matrix C) : matrix C :=
  mat_init n (fun i j => Cplus (mget A i j) (mget B i j)).

Definition mscale (n : nat) (c : R) (A : matrix C) : matrix C :=
  mat_init n (fun i j => Cmult (RtoC c) (mget A i j)).

Fixpoint mpow (n : nat) (M : matrix C) (k : nat) : matrix C :=
  match k with
  | O => midentity n
  | S k' => mmul n M (mpow n M k')
  end.

(** The partial sums [I + M + M^2/2! + ... + M^k/k!] of the exponential
    series of an [n] by [n] matrix. *)
Fixpoint expm_partial (n : nat) (M : matrix C) (k : nat) : matrix C :=
  match k with
  | O => midentity n
  | S k' => madd n (expm_partial n M k')
                   (mscale n (/ INR (fact (S k'))) (mpow n M (S k')))
  end.

(** The limit of a real sequence (an arbitrary value where there is
    none). *)
Definition lim_seq (u : nat -> R) : R :=
  epsilon (inhabits 0) (fun l => Un_cv u l).

Definition Clim (u : nat -> C) : C :=
  (lim_seq (fun k => fst (u k)), lim_seq (fun k => snd (u k))).

(** [scipy.linalg.expm]: the matrix exponential of a square matrix, the
    entrywise limit of the partial sums of its series. *)
Definition expm (M : matrix C) : matrix C :=
  let n := length M in
  mat_init n (fun i j => Clim (fun k => mget (expm_partial n M k) i j)).

(** *** The series of a generator [-1j * B]

    For a real matrix [B], given by its entries [b], the powers of
    [-1j * B] are [(-1j)^d * B^d]: the definitions below follow the real
    matrix powers and the two real series that make up the exponential
    series applied to a real vector. *)

(** Sum of [f j] over [j < n]. *)
Fixpoint rsum (n : nat) (f : nat -> R) : R :=
  match n with
  | O => 0
  | S k => rsum k f + f k
  end.

(** [(-1j) ^ d] *)
Fixpoint mi (d : nat) : C :=
  match d with
  | O => C1
  | S d' => Cmult (Copp Ci) (mi d')
  end.

(** Entry [(i, j)] of the [d]-th power of the real [n] by [n] matrix with
    entries [b]. *)
Fixpoint bpow (n : nat) (b : nat -> nat -> R) (d : nat) (i j : nat) : R :=
  match d with
  | O => if Nat.eqb i j then 1 else 0
  | S d' => rsum n (fun l => b i l * bpow n b d' l j)
  end.

(** Entry [i] of the [d]-th power of the matrix applied to the real
    vector [x]. *)
Definition bvec (n : nat) (b : nat -> nat -> R) (x : nat -> R) (d i : nat) : R :=
  rsum n (fun j => bpow n b d i j * x j).

(** The real and imaginary part of entry [i] of the [k]-th partial sum of
    the exponential series applied to the real vector [x], where the
    matrix is [-1j] times the real matrix with entries [b]. *)
Definition amp_re (n : nat) (b : nat -> nat -> R) (x : nat -> R) (i k : nat) : R :=
  sum_f_R0 (fun d => fst (mi d) * bvec n b x d i * / INR (fact d)) k.

Definition amp_im (n : nat) (b : nat -> nat -> R) (x : nat -> R) (i k : nat) : R :=
  sum_f_R0 (fun d => snd (mi d) * bvec n b x d i * / INR (fact d)) k.

(** Real and imaginary part of entry [i] of the complex matrix [U] applied
    to the real vector [x]. *)
Definition apply_re (n : nat) (U : list (list C)) (x : nat -> R) (i : nat) : R :=
  rsum n (fun j => fst (mget U i j) * x j).

Definition apply_im (n : nat) (U : list (list C)) (x : nat -> R) (i : nat) : R :=
  rsum n (fun j => snd (mget U i j) * x j).

(* ===================================================================== *)
(** ** networkx: graphs and their adjacency matrix *)
(* ===================================================================== *)

(** An undirected, unweighted graph.  Nodes are identified with their
    position [0 .. number_of_nodes - 1] in the node list, which is the
    order of the rows and columns of the adjacency matrix; [edges] lists
    the edges as pairs of positions. *)
Record Graph : Type := {
  number_of_nodes : nat;
  edges : list (nat * nat)
}.

Definition has_edge (g : Graph) (i j : nat) : bool :=
  existsb (fun e => (Nat.eqb (fst e) i && Nat.eqb (snd e) j)
                    || (Nat.eqb (fst e) j && Nat.eqb (snd e) i))
          (edges g).

(** The dense adjacency matrix, entries in {0, 1}. *)
Definition dense_adjacency (g : Graph) : matrix R :=
  map (fun i => map (fun j => if has_edge g i j then 1 else 0)
                    (seq 0 (number_of_nodes g)))
      (seq 0 (number_of_nodes g)).

(** [np.array(nx.adjacency_matrix(graph).todense(), dtype=float)].
    networkx refuses to convert a graph without nodes. *)
Definition nx_adjacency_matrix (g : Graph) : result (matrix R) :=
  if Nat.eqb (number_of_nodes g) 0 then Raise NetworkXError
  else Return (dense_adjacency g).

(** The graph with two nodes joined by one edge. *)
Definition single_edge : Graph :=
  {| number_of_nodes := 2; edges := [(0%nat, 1%nat)] |}.

(* ===================================================================== *)
(** ** continuous_walk.py *)
(* ===================================================================== *)

Module ContinuousWalk.

(** The function returns the adjacency matrix itself. *)
Definition adjacency_hamiltonian (graph : Graph) : result (matrix R) :=
  nx_adjacency_matrix graph.

(** The dictionary returned by [evolve_continuous_walk]. *)
Record evolution : Type := {
  probabilities : vector R;
  state : vector C
}.

(** [-1j * gamma * A * time], evaluated left to right. *)
Definition generator (gamma : R) (A : matrix R) (time : R) : matrix C :=
  let c := Cmult (Copp Ci) (RtoC gamma) in
  mmap (fun a => Cmult (Cmult c (RtoC a)) (RtoC time)) A.

Definition evolve_continuous_walk (graph : Graph) (initial_node : Z)
    (time gamma : R) : result evolution :=
  let n := number_of_nodes graph in
  A <- adjacency_hamiltonian graph ;;
  (* initial state: localized at initial_node *)
  let psi_0 := zeros C0 n in
  psi_0 <- setitem psi_0 initial_node (RtoC 1) ;;
  (* time evolution *)
  let U := expm (generator gamma A time) in
  let psi_t := matvec U psi_0 in
  let probabilities := map (fun z => np_abs z ^ 2) psi_t in
  Return {| probabilities := probabilities; state := psi_t |}.

(** The dictionary returned by [sweep_evolution]. *)
Record sweep : Type := {
  times : vector R;
  prob_matrix : matrix R
}.

Definition sweep_evolution (graph : Graph) (initial_node : Z)
    (time_range : list R) (gamma : R) : result sweep :=
  let n := number_of_nodes graph in
  let prob_matrix := zeros2 0 (length time_range) n in
  prob_matrix <-
    for_enumerate
      (fun i t prob_matrix =>
         result <- evolve_continuous_walk graph initial_node t gamma ;;
         setitem prob_matrix (Z.of_nat i) (probabilities result))
      0 time_range prob_matrix ;;
  Return {| times := time_range; prob_matrix := prob_matrix |}.

(** The sweep as the specification words it: the single-time evolution
    applied to each requested time on its own, the probability vectors
    stacked in the order of the times. *)
Definition sweep_spec (graph : Graph) (initial_node : Z)
    (time_range : list R) (gamma : R) : result sweep :=
  rows <- mapM (fun t =>
                  result <- evolve_continuous_walk graph initial_node t gamma ;;
                  Return (probabilities result))
               time_range ;;
  Return {| times := time_range; prob_matrix := rows |}.

End ContinuousWalk.

(* ===================================================================== *)
(** ** search.py *)
(* ===================================================================== *)

Module Search.

Definition build_search_hamiltonian (graph : Graph) (marked_vertex : Z)
    (gamma : R) : result (matrix R) :=
  let n := number_of_nodes graph in
  A <- nx_adjacency_matrix graph ;;
  (* oracle projector *)
  let oracle := zeros2 0 n n in
  oracle <- setitem2 oracle marked_vertex marked_vertex 1 ;;
  let H := mmap2 Rplus (mmap (Rmult (- gamma)) A) oracle in
  Return H.

(** The dictionary returned by [search_continuous_walk]. *)
Record search_result : Type := {
  optimal_time : R;
  max_probability : R;
  times : vector R;
  success_probs : vector R
}.

(** [-1j * H * t], evaluated left to right. *)
Definition generator (H : matrix R) (t : R) : matrix C :=
  mmap (fun h => Cmult (Cmult (Copp Ci) (RtoC h)) (RtoC t)) H.

(** [np.ones(n, dtype=complex) / np.sqrt(n)] *)
Definition uniform_superposition (n : nat) : vector C :=
  map (fun o => Cdiv_real o (sqrt (INR n))) (ones C1 n).

(** The body of the time loop: [U = expm(-1j * H * t)],
    [psi_t = U @ psi_0], [np.abs(psi_t[marked_vertex]) ** 2]. *)
Definition success_probability (H : matrix R) (psi_0 : vector C)
    (marked_vertex : Z) (t : R) : result R :=
  let U := expm (generator H t) in
  let psi_t := matvec U psi_0 in
  amplitude <- getitem psi_t marked_vertex ;;
  Return (np_abs amplitude ^ 2).

(** [gamma] and [time] are [None] when the caller leaves them out. *)
Definition search_continuous_walk (graph : Graph) (marked_vertex : Z)
    (gamma time : option R) (n_time_steps : Z) : result search_result :=
  let n := number_of_nodes graph in
  gamma <- match gamma with
           | None => if Nat.eqb n 0 then Raise ZeroDivisionError
                     else Return (1 / INR n)
           | Some gamma => Return gamma
           end ;;
  let time := match time with
              | None => PI / 2 * sqrt (INR n)
              | Some time => time
              end in
  times <- linspace 0 time n_time_steps ;;
  (* initial state: uniform superposition *)
  let psi_0 := uniform_superposition n in
  H <- build_search_hamiltonian graph marked_vertex gamma ;;
  let success_probs := zeros 0 (length times) in
  success_probs <-
    for_enumerate
      (fun i t success_probs =>
         p <- success_probability H psi_0 marked_vertex t ;;
         setitem success_probs (Z.of_nat i) p)
      0 times success_probs ;;
  optimal_idx <- argmax success_probs ;;
  optimal_time <- getitem times optimal_idx ;;
  max_probability <- getitem success_probs optimal_idx ;;
  Return {| optimal_time := optimal_time;
            max_probability := max_probability;
            times := times;
            success_probs := success_probs |}.

(** The dictionary returned by [benchmark_search]. *)
Record benchmark : Type := {
  n_nodes : list nat;
  optimal_times : list R;
  max_probs : list R
}.

(** The graph builder is a function from a node count to a graph.  The
    two [print] calls of the loop body write to standard output only and
    are left out. *)
Definition benchmark_search (graph_builder : nat -> Graph)
    (node_counts : list nat) (marked_vertex : Z) (n_time_steps : Z)
  : result benchmark :=
  let optimal_times := [] in
  let max_probs := [] in
  lists <-
    for_each
      (fun n lists =>
         let graph := graph_builder n in
         result <- search_continuous_walk graph marked_vertex None None
                                          n_time_steps ;;
         Return (fst lists ++ [optimal_time result],
                 snd lists ++ [max_probability result]))
      node_counts (optimal_times, max_probs) ;;
  Return {| n_nodes := node_counts;
            optimal_times := fst lists;
            max_probs := snd lists |}.

End Search.

(** The first sample of the search in IEEE binary64, the arithmetic of
    numpy's [float64].  Only the real parts are kept: the imaginary part
    of every number below is zero. *)
Module Float64.

Import PrimFloat.
Local Open Scope float_scope.

(** An entry of [psi_0 = np.ones(n, dtype=complex) / np.sqrt(n)], for the
    node count [n] converted to [float64]: the quotient of [1 + 0j] by
    the real [np.sqrt(n)] has the real part [1 / np.sqrt(n)]. *)
Definition uniform_amplitude (n : float) : float := 1 / sqrt n.

(** [np.abs(psi_t[marked_vertex]) ** 2] at the first sampled time,
    [t = 0].  There [-1j * H * t] is a zero matrix, [U] is the identity
    matrix and [U @ psi_0] has the entries of [psi_0]: products with 1.0
    and 0.0 and sums with 0.0 are exact.  The modulus of a complex number
    without imaginary part is the absolute value of its real part, and
    its square is one rounded product. *)
Definition initial_success_probability (n : float) : float :=
  let modulus := abs (uniform_amplitude n) in
  modulus * modulus.

End Float64.

(* ===================================================================== *)
(** ** coined_walk.py *)
(* ===================================================================== *)

Module CoinedWalk.

(** [np.ones((n, n))] and [np.eye(n)]. *)
Definition ones2 (n : nat) : matrix R := repeat (ones 1 n) n.
Definition eye (n : nat) : matrix R :=
  map (fun i => map (fun j => if Nat.eqb i j then 1 else 0) (seq 0 n)) (seq 0 n).

(** Grover diffusion operator as a coin for the quantum walk. *)
Definition grover_coin (n_coin_qubits : nat) : matrix R :=
  let dim := (2 ^ n_coin_qubits)%nat in
  let coin := mmap2 Rminus (mmap (Rmult (2 / INR dim)) (ones2 dim)) (eye dim) in
  coin.

(** The instructions the builder appends to a circuit. *)
Inductive instruction : Type :=
| h (qubit : nat)
| unitary (operator : matrix R) (qubits : list nat) (label : string)
| cx (control target : nat)
| mcx (controls : list nat) (target : nat)
| measure (qubit clbit : nat).

(** A [QuantumCircuit]: register sizes and the instructions appended so
    far.  Register sizes and the step count are naturals. *)
Record QuantumCircuit : Type := {
  num_qubits : nat;
  num_clbits : nat;
  data : list instruction
}.

Definition append (qc : QuantumCircuit) (op : instruction) : QuantumCircuit :=
  {| num_qubits := num_qubits qc;
     num_clbits := num_clbits qc;
     data := data qc ++ [op] |}.

(** [f'C{step}'] *)
Definition coin_label (step : nat) : string :=
  "C" ++ NilEmpty.string_of_uint (Nat.to_uint step).

(** One iteration of [for step in range(n_steps)]. *)
Definition walk_step (coin_type : string) (n_coin : nat)
    (coin_qubits pos_qubits : list nat) (step : nat) (qc : QuantumCircuit)
  : result QuantumCircuit :=
  (* coin operator *)
  qc <- (if String.eqb coin_type "hadamard" && Nat.eqb n_coin 1 then
           c0 <- getitem coin_qubits 0 ;;
           Return (append qc (h c0))
         else
           let coin_matrix := grover_coin n_coin in
           Return (append qc (unitary coin_matrix coin_qubits (coin_label step)))) ;;
  (* conditional shift: increment position if coin=|1> *)
  c0 <- getitem coin_qubits 0 ;;
  p0 <- getitem pos_qubits 0 ;;
  let qc := append qc (cx c0 p0) in
  for_each
    (fun i qc =>
       p <- getitem pos_qubits (Z.of_nat i) ;;
       Return (append qc (mcx (firstn 1 coin_qubits ++ firstn i pos_qubits) p)))
    (seq 1 (length pos_qubits - 1)) qc.

Definition build_coined_walk_circuit (n_position_qubits n_steps : nat)
    (coin_type : string) : result QuantumCircuit :=
  let n_coin := if String.eqb coin_type "hadamard" then 1%nat
                else n_position_qubits in
  let n_total := (n_position_qubits + n_coin)%nat in
  let qc := {| num_qubits := n_total;
               num_clbits := n_position_qubits;
               data := [] |} in
  let coin_qubits := seq 0 n_coin in
  let pos_qubits := seq n_coin (n_total - n_coin) in
  (* initial superposition on coin *)
  let qc := fold_left (fun qc q => append qc (h q)) coin_qubits qc in
  qc <- for_each (walk_step coin_type n_coin coin_qubits pos_qubits)
                 (seq 0 n_steps) qc ;;
  (* measure position register *)
  qc <- for_enumerate (fun i q qc => Return (append qc (measure q i)))
                      0 pos_qubits qc ;;
  Return qc.

(** *** Running the walk *)

(** A key of the counts dictionary: one bit per classical bit, the most
    significant first. *)
Definition bitstring : Type := list bool.

(** The number that a bit string denotes in base 2. *)
Definition binary_value (b : bitstring) : Z :=
  fold_left (fun acc (bit : bool) => (2 * acc + (if bit then 1 else 0))%Z) b 0%Z.

(** [int(bitstring, 2)]; the empty string is rejected. *)
Definition int2 (b : bitstring) : result Z :=
  match b with
  | [] => Raise ValueError
  | _ => Return (binary_value b)
  end.

(** [count / shots] on Python integers. *)
Definition true_divide (count shots : Z) : result R :=
  if (shots =? 0)%Z then Raise ZeroDivisionError
  else Return (IZR count / IZR shots).

(** The dictionary returned by [run_coined_walk]. *)
Record walk_result : Type := {
  positions : list nat;
  probabilities : vector R;
  circuit : QuantumCircuit
}.

Section Backend.

(** [AerSimulator(seed_simulator=seed).run(qc, shots=shots).result()
    .get_counts()]: the simulator is a parameter; it yields the items of
    the counts dictionary, in the order of the dictionary. *)
Variable simulate : QuantumCircuit -> Z -> Z -> result (list (bitstring * Z)).

Definition run_coined_walk (n_position_qubits n_steps : nat)
    (coin_type : string) (shots seed : Z) : result walk_result :=
  qc <- build_coined_walk_circuit n_position_qubits n_steps coin_type ;;
  counts <- simulate qc shots seed ;;
  let n_positions := (2 ^ n_position_qubits)%nat in
  let probabilities := zeros 0 n_positions in
  probabilities <-
    for_each
      (fun item probabilities =>
         idx <- int2 (fst item) ;;
         p <- true_divide (snd item) shots ;;
         setitem probabilities idx p)
      counts probabilities ;;
  Return {| positions := seq 0 n_positions;
            probabilities := probabilities;
            circuit := qc |}.

End Backend.

(** *** The built circuit without its loops

    The instructions that one walk step appends, for [n_coin] coin qubits
    [0 .. n_coin - 1] followed by [k] position qubits. *)

Definition coin_op (coin_type : string) (n_coin step : nat) : instruction :=
  if String.eqb coin_type "hadamard" && Nat.eqb n_coin 1 then h 0
  else unitary (grover_coin n_coin) (seq 0 n_coin) (coin_label step).

Definition shift_ops (n_coin k : nat) : list instruction :=
  cx 0 n_coin
  :: map (fun i => mcx (0%nat :: seq n_coin i) (n_coin + i)) (seq 1 (k - 1)).

Definition step_ops (coin_type : string) (n_coin k step : nat)
  : list instruction :=
  coin_op coin_type n_coin step :: shift_ops n_coin k.

(** [n_coin = 1 if coin_type == 'hadamard' else n_position_qubits] *)
Definition n_coin_of (coin_type : string) (k : nat) : nat :=
  if String.eqb coin_type "hadamard" then 1%nat else k.

(** The circuit [qc] with the instructions [ops] appended. *)
Definition extend (qc : QuantumCircuit) (ops : list instruction)
  : QuantumCircuit :=
  {| num_qubits := num_qubits qc;
     num_clbits := num_clbits qc;
     data := data qc ++ ops |}.

(** What an instruction needs to be accepted by a circuit with [nq]
    qubits and [ncl] classical bits: every index lies inside its register,
    no qubit is named twice, and a matrix has one row and one column per
    basis state of its qubits. *)
Definition valid_instruction (nq ncl : nat) (op : instruction) : Prop :=
  match op with
  | h q => (q < nq)%nat
  | unitary U qs _ =>
      square (2 ^ length qs) U /\ NoDup qs /\ forall q, In q qs -> (q < nq)%nat
  | cx c t => (c < nq)%nat /\ (t < nq)%nat /\ c <> t
  | mcx cs t => NoDup (t :: cs) /\ forall q, In q (t :: cs) -> (q < nq)%nat
  | measure q c => (q < nq)%nat /\ (c < ncl)%nat
  end.

Definition is_unitary (op : instruction) : bool :=
  match op with unitary _ _ _ => true | _ => false end.

Definition is_h (op : instruction) : bool :=
  match op with h _ => true | _ => false end.

End CoinedWalk.

(* ===================================================================== *)
(** ** graph_utils.py *)
(* ===================================================================== *)

Module GraphUtils.

(** The endpoints joined to [v], in the order in which the edges were
    added, each listed once: the keys of networkx's adjacency dictionary
    of [v]. *)
Fixpoint unique (l : list nat) : list nat :=
  match l with
  | [] => []
  | x :: l' => x :: filter (fun y => negb (Nat.eqb y x)) (unique l')
  end.

Definition adjacent (g : Graph) (v : nat) : list nat :=
  unique (flat_map (fun e => if Nat.eqb (fst e) v then [snd e]
                             else if Nat.eqb (snd e) v then [fst e]
                             else [])
                   (edges g)).

(** [list(graph.neighbors(v))]; networkx rejects a [v] that is not a node
    of the graph. *)
Definition neighbors (g : Graph) (v : nat) : result (list nat) :=
  if (v <? number_of_nodes g)%nat then Return (adjacent g v)
  else Raise NetworkXError.

Section RandomWalk.

(** numpy's legacy generator, as far as [classical_hitting_time] uses it:
    [rng] is the type of generator states, [mt19937_seed seed] the state
    that seeding with an accepted integer [seed] gives and [draw s high]
    the number that [randint(high)] returns in state [s] for a positive
    [high], with the state after the call. *)
Variable rng : Type.
Variable mt19937_seed : Z -> rng.
Variable draw : rng -> nat -> nat * rng.

(** [np.random.RandomState(seed)] for an integer [seed]; numpy accepts a
    seed between 0 and [2**32 - 1] only. *)
Definition RandomState (seed : Z) : result rng :=
  if ((0 <=? seed) && (seed <? 2 ^ 32))%Z then Return (mt19937_seed seed)
  else Raise ValueError.

(** [rng.randint(high)]; numpy rejects an empty range. *)
Definition randint (s : rng) (high : nat) : result (nat * rng) :=
  if Nat.eqb high 0 then Raise ValueError else Return (draw s high).

(** One pass through the body of the [while] loop, up to and including
    [steps += 1]. *)
Definition walk_once (graph : Graph) (current steps : nat) (s : rng)
  : result (nat * nat * rng) :=
  neighbors <- neighbors graph current ;;
  drawn <- randint s (length neighbors) ;;
  current <- getitem neighbors (Z.of_nat (fst drawn)) ;;
  Return (current, S steps, snd drawn).

(** The [while current != target] loop with its [break]; [fuel] bounds
    the number of iterations and [None] means that the bound was hit. *)
Fixpoint walk_until (fuel : nat) (graph : Graph) (target limit : nat)
    (current steps : nat) (s : rng) : option (result (nat * rng)) :=
  match fuel with
  | O => None
  | S fuel' =>
      if Nat.eqb current target then Some (Return (steps, s))
      else
        match walk_once graph current steps s with
        | Raise e => Some (Raise e)
        | Return (current, steps, s) =>
            if (limit <? steps)%nat then Some (Return (steps, s))
            else walk_until fuel' graph target limit current steps s
        end
  end.

(** [for _ in range(n_trials)], with the running total and the generator
    state.  The limit [10 * len(nodes) ** 2] of the inner loop bounds its
    iterations by one more than itself. *)
Fixpoint run_trials (n_trials : nat) (graph : Graph) (start target : nat)
    (total_steps : nat) (s : rng) : option (result (nat * rng)) :=
  match n_trials with
  | O => Some (Return (total_steps, s))
  | S n_trials' =>
      let limit := (10 * number_of_nodes graph ^ 2)%nat in
      match walk_until (S limit) graph target limit start 0 s with
      | None => None
      | Some (Raise e) => Some (Raise e)
      | Some (Return (steps, s)) =>
          run_trials n_trials' graph start target (total_steps + steps) s
      end
  end.

(** Nodes are positions, as in [Graph]; the dictionary [node_to_idx] is
    never read and is left out.  Seeding the generator is the first
    statement, so a refused seed ends the call before anything else. *)
Definition classical_hitting_time (graph : Graph) (start target : nat)
    (n_trials seed : Z) : option (result R) :=
  match RandomState seed with
  | Raise e => Some (Raise e)
  | Return s =>
      match run_trials (Z.to_nat n_trials) graph start target 0 s with
      | None => None
      | Some (Raise e) => Some (Raise e)
      | Some (Return (total_steps, _)) =>
          Some (if (n_trials =? 0)%Z then Raise ZeroDivisionError
                else Return (INR total_steps / IZR n_trials))
      end
  end.

End RandomWalk.

End GraphUtils.

(* ===================================================================== *)
(** * Properties *)
(* ===================================================================== *)

Open Scope string_scope.
Unset Implicit Arguments.

(* --------------------------------------------------------------------- *)
(** ** The error monad and Python indexing *)
(* --------------------------------------------------------------------- *)

Lemma bind_Return_inv {A B : Type} (m : result A) (k : A -> result B) (b : B) :
  bind m k = Return b -> exists a, m = Return a /\ k a = Return b.
Proof.
  destruct m as [a|e]; simpl; intros H.
  - exists a; split; [reflexivity | assumption].
  - discriminate H.
Qed.

Lemma for_each_ext {A St : Type} (f g : A -> St -> result St) (xs : list A) :
  (forall x s, In x xs -> f x s = g x s) ->
  forall s, for_each f xs s = for_each g xs s.
Proof.
  induction xs as [|x xs IH]; intros Hfg s; simpl.
  - reflexivity.
  - rewrite (Hfg x s (or_introl eq_refl)).
    destruct (g x s) as [s'|e]; simpl; [|reflexivity].
    apply IH. intros y t Hy. apply Hfg. right; exact Hy.
Qed.

Lemma for_each_returns {A St : Type} (f : A -> St -> result St) (xs : list A) :
  (forall x s, In x xs -> exists s', f x s = Return s') ->
  forall s, exists s', for_each f xs s = Return s'.
Proof.
  induction xs as [|x xs IH]; intros Hf s; simpl.
  - exists s; reflexivity.
  - destruct (Hf x s (or_introl eq_refl)) as [s1 H1]. rewrite H1; simpl.
    apply IH. intros y t Hy. apply Hf. right; exact Hy.
Qed.

Lemma for_enumerate_returns {A St : Type} (f : nat -> A -> St -> result St)
    (xs : list A) :
  (forall i x s, exists s', f i x s = Return s') ->
  forall i s, exists s', for_enumerate f i xs s = Return s'.
Proof.
  intros Hf. induction xs as [|x xs IH]; intros i s; simpl.
  - exists s; reflexivity.
  - destruct (Hf i x s) as [s1 H1]. rewrite H1; simpl. apply IH.
Qed.

Lemma norm_index_nonneg (n : nat) (i : Z) :
  (0 <= i < Z.of_nat n)%Z -> norm_index n i = Return (Z.to_nat i).
Proof.
  intros [H0 Hn]. unfold norm_index.
  replace (i <? - Z.of_nat n)%Z with false by (symmetry; apply Z.ltb_ge; lia).
  replace (Z.of_nat n <=? i)%Z with false by (symmetry; apply Z.leb_gt; lia).
  replace (i <? 0)%Z with false by (symmetry; apply Z.ltb_ge; lia).
  reflexivity.
Qed.

Lemma norm_index_neg (n : nat) (i : Z) :
  (- Z.of_nat n <= i < 0)%Z -> norm_index n i = Return (Z.to_nat (i + Z.of_nat n)).
Proof.
  intros [H0 Hn]. unfold norm_index.
  replace (i <? - Z.of_nat n)%Z with false by (symmetry; apply Z.ltb_ge; lia).
  replace (Z.of_nat n <=? i)%Z with false by (symmetry; apply Z.leb_gt; lia).
  replace (i <? 0)%Z with true by (symmetry; apply Z.ltb_lt; lia).
  reflexivity.
Qed.

Lemma norm_index_out (n : nat) (i : Z) :
  (i < - Z.of_nat n \/ Z.of_nat n <= i)%Z -> norm_index n i = Raise IndexError.
Proof.
  intros H. unfold norm_index.
  destruct H as [H|H].
  - replace (i <? - Z.of_nat n)%Z with true by (symmetry; apply Z.ltb_lt; lia).
    reflexivity.
  - replace (Z.of_nat n <=? i)%Z with true by (symmetry; apply Z.leb_le; lia).
    rewrite orb_true_r. reflexivity.
Qed.

(** Inside [-n, n) the index resolves to [i mod n], a position below [n]. *)
Lemma norm_index_in (n : nat) (i : Z) :
  (- Z.of_nat n <= i < Z.of_nat n)%Z ->
  norm_index n i = Return (Z.to_nat (i mod Z.of_nat n))
  /\ (Z.to_nat (i mod Z.of_nat n) < n)%nat.
Proof.
  intros H.
  assert (Hn : (0 < Z.of_nat n)%Z) by lia.
  pose proof (Z.mod_pos_bound i (Z.of_nat n) Hn) as Hb.
  split; [|lia].
  destruct (Z_lt_le_dec i 0) as [Hneg|Hpos].
  - rewrite norm_index_neg by lia. f_equal. f_equal.
    apply Z.mod_unique with (q := (-1)%Z); lia.
  - rewrite norm_index_nonneg by lia. f_equal. f_equal.
    symmetry. apply Z.mod_small; lia.
Qed.

Lemma getitem_nth {A : Type} (l : list A) (i : Z) (d : A) :
  (- Z.of_nat (length l) <= i < Z.of_nat (length l))%Z ->
  getitem l i = Return (nth (Z.to_nat (i mod Z.of_nat (length l))) l d).
Proof.
  intros H. unfold getitem.
  destruct (norm_index_in (length l) i H) as [E Hlt].
  rewrite E; simpl.
  rewrite (nth_error_nth' l d Hlt). reflexivity.
Qed.

Lemma getitem_nat {A : Type} (l : list A) (k : nat) (d : A) :
  (k < length l)%nat -> getitem l (Z.of_nat k) = Return (nth k l d).
Proof.
  intros H. unfold getitem.
  rewrite norm_index_nonneg by lia. simpl.
  rewrite Nat2Z.id. rewrite (nth_error_nth' l d H). reflexivity.
Qed.

Lemma length_set_nth {A : Type} (k : nat) (v : A) (l : list A) :
  length (set_nth k v l) = length l.
Proof.
  revert k; induction l as [|x l IH]; intros [|k]; simpl; auto.
Qed.

Lemma nth_set_nth_eq {A : Type} (k : nat) (v d : A) (l : list A) :
  (k < length l)%nat -> nth k (set_nth k v l) d = v.
Proof.
  revert k; induction l as [|x l IH]; intros [|k]; simpl; intros H;
    try lia; auto.
  apply IH; lia.
Qed.

Lemma nth_set_nth_neq {A : Type} (k j : nat) (v d : A) (l : list A) :
  j <> k -> nth j (set_nth k v l) d = nth j l d.
Proof.
  revert k j; induction l as [|x l IH]; intros [|k] [|j]; simpl; intros H;
    try congruence; auto.
Qed.

(* --------------------------------------------------------------------- *)
(** ** Module loading *)
(* --------------------------------------------------------------------- *)


Example import_graph_utils_ok :
  exists ns, import_module 1 graph_utils = Some (Return ns)
             /\ bound "adjacency_hamiltonian" ns = false.
Proof. eexists; split; reflexivity. Qed.

Example import_continuous_walk_ok :
  exists ns, import_module 1 continuous_walk = Some (Return ns)
             /\ bound "adjacency_hamiltonian" ns = true.
Proof. eexists; split; reflexivity. Qed.

(** C1.  [search.py] imports [adjacency_hamiltonian] from [graph_utils],
    which has no such definition (only [continuous_walk] has one).  So
    importing the search module raises [ImportError], and every attempt to
    reach [build_search_hamiltonian], [search_continuous_walk] or
    [benchmark_search] through it fails with that error at module load,
    whatever the nesting bound (two levels are needed). *)
Theorem search_module_import_error :
  defines graph_utils "adjacency_hamiltonian" = false
  /\ (forall m, defines m "adjacency_hamiltonian"
               = match m with continuous_walk => true | _ => false end)
  /\ forall depth,
       import_module (S (S depth)) search = Some (Raise ImportError)
       /\ call_via (S (S depth)) search "build_search_hamiltonian"
          = Some (Raise ImportError)
       /\ call_via (S (S depth)) search "search_continuous_walk"
          = Some (Raise ImportError)
       /\ call_via (S (S depth)) search "benchmark_search"
          = Some (Raise ImportError).
Proof.
  split; [reflexivity|]. split.
  - intros m; destruct m; reflexivity.
  - intros depth. repeat split; reflexivity.
Qed.

(* --------------------------------------------------------------------- *)
(** ** The coined-walk circuit builder *)
(* --------------------------------------------------------------------- *)

Import CoinedWalk.

(** The builder looks at [coin_type] only through the test against
    ['hadamard']: every other string takes the Grover branch. *)
Lemma walk_step_not_hadamard (c : string) (n_coin : nat)
    (coin_qubits pos_qubits : list nat) (step : nat) (qc : QuantumCircuit) :
  String.eqb c "hadamard" = false ->
  walk_step c n_coin coin_qubits pos_qubits step qc
  = walk_step "grover" n_coin coin_qubits pos_qubits step qc.
Proof.
  intros Hc. unfold walk_step. rewrite Hc. reflexivity.
Qed.

Lemma build_not_hadamard (k s : nat) (c : string) :
  String.eqb c "hadamard" = false ->
  build_coined_walk_circuit k s c = build_coined_walk_circuit k s "grover".
Proof.
  intros Hc. unfold build_coined_walk_circuit. rewrite Hc.
  change (String.eqb "grover" "hadamard") with false. cbv iota.
  f_equal. apply for_each_ext. intros step qc _.
  apply walk_step_not_hadamard; exact Hc.
Qed.

Lemma walk_step_returns (c : string) (n_coin : nat)
    (coin_qubits pos_qubits : list nat) (step : nat) (qc : QuantumCircuit) :
  coin_qubits <> [] -> pos_qubits <> [] ->
  exists qc', walk_step c n_coin coin_qubits pos_qubits step qc = Return qc'.
Proof.
  intros Hcq Hpq.
  destruct coin_qubits as [|c0 cq]; [congruence|].
  destruct pos_qubits as [|p0 pq]; [congruence|].
  unfold walk_step.
  change 0%Z with (Z.of_nat 0).
  rewrite !(getitem_nat (c0 :: cq) 0 c0) by (simpl; lia).
  rewrite (getitem_nat (p0 :: pq) 0 p0) by (simpl; lia).
  destruct (String.eqb c "hadamard" && Nat.eqb n_coin 1); simpl bind;
    apply for_each_returns; intros i acc Hi; apply in_seq in Hi;
    rewrite (getitem_nat (p0 :: pq) i p0) by (simpl in *; lia);
    simpl; eauto.
Qed.

Lemma build_returns (k s : nat) (c : string) :
  (1 <= k)%nat -> exists qc, build_coined_walk_circuit k s c = Return qc.
Proof.
  intros Hk. unfold build_coined_walk_circuit.
  set (n_coin := if String.eqb c "hadamard" then 1%nat else k).
  assert (Hn : (1 <= n_coin)%nat)
    by (unfold n_coin; destruct (String.eqb c "hadamard"); lia).
  match goal with
  | |- context [for_each ?f ?xs ?q] =>
      destruct (for_each_returns f xs) with (s := q) as [qc1 E1]
  end.
  { intros step acc _. apply walk_step_returns.
    - destruct n_coin; [lia|]. simpl. discriminate.
    - replace (k + n_coin - n_coin)%nat with k by lia.
      destruct k; [lia|]. simpl. discriminate. }
  rewrite E1. simpl bind.
  match goal with
  | |- context [for_enumerate ?f ?i0 ?xs ?q] =>
      assert (Hm : exists qc2, for_enumerate f i0 xs q = Return qc2)
  end.
  { apply for_enumerate_returns. intros i q acc. eexists; reflexivity. }
  destruct Hm as [qc2 E2].
  rewrite E2. simpl. eauto.
Qed.

(** C4, as the code has it.  A [coin_type] other than ['hadamard'] is not
    checked any further: for at least one position qubit the builder
    reports no error and returns the very circuit it returns for
    ['grover']. *)
Theorem unsupported_coin_type_builds_grover_walk (k s : nat) (c : string) :
  c <> "hadamard" -> (1 <= k)%nat ->
  exists qc, build_coined_walk_circuit k s c = Return qc
             /\ build_coined_walk_circuit k s "grover" = Return qc.
Proof.
  intros Hc Hk.
  destruct (build_returns k s c Hk) as [qc E].
  exists qc. split; [exact E|].
  rewrite <- E. symmetry. apply build_not_hadamard.
  apply String.eqb_neq. exact Hc.
Qed.

Lemma unsupported_coin_type_builds_grover_walk_witness :
  ("fourier" <> "hadamard" /\ (1 <= 2)%nat)
  /\ exists qc, build_coined_walk_circuit 2 3 "fourier" = Return qc
                /\ build_coined_walk_circuit 2 3 "grover" = Return qc.
Proof.
  split; [split; [discriminate | lia]|].
  apply (unsupported_coin_type_builds_grover_walk 2 3 "fourier").
  - discriminate.
  - lia.
Defined.

(** C4, as the specification words it, fails: the coin type ['fourier'] is
    neither ['hadamard'] nor ['grover'], yet one walk step on one position
    qubit is built without any error, with the Grover coin on the coin
    qubit. *)
Lemma unsupported_coin_type_not_rejected :
  "fourier" <> "hadamard" /\ "fourier" <> "grover"
  /\ build_coined_walk_circuit 1 1 "fourier"
     = Return {| num_qubits := 2;
                 num_clbits := 1;
                 data := [ h 0;
                           unitary (grover_coin 1) [0%nat] "C0";
                           cx 0 1;
                           measure 1 0 ] |}.
Proof.
  split; [discriminate|]. split; [discriminate|]. reflexivity.
Qed.

Close Scope string_scope.

(* --------------------------------------------------------------------- *)
(** ** Arrays *)
(* --------------------------------------------------------------------- *)

(** Evaluate the array structure of a goal, leaving real arithmetic alone. *)
Ltac eval_arrays :=
  cbv - [Rplus Rmult Ropp Rminus Rdiv Rinv IZR INR sqrt PI Rlt_dec].

Lemma nth_map_seq {A : Type} (f : nat -> A) (s n i : nat) (d : A) :
  (i < n)%nat -> nth i (map f (seq s n)) d = f (s + i)%nat.
Proof.
  intros H.
  rewrite (nth_indep _ d (f 0%nat)) by (rewrite length_map, length_seq; exact H).
  rewrite map_nth. rewrite seq_nth by exact H. reflexivity.
Qed.

Lemma nth_repeat_lt {A : Type} (x d : A) (n i : nat) :
  (i < n)%nat -> nth i (repeat x n) d = x.
Proof.
  revert i; induction n as [|n IH]; intros [|i] H; simpl; try lia; auto.
  apply IH; lia.
Qed.

Lemma In_repeat {A : Type} (x y : A) (n : nat) : In y (repeat x n) -> y = x.
Proof. intros H. exact (repeat_spec n x y H). Qed.

Lemma length_vmap2 {A B D : Type} (f : A -> B -> D) (u : list A) (v : list B) :
  length u = length v -> length (vmap2 f u v) = length u.
Proof.
  intros H. unfold vmap2. rewrite length_map, length_combine. lia.
Qed.

Lemma nth_vmap2 {A B D : Type} (f : A -> B -> D) (u : list A) (v : list B)
    (i : nat) (a : A) (b : B) (d : D) :
  length u = length v -> (i < length u)%nat ->
  nth i (vmap2 f u v) d = f (nth i u a) (nth i v b).
Proof.
  intros Hl Hi. unfold vmap2.
  rewrite (nth_indep _ d (f (fst (a, b)) (snd (a, b))))
    by (rewrite length_map, length_combine; lia).
  rewrite (map_nth (fun p => f (fst p) (snd p))).
  rewrite combine_nth by exact Hl. reflexivity.
Qed.

Lemma square_nth {A : Type} (n : nat) (M : list (list A)) (i : nat) :
  square n M -> (i < n)%nat -> length (nth i M []) = n.
Proof.
  intros [Hl Hr] Hi. apply Hr. apply nth_In. lia.
Qed.

Lemma square_map_seq {A : Type} (n : nat) (f : nat -> nat -> A) :
  square n (map (fun i => map (fun j => f i j) (seq 0 n)) (seq 0 n)).
Proof.
  split.
  - rewrite length_map, length_seq. reflexivity.
  - intros row H. apply in_map_iff in H. destruct H as [i [<- _]].
    rewrite length_map, length_seq. reflexivity.
Qed.

Lemma square_mmap {A B : Type} (n : nat) (f : A -> B) (M : list (list A)) :
  square n M -> square n (mmap f M).
Proof.
  intros [Hl Hr]. unfold mmap. split.
  - rewrite length_map. exact Hl.
  - intros row H. apply in_map_iff in H. destruct H as [r [<- Hin]].
    rewrite length_map. apply Hr. exact Hin.
Qed.

Lemma nth_mmap {A B : Type} (n : nat) (f : A -> B) (M : list (list A))
    (i j : nat) (a : A) (b : B) :
  square n M -> (i < n)%nat -> (j < n)%nat ->
  nth j (nth i (mmap f M) []) b = f (nth j (nth i M []) a).
Proof.
  intros HM Hi Hj. unfold mmap.
  change (@nil B) with (map f []). rewrite map_nth.
  rewrite (nth_indep _ b (f a))
    by (rewrite length_map, (square_nth n M i HM Hi); exact Hj).
  apply map_nth.
Qed.

Lemma square_mmap2 {A B D : Type} (n : nat) (f : A -> B -> D)
    (M1 : list (list A)) (M2 : list (list B)) :
  square n M1 -> square n M2 -> square n (mmap2 f M1 M2).
Proof.
  intros [Hl1 Hr1] [Hl2 Hr2]. unfold mmap2. split.
  - rewrite length_vmap2 by congruence. exact Hl1.
  - intros row H. unfold vmap2 at 1 in H.
    apply in_map_iff in H. destruct H as [[r1 r2] [<- Hin]]. simpl.
    pose proof (in_combine_l _ _ _ _ Hin) as H1.
    pose proof (in_combine_r _ _ _ _ Hin) as H2.
    rewrite length_vmap2; [apply Hr1; exact H1|].
    rewrite (Hr1 _ H1), (Hr2 _ H2). reflexivity.
Qed.

Lemma nth_mmap2 {A B D : Type} (n : nat) (f : A -> B -> D)
    (M1 : list (list A)) (M2 : list (list B)) (i j : nat) (a : A) (b : B) (d : D) :
  square n M1 -> square n M2 -> (i < n)%nat -> (j < n)%nat ->
  nth j (nth i (mmap2 f M1 M2) []) d
  = f (nth j (nth i M1 []) a) (nth j (nth i M2 []) b).
Proof.
  intros H1 H2 Hi Hj. unfold mmap2.
  rewrite (nth_vmap2 (vmap2 f) M1 M2 i [] [] [])
    by (destruct H1, H2; lia).
  apply nth_vmap2.
  - rewrite (square_nth n M1 i H1 Hi), (square_nth n M2 i H2 Hi). reflexivity.
  - rewrite (square_nth n M1 i H1 Hi). exact Hj.
Qed.

Lemma square_zeros2 {A : Type} (z : A) (n : nat) : square n (zeros2 z n n).
Proof.
  unfold zeros2, zeros. split.
  - apply repeat_length.
  - intros row H. apply In_repeat in H. subst row. apply repeat_length.
Qed.

Lemma square_set_nth {A : Type} (n k : nat) (row : list A) (M : list (list A)) :
  square n M -> length row = n -> square n (set_nth k row M).
Proof.
  intros [Hl Hr] Hrow. split.
  - rewrite length_set_nth. exact Hl.
  - clear Hl. revert k. induction M as [|r M IH]; intros k x Hx.
    + destruct k; destruct Hx.
    + destruct k; simpl in Hx.
      * destruct Hx as [<-|Hx]; [exact Hrow|]. apply Hr. right; exact Hx.
      * destruct Hx as [<-|Hx]; [apply Hr; left; reflexivity|].
        apply (IH (fun r' H' => Hr r' (or_intror H')) k x Hx).
Qed.

(* --------------------------------------------------------------------- *)
(** ** The adjacency matrix *)
(* --------------------------------------------------------------------- *)

Lemma square_dense_adjacency (g : Graph) :
  square (number_of_nodes g) (dense_adjacency g).
Proof. apply square_map_seq. Qed.

Lemma nth_dense_adjacency (g : Graph) (i j : nat) :
  (i < number_of_nodes g)%nat -> (j < number_of_nodes g)%nat ->
  nth j (nth i (dense_adjacency g) []) 0
  = if has_edge g i j then 1 else 0.
Proof.
  intros Hi Hj. unfold dense_adjacency.
  rewrite (nth_map_seq _ 0 _ i []) by exact Hi.
  rewrite (nth_map_seq _ 0 _ j 0) by exact Hj.
  reflexivity.
Qed.

Lemma has_edge_sym (g : Graph) (i j : nat) : has_edge g i j = has_edge g j i.
Proof.
  unfold has_edge. induction (edges g) as [|e l IH]; simpl.
  - reflexivity.
  - rewrite IH. f_equal. apply orb_comm.
Qed.

Lemma nx_adjacency_matrix_nonempty (g : Graph) :
  (0 < number_of_nodes g)%nat ->
  nx_adjacency_matrix g = Return (dense_adjacency g).
Proof.
  intros H. unfold nx_adjacency_matrix.
  destruct (Nat.eqb_spec (number_of_nodes g) 0); [lia | reflexivity].
Qed.

(* --------------------------------------------------------------------- *)
(** ** The search Hamiltonian *)
(* --------------------------------------------------------------------- *)

Import Search.

(** The oracle projector after [oracle[w, w] = 1.0], for the resolved
    position [r] of [w]. *)
Lemma setitem2_oracle (n : nat) (w : Z) :
  (- Z.of_nat n <= w < Z.of_nat n)%Z ->
  setitem2 (zeros2 0 n n) w w 1
  = Return (set_nth (Z.to_nat (w mod Z.of_nat n))
                    (set_nth (Z.to_nat (w mod Z.of_nat n)) 1 (zeros 0 n))
                    (zeros2 0 n n)).
Proof.
  intros Hw. destruct (norm_index_in n w Hw) as [E Hr].
  unfold setitem2, setitem.
  assert (Hlen : length (zeros2 0 n n) = n) by apply repeat_length.
  rewrite Hlen, E. simpl bind.
  rewrite (nth_error_nth' _ (zeros 0 n)) by (rewrite Hlen; exact Hr).
  replace (nth (Z.to_nat (w mod Z.of_nat n)) (zeros2 0 n n) (zeros 0 n))
    with (zeros 0 n) by (symmetry; apply nth_repeat_lt; exact Hr).
  replace (length (zeros 0 n)) with n by (symmetry; apply repeat_length).
  rewrite E. reflexivity.
Qed.

Lemma setitem2_oracle_out (n : nat) (w : Z) :
  (w < - Z.of_nat n \/ Z.of_nat n <= w)%Z ->
  setitem2 (zeros2 0 n n) w w 1 = Raise IndexError.
Proof.
  intros Hw. unfold setitem2.
  assert (Hlen : length (zeros2 0 n n) = n) by apply repeat_length.
  rewrite Hlen, (norm_index_out n w Hw). reflexivity.
Qed.

Lemma square_oracle (n r : nat) :
  square n (set_nth r (set_nth r 1 (zeros 0 n)) (zeros2 0 n n)).
Proof.
  apply square_set_nth; [apply square_zeros2|].
  rewrite length_set_nth. apply repeat_length.
Qed.

Lemma nth_oracle (n r i j : nat) :
  (r < n)%nat -> (i < n)%nat -> (j < n)%nat ->
  nth j (nth i (set_nth r (set_nth r 1 (zeros 0 n)) (zeros2 0 n n)) []) 0
  = if Nat.eqb i r && Nat.eqb j r then 1 else 0.
Proof.
  intros Hr Hi Hj.
  destruct (Nat.eqb_spec i r) as [->|Hir]; simpl.
  - rewrite nth_set_nth_eq by (unfold zeros2; rewrite repeat_length; exact Hr).
    destruct (Nat.eqb_spec j r) as [->|Hjr].
    + apply nth_set_nth_eq. unfold zeros; rewrite repeat_length; exact Hr.
    + rewrite nth_set_nth_neq by exact Hjr. apply nth_repeat_lt; exact Hj.
  - rewrite nth_set_nth_neq by exact Hir.
    unfold zeros2. rewrite nth_repeat_lt by exact Hi.
    apply nth_repeat_lt; exact Hj.
Qed.

Lemma build_search_hamiltonian_in_range (g : Graph) (w : Z) (gamma : R) :
  (0 < number_of_nodes g)%nat ->
  (- Z.of_nat (number_of_nodes g) <= w < Z.of_nat (number_of_nodes g))%Z ->
  build_search_hamiltonian g w gamma
  = Return (mmap2 Rplus (mmap (Rmult (- gamma)) (dense_adjacency g))
              (set_nth (Z.to_nat (w mod Z.of_nat (number_of_nodes g)))
                 (set_nth (Z.to_nat (w mod Z.of_nat (number_of_nodes g))) 1
                    (zeros 0 (number_of_nodes g)))
                 (zeros2 0 (number_of_nodes g) (number_of_nodes g)))).
Proof.
  intros Hn Hw. unfold build_search_hamiltonian.
  rewrite (nx_adjacency_matrix_nonempty g Hn). simpl bind.
  rewrite (setitem2_oracle _ w Hw). reflexivity.
Qed.

Lemma build_search_hamiltonian_out_of_range (g : Graph) (w : Z) (gamma : R) :
  (0 < number_of_nodes g)%nat ->
  (w < - Z.of_nat (number_of_nodes g) \/ Z.of_nat (number_of_nodes g) <= w)%Z ->
  build_search_hamiltonian g w gamma = Raise IndexError.
Proof.
  intros Hn Hw. unfold build_search_hamiltonian.
  rewrite (nx_adjacency_matrix_nonempty g Hn). simpl bind.
  rewrite (setitem2_oracle_out _ w Hw). reflexivity.
Qed.

(** The entries of the search Hamiltonian: [-gamma * A] everywhere, plus
    one at the diagonal entry of the marked vertex. *)
Lemma build_search_hamiltonian_entries (g : Graph) (w : Z) (gamma : R) :
  (0 < number_of_nodes g)%nat ->
  (- Z.of_nat (number_of_nodes g) <= w < Z.of_nat (number_of_nodes g))%Z ->
  exists H,
    build_search_hamiltonian g w gamma = Return H
    /\ square (number_of_nodes g) H
    /\ forall i j, (i < number_of_nodes g)%nat -> (j < number_of_nodes g)%nat ->
         nth j (nth i H []) 0
         = - gamma * nth j (nth i (dense_adjacency g) []) 0
           + (if Nat.eqb i (Z.to_nat (w mod Z.of_nat (number_of_nodes g)))
                 && Nat.eqb j (Z.to_nat (w mod Z.of_nat (number_of_nodes g)))
              then 1 else 0).
Proof.
  intros Hn Hw. eexists. split; [apply build_search_hamiltonian_in_range; assumption|].
  destruct (norm_index_in _ w Hw) as [_ Hr].
  set (n := number_of_nodes g) in *.
  assert (HA : square n (mmap (Rmult (- gamma)) (dense_adjacency g)))
    by (apply square_mmap, square_dense_adjacency).
  split.
  - apply square_mmap2; [exact HA | apply square_oracle].
  - intros i j Hi Hj.
    rewrite (nth_mmap2 n Rplus _ _ i j 0 0 0 HA (square_oracle n _) Hi Hj).
    rewrite (nth_mmap n (Rmult (- gamma)) _ i j 0 0 (square_dense_adjacency g) Hi Hj).
    rewrite nth_oracle by assumption. reflexivity.
Qed.

(** C3, as the code has it.  On a graph with [N >= 1] nodes the builder
    raises [IndexError] exactly for a marked-vertex index outside
    [-N, N).  Inside [-N, N) it returns an [N] by [N] matrix, [-gamma * A]
    plus one at the diagonal entry of the marked vertex, which is [w] for
    [w >= 0] and [w + N] for an index in [-N, 0): numpy resolves a
    negative index from the end, so the call with [w] in [-N, 0) returns
    what the call with [w + N] returns. *)
Theorem build_search_hamiltonian_index_error (g : Graph) (w : Z) (gamma : R) :
  (0 < number_of_nodes g)%nat ->
  (build_search_hamiltonian g w gamma = Raise IndexError
   <-> (w < - Z.of_nat (number_of_nodes g) \/ Z.of_nat (number_of_nodes g) <= w)%Z)
  /\ ((- Z.of_nat (number_of_nodes g) <= w < Z.of_nat (number_of_nodes g))%Z ->
      let marked :=
        Z.to_nat (if (w <? 0)%Z then w + Z.of_nat (number_of_nodes g) else w) in
      exists H, build_search_hamiltonian g w gamma = Return H
                /\ square (number_of_nodes g) H
                /\ forall i j,
                     (i < number_of_nodes g)%nat -> (j < number_of_nodes g)%nat ->
                     nth j (nth i H []) 0
                     = - gamma * nth j (nth i (dense_adjacency g) []) 0
                       + (if Nat.eqb i marked && Nat.eqb j marked
                          then 1 else 0))
  /\ ((- Z.of_nat (number_of_nodes g) <= w < 0)%Z ->
      build_search_hamiltonian g w gamma
      = build_search_hamiltonian g (w + Z.of_nat (number_of_nodes g)) gamma).
Proof.
  intros Hn.
  assert (Hres : forall v,
            (- Z.of_nat (number_of_nodes g) <= v < Z.of_nat (number_of_nodes g))%Z ->
            (v mod Z.of_nat (number_of_nodes g))%Z
            = (if (v <? 0)%Z then v + Z.of_nat (number_of_nodes g) else v)%Z).
  { intros v Hv. destruct (Z.ltb_spec v 0) as [Hneg|Hpos].
    - rewrite <- (Z_mod_plus_full v 1 (Z.of_nat (number_of_nodes g))).
      rewrite Z.mul_1_l. apply Z.mod_small. lia.
    - apply Z.mod_small. lia. }
  split; [split|split].
  - intros E.
    destruct (Z_lt_le_dec w (- Z.of_nat (number_of_nodes g))) as [Hlo|Hlo];
      [left; exact Hlo|].
    destruct (Z_lt_le_dec w (Z.of_nat (number_of_nodes g))) as [Hhi|Hhi];
      [|right; exact Hhi].
    rewrite build_search_hamiltonian_in_range in E by (assumption || lia).
    discriminate E.
  - apply build_search_hamiltonian_out_of_range; exact Hn.
  - intros Hw marked.
    destruct (build_search_hamiltonian_entries g w gamma Hn Hw) as [H [E [Hsq He]]].
    exists H. split; [exact E|]. split; [exact Hsq|].
    intros i j Hi Hj. rewrite (He i j Hi Hj). unfold marked.
    rewrite (Hres w Hw). reflexivity.
  - intros Hw.
    rewrite !build_search_hamiltonian_in_range by (assumption || lia).
    rewrite (Hres w) by lia.
    rewrite (Hres (w + Z.of_nat (number_of_nodes g))%Z) by lia.
    destruct (Z.ltb_spec w 0) as [_|Hpos]; [|lia].
    destruct (Z.ltb_spec (w + Z.of_nat (number_of_nodes g)) 0) as [Hneg|_]; [lia|].
    reflexivity.
Qed.

Lemma build_search_hamiltonian_index_error_witness :
  (0 < number_of_nodes single_edge)%nat
  /\ (build_search_hamiltonian single_edge (-2) 1 = Raise IndexError
      <-> (-2 < - Z.of_nat 2 \/ Z.of_nat 2 <= -2)%Z)
  /\ ((- Z.of_nat 2 <= -2 < Z.of_nat 2)%Z ->
      let marked := Z.to_nat (if (-2 <? 0)%Z then -2 + Z.of_nat 2 else -2) in
      exists H, build_search_hamiltonian single_edge (-2) 1 = Return H
                /\ square 2 H
                /\ forall i j,
                     (i < 2)%nat -> (j < 2)%nat ->
                     nth j (nth i H []) 0
                     = - 1 * nth j (nth i (dense_adjacency single_edge) []) 0
                       + (if Nat.eqb i marked && Nat.eqb j marked
                          then 1 else 0))
  /\ ((- Z.of_nat 2 <= -2 < 0)%Z ->
      build_search_hamiltonian single_edge (-2) 1
      = build_search_hamiltonian single_edge (-2 + Z.of_nat 2) 1).
Proof.
  split; [simpl; lia|].
  apply (build_search_hamiltonian_index_error single_edge (-2) 1).
  simpl. lia.
Defined.

(** C3, as the specification words it, fails: [-1] lies outside [0, 2),
    yet on the two-node graph the builder raises nothing and marks the last
    vertex. *)
Lemma negative_marked_vertex_accepted :
  ~ (0 <= -1 < Z.of_nat (number_of_nodes single_edge))%Z
  /\ build_search_hamiltonian single_edge (-1) 1
     = Return [[0; -1]; [-1; 1]].
Proof.
  split; [simpl; lia|].
  rewrite build_search_hamiltonian_in_range by (simpl; lia).
  eval_arrays. repeat f_equal; lra.
Qed.

(* --------------------------------------------------------------------- *)
(** ** The plain Hamiltonian *)
(* --------------------------------------------------------------------- *)

Import ContinuousWalk.

(** What [adjacency_hamiltonian] returns on a graph with nodes: the
    adjacency matrix, neither negated nor scaled. *)
Lemma adjacency_hamiltonian_nonempty (g : Graph) :
  (0 < number_of_nodes g)%nat ->
  adjacency_hamiltonian g = Return (dense_adjacency g).
Proof. apply nx_adjacency_matrix_nonempty. Qed.

(** C2, at the two-node graph with one edge.  [adjacency_hamiltonian]
    returns the adjacency matrix [[0, 1], [1, 0]] itself; the matrix
    [-gamma * A] for the default [gamma = 1] is a different one. *)
Theorem adjacency_hamiltonian_single_edge :
  adjacency_hamiltonian single_edge = Return (dense_adjacency single_edge)
  /\ dense_adjacency single_edge = [[0; 1]; [1; 0]]
  /\ mmap (Rmult (- 1)) (dense_adjacency single_edge) = [[0; -1]; [-1; 0]]
  /\ dense_adjacency single_edge
     <> mmap (Rmult (- 1)) (dense_adjacency single_edge).
Proof.
  split; [reflexivity|]. split; [reflexivity|].
  assert (E : mmap (Rmult (- 1)) (dense_adjacency single_edge)
              = [[0; -1]; [-1; 0]])
    by (eval_arrays; repeat f_equal; lra).
  split; [exact E|].
  rewrite E. eval_arrays. intros H.
  apply (f_equal (fun M => nth 1 (nth 0 M []) 0)) in H. simpl in H. lra.
Qed.

(** C5, as the code has it.  The search Hamiltonian differs from
    [-gamma * A], for the adjacency matrix [A] of the graph, in exactly one
    entry: the diagonal entry of the marked vertex, where it is larger by
    one.  All other entries agree. *)
Theorem oracle_locality (g : Graph) (w : Z) (gamma : R) :
  (0 <= w < Z.of_nat (number_of_nodes g))%Z ->
  exists H,
    build_search_hamiltonian g w gamma = Return H
    /\ square (number_of_nodes g) H
    /\ forall i j, (i < number_of_nodes g)%nat -> (j < number_of_nodes g)%nat ->
         nth j (nth i H []) 0
         - nth j (nth i (mmap (Rmult (- gamma)) (dense_adjacency g)) []) 0
         = if Nat.eqb i (Z.to_nat w) && Nat.eqb j (Z.to_nat w) then 1 else 0.
Proof.
  intros Hw.
  assert (Hn : (0 < number_of_nodes g)%nat) by lia.
  destruct (build_search_hamiltonian_entries g w gamma Hn) as [H [E [Hsq Hent]]];
    [lia|].
  exists H. split; [exact E|]. split; [exact Hsq|].
  intros i j Hi Hj. rewrite (Hent i j Hi Hj).
  rewrite (nth_mmap _ (Rmult (- gamma)) _ i j 0 0
             (square_dense_adjacency g) Hi Hj).
  rewrite Z.mod_small by lia. ring.
Qed.

Lemma oracle_locality_witness :
  (0 <= 1 < Z.of_nat (number_of_nodes single_edge))%Z
  /\ exists H,
       build_search_hamiltonian single_edge 1 (1 / 2) = Return H
       /\ square 2 H
       /\ forall i j, (i < 2)%nat -> (j < 2)%nat ->
            nth j (nth i H []) 0
            - nth j (nth i (mmap (Rmult (- (1 / 2))) (dense_adjacency single_edge))
                         []) 0
            = if Nat.eqb i 1 && Nat.eqb j 1 then 1 else 0.
Proof.
  split; [simpl; lia|].
  apply (oracle_locality single_edge 1 (1 / 2)).
  simpl. lia.
Defined.

(** C5, as the specification words it, fails on the two-node graph with
    one edge, marked vertex 0 and [gamma = 1].  The search Hamiltonian is
    [[1, -1], [-1, 0]], what [adjacency_hamiltonian] returns is
    [[0, 1], [1, 0]]: the two differ at the off-diagonal entry (0, 1) as
    well, not only at the marked diagonal entry (0, 0). *)
Lemma search_hamiltonian_differs_off_diagonal :
  build_search_hamiltonian single_edge 0 1 = Return [[1; -1]; [-1; 0]]
  /\ adjacency_hamiltonian single_edge = Return [[0; 1]; [1; 0]]
  /\ nth 1 (nth 0 [[1; -1]; [-1; 0]] []) 0
     <> nth 1 (nth 0 [[0; 1]; [1; 0]] []) 0.
Proof.
  split; [|split].
  - rewrite build_search_hamiltonian_in_range by (simpl; lia).
    eval_arrays. repeat f_equal; lra.
  - reflexivity.
  - simpl. lra.
Qed.

(* --------------------------------------------------------------------- *)
(** ** Complex arithmetic *)
(* --------------------------------------------------------------------- *)

Lemma C_eq (z w : C) : fst z = fst w -> snd z = snd w -> z = w.
Proof. destruct z, w; simpl; intros -> ->; reflexivity. Qed.

Lemma Cplus_0_r (z : C) : Cplus z C0 = z.
Proof. apply C_eq; simpl; lra. Qed.

Lemma Cplus_0_l (z : C) : Cplus C0 z = z.
Proof. apply C_eq; simpl; lra. Qed.

Lemma Cmult_0_l (z : C) : Cmult C0 z = C0.
Proof. apply C_eq; simpl; lra. Qed.

Lemma Cmult_0_r (z : C) : Cmult z C0 = C0.
Proof. apply C_eq; simpl; lra. Qed.

Lemma Cmult_1_l (z : C) : Cmult C1 z = z.
Proof. apply C_eq; simpl; lra. Qed.

Lemma Csum_zero (l : list C) : (forall z, In z l -> z = C0) -> Csum l = C0.
Proof.
  induction l as [|z l IH]; intros H; simpl.
  - reflexivity.
  - rewrite (H z (or_introl eq_refl)), IH, Cplus_0_l; [reflexivity|].
    intros w Hw. apply H. right; exact Hw.
Qed.

Lemma np_abs_real (x : R) : np_abs (RtoC x) ^ 2 = x * x.
Proof.
  unfold np_abs, RtoC; simpl fst; simpl snd.
  replace (x * x + 0 * 0) with (x * x) by lra.
  simpl pow. rewrite Rmult_1_r. apply sqrt_sqrt.
  apply Rle_0_sqr.
Qed.

(* --------------------------------------------------------------------- *)
(** ** The matrix exponential of a zero matrix *)
(* --------------------------------------------------------------------- *)

Lemma lim_seq_const (u : nat -> R) (c : R) :
  (forall k, u k = c) -> lim_seq u = c.
Proof.
  intros Hu.
  assert (Hc : Un_cv u c).
  { intros eps Heps. exists 0%nat. intros k _. rewrite Hu.
    unfold Rdist. rewrite Rminus_diag, Rabs_R0. exact Heps. }
  unfold lim_seq.
  apply (UL_sequence u); [|exact Hc].
  apply epsilon_spec. exists c; exact Hc.
Qed.

Lemma Clim_const (u : nat -> C) (c : C) :
  (forall k, u k = c) -> Clim u = c.
Proof.
  intros Hu. unfold Clim. apply C_eq; simpl;
    apply lim_seq_const; intros k; rewrite Hu; reflexivity.
Qed.

Lemma mget_mat_init (n : nat) (f : nat -> nat -> C) (i j : nat) :
  (i < n)%nat -> (j < n)%nat -> mget (mat_init n f) i j = f i j.
Proof.
  intros Hi Hj. unfold mget, mat_init.
  rewrite (nth_map_seq _ 0 n i []) by exact Hi.
  rewrite (nth_map_seq _ 0 n j C0) by exact Hj.
  reflexivity.
Qed.

Lemma mat_init_ext (n : nat) (f g : nat -> nat -> C) :
  (forall i j, (i < n)%nat -> (j < n)%nat -> f i j = g i j) ->
  mat_init n f = mat_init n g.
Proof.
  intros H. unfold mat_init.
  apply map_ext_in. intros i Hi. apply in_seq in Hi.
  apply map_ext_in. intros j Hj. apply in_seq in Hj.
  apply H; lia.
Qed.

Section ZeroMatrix.

Variable n : nat.
Variable M : list (list C).
Hypothesis M_zero :
  forall i j, (i < n)%nat -> (j < n)%nat -> mget M i j = C0.

Lemma mpow_zero (k i j : nat) :
  (i < n)%nat -> (j < n)%nat -> mget (mpow n M (S k)) i j = C0.
Proof.
  intros Hi Hj. simpl. unfold mmul.
  rewrite mget_mat_init by assumption.
  apply Csum_zero. intros z Hz.
  apply in_map_iff in Hz. destruct Hz as [l [<- Hl]].
  apply in_seq in Hl.
  rewrite M_zero by lia. apply Cmult_0_l.
Qed.

Lemma expm_partial_zero (k i j : nat) :
  (i < n)%nat -> (j < n)%nat ->
  mget (expm_partial n M k) i j = mget (midentity n) i j.
Proof.
  intros Hi Hj. induction k as [|k IH]; [reflexivity|].
  change (expm_partial n M (S k))
    with (madd n (expm_partial n M k)
                 (mscale n (/ INR (fact (S k))) (mpow n M (S k)))).
  unfold madd at 1.
  rewrite mget_mat_init by assumption.
  rewrite IH. unfold mscale.
  rewrite mget_mat_init by assumption.
  rewrite mpow_zero by assumption.
  rewrite Cmult_0_r. apply Cplus_0_r.
Qed.

Lemma expm_zero : length M = n -> expm M = midentity n.
Proof.
  intros Hlen. unfold expm. rewrite Hlen.
  unfold midentity at 1. apply mat_init_ext. intros i j Hi Hj.
  apply Clim_const. intros k.
  rewrite expm_partial_zero by assumption.
  unfold midentity. apply mget_mat_init; assumption.
Qed.

End ZeroMatrix.

(** [I @ v = v] *)
Lemma Csum_delta_row (i : nat) (v : list C) (s : nat) :
  Csum (vmap2 Cmult
          (map (fun j => if Nat.eqb i j then C1 else C0) (seq s (length v))) v)
  = if (s <=? i)%nat && (i <? s + length v)%nat then nth (i - s) v C0 else C0.
Proof.
  revert s. induction v as [|z v IH]; intros s.
  - simpl. destruct (s <=? i)%nat, (i <? s + 0)%nat; simpl;
      destruct (i - s)%nat; reflexivity.
  - simpl length. simpl seq. simpl map. unfold vmap2. simpl combine. simpl map.
    simpl Csum. fold (vmap2 Cmult
                        (map (fun j => if Nat.eqb i j then C1 else C0)
                             (seq (S s) (length v))) v).
    rewrite IH.
    destruct (Nat.eqb_spec i s) as [->|Hne];
      [rewrite Cmult_1_l | rewrite Cmult_0_l, Cplus_0_l];
      repeat match goal with
        | |- context [(?a <=? ?b)%nat] => destruct (Nat.leb_spec a b)
        | |- context [(?a <? ?b)%nat] => destruct (Nat.ltb_spec a b)
        end; simpl andb; cbv iota; try lia; try reflexivity.
    + rewrite Nat.sub_diag. apply Cplus_0_r.
    + replace (i - s)%nat with (S (i - S s)) by lia. reflexivity.
Qed.

Lemma matvec_identity (v : list C) : matvec (midentity (length v)) v = v.
Proof.
  unfold matvec, midentity, mat_init. rewrite map_map.
  apply (nth_ext _ _ C0 C0).
  - rewrite length_map, length_seq. reflexivity.
  - intros i Hi. rewrite length_map, length_seq in Hi.
    rewrite (nth_map_seq _ 0 _ i C0) by exact Hi.
    simpl Nat.add. rewrite Csum_delta_row.
    simpl Nat.leb. simpl Nat.add.
    replace (i <? length v)%nat with true by (symmetry; apply Nat.ltb_lt; lia).
    simpl andb. rewrite Nat.sub_0_r. reflexivity.
Qed.

(* --------------------------------------------------------------------- *)
(** ** Evolution for time zero *)
(* --------------------------------------------------------------------- *)

Lemma length_mmap {A B : Type} (f : A -> B) (M : list (list A)) :
  length (mmap f M) = length M.
Proof. apply length_map. Qed.

(** For [time = 0] every entry of [-1j * gamma * A * time] is zero. *)
Lemma walk_generator_zero_time (n : nat) (gamma : R) (A : list (list R))
    (i j : nat) :
  square n A -> (i < n)%nat -> (j < n)%nat ->
  mget (ContinuousWalk.generator gamma A 0) i j = C0.
Proof.
  intros HA Hi Hj. unfold mget, ContinuousWalk.generator.
  rewrite (nth_mmap n _ A i j 0 C0 HA Hi Hj).
  apply Cmult_0_r.
Qed.

Lemma search_generator_zero_time (n : nat) (H : list (list R)) (i j : nat) :
  square n H -> (i < n)%nat -> (j < n)%nat ->
  mget (Search.generator H 0) i j = C0.
Proof.
  intros HH Hi Hj. unfold mget, Search.generator.
  rewrite (nth_mmap n _ H i j 0 C0 HH Hi Hj).
  apply Cmult_0_r.
Qed.

(** The localized initial state. *)
Lemma setitem_localized (n : nat) (initial_node : Z) :
  (- Z.of_nat n <= initial_node < Z.of_nat n)%Z ->
  setitem (zeros C0 n) initial_node (RtoC 1)
  = Return (set_nth (Z.to_nat (initial_node mod Z.of_nat n)) (RtoC 1)
                    (zeros C0 n)).
Proof.
  intros H. unfold setitem, zeros. rewrite repeat_length.
  destruct (norm_index_in n initial_node H) as [E _]. rewrite E. reflexivity.
Qed.

Lemma localized_probabilities (n k : nat) :
  (k < n)%nat ->
  map (fun z => np_abs z ^ 2) (set_nth k (RtoC 1) (zeros C0 n))
  = map (fun i => if Nat.eqb i k then 1 else 0) (seq 0 n).
Proof.
  intros Hk. apply (nth_ext _ _ 0 0).
  - rewrite !length_map, length_set_nth, length_seq. apply repeat_length.
  - intros i Hi.
    rewrite length_map, length_set_nth in Hi. unfold zeros in Hi.
    rewrite repeat_length in Hi.
    rewrite (nth_map_seq _ 0 n i 0) by exact Hi. simpl Nat.add.
    rewrite (nth_indep _ 0 (np_abs C0 ^ 2))
      by (rewrite length_map, length_set_nth; unfold zeros;
          rewrite repeat_length; exact Hi).
    rewrite (map_nth (fun z => np_abs z ^ 2)).
    destruct (Nat.eqb_spec i k) as [->|Hne].
    + rewrite nth_set_nth_eq by (unfold zeros; rewrite repeat_length; exact Hk).
      rewrite np_abs_real. lra.
    + rewrite nth_set_nth_neq by exact Hne.
      unfold zeros. rewrite nth_repeat_lt by exact Hi.
      unfold C0. rewrite np_abs_real. lra.
Qed.

(** Evolving for [time = t] from a valid initial node always returns. *)
Lemma evolve_continuous_walk_in_range (g : Graph) (initial_node : Z)
    (t gamma : R) :
  (- Z.of_nat (number_of_nodes g) <= initial_node
   < Z.of_nat (number_of_nodes g))%Z ->
  let psi_0 := set_nth (Z.to_nat (initial_node mod Z.of_nat (number_of_nodes g)))
                       (RtoC 1) (zeros C0 (number_of_nodes g)) in
  let psi_t := matvec (expm (ContinuousWalk.generator gamma (dense_adjacency g) t))
                      psi_0 in
  evolve_continuous_walk g initial_node t gamma
  = Return {| probabilities := map (fun z => np_abs z ^ 2) psi_t;
              state := psi_t |}.
Proof.
  intros Hi psi_0 psi_t. unfold evolve_continuous_walk.
  rewrite adjacency_hamiltonian_nonempty by lia. simpl bind.
  rewrite (setitem_localized _ _ Hi). reflexivity.
Qed.

(** C7.  Zero-time identity: evolving for [time = 0] from a node that
    the state vector can be indexed with leaves the localized initial
    state unchanged, so the returned probabilities are [|psi_0|^2], that
    is 1 at the initial node and 0 everywhere else. *)
Theorem zero_time_identity (g : Graph) (initial_node : Z) (gamma : R) :
  (- Z.of_nat (number_of_nodes g) <= initial_node
   < Z.of_nat (number_of_nodes g))%Z ->
  let k := Z.to_nat (initial_node mod Z.of_nat (number_of_nodes g)) in
  let psi_0 := set_nth k (RtoC 1) (zeros C0 (number_of_nodes g)) in
  exists r,
    evolve_continuous_walk g initial_node 0 gamma = Return r
    /\ state r = psi_0
    /\ probabilities r = map (fun z => np_abs z ^ 2) psi_0
    /\ probabilities r
       = map (fun i => if Nat.eqb i k then 1 else 0)
             (seq 0 (number_of_nodes g)).
Proof.
  intros Hi k psi_0.
  destruct (norm_index_in _ _ Hi) as [_ Hk]. fold k in Hk.
  set (n := number_of_nodes g) in *.
  assert (Hlen : length psi_0 = n)
    by (unfold psi_0; rewrite length_set_nth; apply repeat_length).
  assert (HU : expm (ContinuousWalk.generator gamma (dense_adjacency g) 0)
               = midentity n).
  { apply expm_zero.
    - intros i j Hi' Hj'.
      exact (walk_generator_zero_time n gamma _ i j
               (square_dense_adjacency g) Hi' Hj').
    - unfold ContinuousWalk.generator. rewrite length_mmap.
      apply square_dense_adjacency. }
  assert (Hpsi : matvec (expm (ContinuousWalk.generator gamma (dense_adjacency g) 0))
                        psi_0 = psi_0).
  { rewrite HU, <- Hlen. apply matvec_identity. }
  eexists. split; [apply evolve_continuous_walk_in_range; exact Hi|].
  fold n. fold k. fold psi_0. simpl state. simpl probabilities.
  rewrite Hpsi. split; [reflexivity|]. split; [reflexivity|].
  apply localized_probabilities. exact Hk.
Qed.

Lemma zero_time_identity_witness :
  (- Z.of_nat 2 <= 1 < Z.of_nat 2)%Z
  /\ exists r,
       evolve_continuous_walk single_edge 1 0 1 = Return r
       /\ state r = [C0; RtoC 1]
       /\ probabilities r = map (fun z => np_abs z ^ 2) [C0; RtoC 1]
       /\ probabilities r = [0; 1].
Proof.
  split; [lia|].
  apply (zero_time_identity single_edge 1 1).
  simpl. lia.
Defined.

(* --------------------------------------------------------------------- *)
(** ** Loops that fill an array row by row *)
(* --------------------------------------------------------------------- *)

Lemma set_nth_app {A : Type} (pre suf : list A) (x y : A) :
  set_nth (length pre) y (pre ++ x :: suf) = pre ++ y :: suf.
Proof.
  induction pre as [|p pre IH]; simpl; [reflexivity|].
  rewrite IH. reflexivity.
Qed.

Lemma setitem_app {A : Type} (pre suf : list A) (x y : A) :
  setitem (pre ++ x :: suf) (Z.of_nat (length pre)) y
  = Return (pre ++ y :: suf).
Proof.
  unfold setitem. rewrite norm_index_nonneg.
  - simpl. rewrite Nat2Z.id, set_nth_app. reflexivity.
  - rewrite length_app. simpl. lia.
Qed.

(** A loop that stores [f x] at position [i] for the [i]-th element [x]
    of [xs] overwrites the whole array with the images of [xs], in
    order; it raises what the first failing [f x] raises. *)
Lemma for_enumerate_fill {A B : Type} (f : A -> result B)
    (body : nat -> A -> list B -> result (list B)) :
  (forall i x acc, body i x acc = (y <- f x ;; setitem acc (Z.of_nat i) y)) ->
  forall (xs : list A) (pre suf : list B),
    length suf = length xs ->
    for_enumerate body (length pre) xs (pre ++ suf)
    = (ys <- mapM f xs ;; Return (pre ++ ys)).
Proof.
  intros Hbody. induction xs as [|x xs IH]; intros pre suf Hlen.
  - destruct suf; [|discriminate Hlen]. reflexivity.
  - destruct suf as [|s suf]; [discriminate Hlen|].
    simpl. rewrite Hbody.
    destruct (f x) as [y|e]; simpl; [|reflexivity].
    rewrite setitem_app. simpl.
    replace (pre ++ y :: suf) with ((pre ++ [y]) ++ suf)
      by (rewrite <- app_assoc; reflexivity).
    replace (S (length pre)) with (length (pre ++ [y]))
      by (rewrite length_app; simpl; lia).
    rewrite IH by (simpl in Hlen; lia).
    destruct (mapM f xs) as [ys|e]; simpl; [|reflexivity].
    rewrite <- app_assoc. reflexivity.
Qed.

Lemma mapM_Return_inv {A B : Type} (f : A -> result B) (xs : list A)
    (ys : list B) :
  mapM f xs = Return ys ->
  length ys = length xs
  /\ forall i a b, (i < length xs)%nat -> f (nth i xs a) = Return (nth i ys b).
Proof.
  revert ys. induction xs as [|x xs IH]; intros ys H; simpl in H.
  - injection H as <-. split; [reflexivity|]. intros i a b Hi. simpl in Hi. lia.
  - apply bind_Return_inv in H. destruct H as [y [Hy H]].
    apply bind_Return_inv in H. destruct H as [ys' [Hys H]].
    injection H as <-. destruct (IH ys' Hys) as [Hl Hn].
    split; [simpl; lia|].
    intros [|i] a b Hi; simpl; [exact Hy|]. apply Hn. simpl in Hi. lia.
Qed.

Lemma mapM_returns {A B : Type} (f : A -> result B) (xs : list A) :
  (forall x, In x xs -> exists y, f x = Return y) ->
  exists ys, mapM f xs = Return ys.
Proof.
  induction xs as [|x xs IH]; intros H; simpl.
  - eexists; reflexivity.
  - destruct (H x (or_introl eq_refl)) as [y ->].
    destruct IH as [ys ->]; [intros z Hz; apply H; right; exact Hz|].
    simpl. eexists; reflexivity.
Qed.

(* --------------------------------------------------------------------- *)
(** ** The time sweep *)
(* --------------------------------------------------------------------- *)

(** The loop of [sweep_evolution], which assigns row [i] of a zero matrix
    in place, computes what the specification describes: one independent
    evolution per requested time, stacked in the order of the times.
    This includes the exception raised, if any. *)
Lemma sweep_evolution_refines_spec (g : Graph) (initial_node : Z)
    (time_range : list R) (gamma : R) :
  sweep_evolution g initial_node time_range gamma
  = sweep_spec g initial_node time_range gamma.
Proof.
  unfold sweep_evolution, sweep_spec.
  rewrite (for_enumerate_fill
             (fun t => result <- evolve_continuous_walk g initial_node t gamma ;;
                       Return (probabilities result))
             _ )
    with (pre := [])
         (suf := zeros2 0 (length time_range) (number_of_nodes g)).
  - destruct (mapM _ time_range); reflexivity.
  - intros i t acc.
    destruct (evolve_continuous_walk g initial_node t gamma); reflexivity.
  - apply repeat_length.
Qed.

(** C8.  The sweep is indexed like its input: from a valid initial node
    it returns the time sequence it was given and a matrix with one row
    per time, whose [i]-th row is the probability vector that
    [evolve_continuous_walk] returns for the [i]-th time. *)
Theorem sweep_indexed_by_times (g : Graph) (initial_node : Z)
    (time_range : list R) (gamma : R) :
  (- Z.of_nat (number_of_nodes g) <= initial_node
   < Z.of_nat (number_of_nodes g))%Z ->
  exists r,
    sweep_evolution g initial_node time_range gamma = Return r
    /\ ContinuousWalk.times r = time_range
    /\ length (prob_matrix r) = length time_range
    /\ forall i, (i < length time_range)%nat ->
         exists e,
           evolve_continuous_walk g initial_node (nth i time_range 0) gamma
           = Return e
           /\ nth i (prob_matrix r) [] = probabilities e.
Proof.
  intros Hi. rewrite sweep_evolution_refines_spec. unfold sweep_spec.
  destruct (mapM_returns
              (fun t => result <- evolve_continuous_walk g initial_node t gamma ;;
                        Return (probabilities result)) time_range)
    as [rows Hrows].
  { intros t _. rewrite (evolve_continuous_walk_in_range g initial_node t gamma Hi).
    eexists; reflexivity. }
  rewrite Hrows. simpl bind. eexists. split; [reflexivity|].
  simpl. destruct (mapM_Return_inv _ _ _ Hrows) as [Hlen Hnth].
  split; [reflexivity|]. split; [exact Hlen|].
  intros i Hlt. specialize (Hnth i 0 [] Hlt). simpl in Hnth.
  apply bind_Return_inv in Hnth. destruct Hnth as [e [He Hp]].
  exists e. split; [exact He|]. injection Hp as Hp. symmetry; exact Hp.
Qed.

Lemma sweep_indexed_by_times_witness :
  (- Z.of_nat 2 <= 0 < Z.of_nat 2)%Z
  /\ exists r,
       sweep_evolution single_edge 0 [0; 1; 2] 1 = Return r
       /\ ContinuousWalk.times r = [0; 1; 2]
       /\ length (prob_matrix r) = 3%nat
       /\ forall i, (i < 3)%nat ->
            exists e,
              evolve_continuous_walk single_edge 0 (nth i [0; 1; 2] 0) 1
              = Return e
              /\ nth i (prob_matrix r) [] = probabilities e.
Proof.
  split; [lia|].
  apply (sweep_indexed_by_times single_edge 0 [0; 1; 2] 1).
  simpl. lia.
Defined.

(* --------------------------------------------------------------------- *)
(** ** [argmax] and [linspace] *)
(* --------------------------------------------------------------------- *)

(** The scan keeps the best value seen so far: the index it returns is
    either the incoming best (nothing in [l] is larger) or a position of
    [l] that holds an upper bound of everything seen. *)
Lemma argmax_from_spec (l : list R) :
  forall (best_i : nat) (best : R) (i : nat),
  exists m,
    best <= m
    /\ (forall x, In x l -> x <= m)
    /\ ((argmax_from best_i best i l = best_i /\ m = best)
        \/ ((i <= argmax_from best_i best i l < i + length l)%nat
            /\ nth (argmax_from best_i best i l - i) l 0 = m)).
Proof.
  induction l as [|x l IH]; intros best_i best i; simpl.
  - exists best. split; [lra|]. split; [intros x []|]. left; split; reflexivity.
  - destruct (Rlt_dec best x) as [Hlt|Hge].
    + destruct (IH i x (S i)) as [m [Hxm [Hall Hpos]]].
      exists m. split; [lra|]. split.
      * intros y [<-|Hy]; [exact Hxm | apply Hall; exact Hy].
      * right. destruct Hpos as [[-> ->]|[Hrange Hnth]].
        -- split; [lia|]. rewrite Nat.sub_diag. reflexivity.
        -- split; [lia|].
           replace (argmax_from i x (S i) l - i)%nat
             with (S (argmax_from i x (S i) l - S i)) by lia.
           exact Hnth.
    + destruct (IH best_i best (S i)) as [m [Hbm [Hall Hpos]]].
      exists m. split; [exact Hbm|]. split.
      * intros y [<-|Hy]; [lra | apply Hall; exact Hy].
      * destruct Hpos as [[E ->]|[Hrange Hnth]].
        -- left. split; [exact E | reflexivity].
        -- right. split; [lia|].
           replace (argmax_from best_i best (S i) l - i)%nat
             with (S (argmax_from best_i best (S i) l - S i)) by lia.
           exact Hnth.
Qed.

(** On a non-empty array [argmax] returns a position that holds the
    maximum. *)
Lemma argmax_spec (l : list R) :
  l <> [] ->
  exists j,
    argmax l = Return (Z.of_nat j)
    /\ (j < length l)%nat
    /\ forall i, (i < length l)%nat -> nth i l 0 <= nth j l 0.
Proof.
  destruct l as [|x l]; [congruence|]. intros _.
  destruct (argmax_from_spec l 0 x 1) as [m [Hxm [Hall Hpos]]].
  exists (argmax_from 0 x 1 l). split; [reflexivity|].
  assert (Hj : (argmax_from 0 x 1 l < length (x :: l))%nat
               /\ nth (argmax_from 0 x 1 l) (x :: l) 0 = m).
  { destruct Hpos as [[-> ->]|[Hrange Hnth]].
    - split; [simpl; lia | reflexivity].
    - split; [simpl; lia|].
      replace (argmax_from 0 x 1 l) with (S (argmax_from 0 x 1 l - 1)) at 1 by lia.
      exact Hnth. }
  destruct Hj as [Hlt Hm]. split; [exact Hlt|].
  intros [|i] Hi; rewrite Hm; simpl.
  - exact Hxm.
  - apply Hall. apply nth_In. simpl in Hi. lia.
Qed.

(** With at least one sample, [linspace] returns [num] samples, the first
    of which is [start]. *)
Lemma linspace_samples (start stop : R) (num : Z) :
  (1 <= num)%Z ->
  exists ts,
    linspace start stop num = Return ts
    /\ length ts = Z.to_nat num
    /\ nth 0 ts 0 = start.
Proof.
  intros Hnum. unfold linspace.
  replace (num <? 0)%Z with false by (symmetry; apply Z.ltb_ge; lia).
  eexists. split; [reflexivity|].
  destruct (Z.to_nat num) as [|[|m]] eqn:E; [lia| |].
  - split; reflexivity.
  - split.
    + rewrite length_app, length_map, length_seq. simpl. lia.
    + simpl. lra.
Qed.

(* --------------------------------------------------------------------- *)
(** ** Search by continuous-time walk *)
(* --------------------------------------------------------------------- *)

Lemma length_expm (M : list (list C)) : length (expm M) = length M.
Proof. unfold expm, mat_init. rewrite length_map, length_seq. reflexivity. Qed.

Lemma length_matvec (U : list (list C)) (v : list C) :
  length (matvec U v) = length U.
Proof. apply length_map. Qed.

Lemma length_uniform_superposition (n : nat) :
  length (uniform_superposition n) = n.
Proof. unfold uniform_superposition, ones. rewrite length_map. apply repeat_length. Qed.

(** The loop body returns whenever the marked vertex can index the
    state. *)
Lemma success_probability_in_range (n : nat) (H : list (list R))
    (psi_0 : list C) (w : Z) (t : R) :
  length H = n ->
  (- Z.of_nat n <= w < Z.of_nat n)%Z ->
  success_probability H psi_0 w t
  = Return (np_abs (nth (Z.to_nat (w mod Z.of_nat n))
                        (matvec (expm (Search.generator H t)) psi_0) C0) ^ 2).
Proof.
  intros Hlen Hw. unfold success_probability.
  assert (Hl : length (matvec (expm (Search.generator H t)) psi_0) = n).
  { rewrite length_matvec, length_expm. unfold Search.generator.
    rewrite length_mmap. exact Hlen. }
  rewrite (getitem_nth _ w C0) by (rewrite Hl; exact Hw).
  rewrite Hl. reflexivity.
Qed.

Lemma np_abs_sq (z : C) : np_abs z ^ 2 = fst z * fst z + snd z * snd z.
Proof.
  unfold np_abs. simpl pow. rewrite Rmult_1_r. apply sqrt_sqrt.
  pose proof (Rle_0_sqr (fst z)). pose proof (Rle_0_sqr (snd z)).
  unfold Rsqr in *. lra.
Qed.

(** At [t = 0] the success probability is that of the uniform
    superposition: the squared modulus of its amplitude at the marked
    vertex. *)
Lemma success_probability_zero_time (n : nat) (H : list (list R)) (w : Z) :
  square n H ->
  (- Z.of_nat n <= w < Z.of_nat n)%Z ->
  success_probability H (uniform_superposition n) w 0
  = Return (np_abs (nth (Z.to_nat (w mod Z.of_nat n))
                        (uniform_superposition n) C0) ^ 2).
Proof.
  intros HH Hw.
  rewrite (success_probability_in_range n) by (destruct HH; assumption).
  assert (HU : expm (Search.generator H 0) = midentity n).
  { apply expm_zero.
    - intros i j Hi Hj. exact (search_generator_zero_time n H i j HH Hi Hj).
    - unfold Search.generator. rewrite length_mmap. destruct HH; assumption. }
  rewrite HU.
  replace (midentity n) with (midentity (length (uniform_superposition n)))
    by (rewrite length_uniform_superposition; reflexivity).
  rewrite matvec_identity. reflexivity.
Qed.

(** Every amplitude of the uniform superposition is [(1 + 0j) / sqrt n]. *)
Lemma nth_uniform_superposition (n k : nat) :
  (k < n)%nat ->
  nth k (uniform_superposition n) C0 = Cdiv_real C1 (sqrt (INR n)).
Proof.
  intros Hk. unfold uniform_superposition, ones.
  rewrite (nth_indep _ C0 (Cdiv_real C1 (sqrt (INR n))))
    by (rewrite length_map, repeat_length; exact Hk).
  rewrite (map_nth (fun o => Cdiv_real o (sqrt (INR n)))).
  rewrite nth_repeat_lt by exact Hk. reflexivity.
Qed.

(** In exact arithmetic the squared modulus of that amplitude is [1 / n];
    [Float64.initial_success_probability] is the same expression in
    binary64, where the quotient and the square are rounded. *)
Lemma uniform_amplitude_exact (n : nat) :
  (0 < n)%nat ->
  np_abs (Cdiv_real C1 (sqrt (INR n))) ^ 2 = 1 / INR n.
Proof.
  intros Hpos.
  rewrite np_abs_sq. unfold Cdiv_real, C1, RtoC. simpl fst. simpl snd.
  assert (Hn : 0 < INR n) by (apply lt_0_INR; lia).
  assert (Hs : 0 < sqrt (INR n)) by (apply sqrt_lt_R0; exact Hn).
  assert (Hss : sqrt (INR n) * sqrt (INR n) = INR n)
    by (apply sqrt_sqrt; lra).
  set (s := sqrt (INR n)) in *.
  rewrite <- Hss. field. lra.
Qed.

(** What [search_continuous_walk] returns for a marked vertex that can
    index the state and at least one time sample. *)
Lemma search_continuous_walk_spec (g : Graph) (w : Z) (gamma time : option R)
    (n_time_steps : Z) :
  (- Z.of_nat (number_of_nodes g) <= w < Z.of_nat (number_of_nodes g))%Z ->
  (1 <= n_time_steps)%Z ->
  let n := number_of_nodes g in
  let gamma' := match gamma with Some x => x | None => 1 / INR n end in
  let time' := match time with Some t => t | None => PI / 2 * sqrt (INR n) end in
  exists r H,
    search_continuous_walk g w gamma time n_time_steps = Return r
    /\ build_search_hamiltonian g w gamma' = Return H
    /\ square n H
    /\ linspace 0 time' n_time_steps = Return (Search.times r)
    /\ length (Search.times r) = Z.to_nat n_time_steps
    /\ length (success_probs r) = length (Search.times r)
    /\ (forall i, (i < length (Search.times r))%nat ->
          success_probability H (uniform_superposition n) w
                              (nth i (Search.times r) 0)
          = Return (nth i (success_probs r) 0))
    /\ (forall i, (i < length (success_probs r))%nat ->
          nth i (success_probs r) 0 <= max_probability r)
    /\ exists j, (j < length (success_probs r))%nat
                 /\ nth j (success_probs r) 0 = max_probability r
                 /\ nth j (Search.times r) 0 = optimal_time r.
Proof.
  intros Hw Hnum n gamma' time'.
  assert (Hn : (0 < n)%nat) by (unfold n; lia).
  destruct (build_search_hamiltonian_entries g w gamma' Hn Hw) as [H [EH [Hsq _]]].
  destruct (linspace_samples 0 time' n_time_steps Hnum) as [ts [Ets [Hlen _]]].
  set (f := success_probability H (uniform_superposition n) w).
  destruct (mapM_returns f ts) as [ps Eps].
  { intros t _. unfold f.
    rewrite (success_probability_in_range n) by (destruct Hsq; assumption).
    eexists; reflexivity. }
  destruct (mapM_Return_inv f ts ps Eps) as [Hps Hnth].
  assert (Hne : ps <> []).
  { intros ->. simpl in Hps. lia. }
  destruct (argmax_spec ps Hne) as [j [Ej [Hj Hmax]]].
  assert (Eloop :
    for_enumerate
      (fun i t success_probs =>
         p <- success_probability H (uniform_superposition n) w t ;;
         setitem success_probs (Z.of_nat i) p)
      0 ts (zeros 0 (length ts)) = Return ps).
  { etransitivity.
    - exact (for_enumerate_fill f _ (fun i x acc => eq_refl) ts []
               (zeros 0 (length ts)) (repeat_length _ _)).
    - rewrite Eps. reflexivity. }
  exists {| optimal_time := nth j ts 0;
            max_probability := nth j ps 0;
            Search.times := ts;
            success_probs := ps |}, H.
  split.
  - unfold search_continuous_walk. fold n.
    assert (Eg : match gamma with
                 | Some gamma0 => Return gamma0
                 | None => if Nat.eqb n 0 then Raise ZeroDivisionError
                           else Return (1 / INR n)
                 end = Return gamma').
    { unfold gamma'. destruct gamma; [reflexivity|].
      destruct (Nat.eqb_spec n 0); [lia | reflexivity]. }
    rewrite Eg. simpl bind. fold time'. rewrite Ets. simpl bind.
    rewrite EH. simpl bind. rewrite Eloop. simpl bind.
    rewrite Ej. simpl bind.
    rewrite (getitem_nat ts j 0) by lia. simpl bind.
    rewrite (getitem_nat ps j 0) by exact Hj. reflexivity.
  - simpl. split; [exact EH|]. split; [exact Hsq|]. split; [exact Ets|].
    split; [exact Hlen|]. split; [exact Hps|].
    split; [intros i Hi; apply Hnth; exact Hi|].
    split; [exact Hmax|].
    exists j. split; [exact Hj|]. split; reflexivity.
Qed.

(** C6.  For a marked vertex that can index the state and at least one
    time sample, the search returns the sampled times and, for each of
    them, the success probability [|psi_t[marked]|^2] of the state evolved
    from the uniform superposition under the search Hamiltonian;
    [max_probability] bounds all of them and is attained at an index whose
    sampled time is [optimal_time]. *)
Theorem search_reports_maximum (g : Graph) (w : Z) (gamma time : option R)
    (n_time_steps : Z) :
  (- Z.of_nat (number_of_nodes g) <= w < Z.of_nat (number_of_nodes g))%Z ->
  (1 <= n_time_steps)%Z ->
  let n := number_of_nodes g in
  let gamma' := match gamma with Some x => x | None => 1 / INR n end in
  let time' := match time with Some t => t | None => PI / 2 * sqrt (INR n) end in
  exists r H,
    search_continuous_walk g w gamma time n_time_steps = Return r
    /\ build_search_hamiltonian g w gamma' = Return H
    /\ linspace 0 time' n_time_steps = Return (Search.times r)
    /\ length (success_probs r) = length (Search.times r)
    /\ (forall i, (i < length (Search.times r))%nat ->
          success_probability H (uniform_superposition n) w
                              (nth i (Search.times r) 0)
          = Return (nth i (success_probs r) 0))
    /\ (forall i, (i < length (success_probs r))%nat ->
          nth i (success_probs r) 0 <= max_probability r)
    /\ exists j, (j < length (success_probs r))%nat
                 /\ nth j (success_probs r) 0 = max_probability r
                 /\ nth j (Search.times r) 0 = optimal_time r.
Proof.
  intros Hw Hnum n gamma' time'.
  destruct (search_continuous_walk_spec g w gamma time n_time_steps Hw Hnum)
    as [r [H [E [EH [_ [Elin [_ [Hlen [Hsp [Hmax Hopt]]]]]]]]]].
  exists r, H. repeat split; assumption.
Qed.

Lemma search_reports_maximum_witness :
  ((- Z.of_nat 2 <= 0 < Z.of_nat 2)%Z /\ (1 <= 200)%Z)
  /\ exists r H,
       search_continuous_walk single_edge 0 None None 200 = Return r
       /\ build_search_hamiltonian single_edge 0 (1 / INR 2) = Return H
       /\ linspace 0 (PI / 2 * sqrt (INR 2)) 200 = Return (Search.times r)
       /\ length (success_probs r) = length (Search.times r)
       /\ (forall i, (i < length (Search.times r))%nat ->
             success_probability H (uniform_superposition 2) 0
                                 (nth i (Search.times r) 0)
             = Return (nth i (success_probs r) 0))
       /\ (forall i, (i < length (success_probs r))%nat ->
             nth i (success_probs r) 0 <= max_probability r)
       /\ exists j, (j < length (success_probs r))%nat
                    /\ nth j (success_probs r) 0 = max_probability r
                    /\ nth j (Search.times r) 0 = optimal_time r.
Proof.
  split; [split; lia|].
  apply (search_reports_maximum single_edge 0 None None 200).
  - simpl. lia.
  - lia.
Defined.

(** C10, as the code has it.  With at least one node, a marked vertex
    that can index the state and at least one time sample, the first
    sampled time is 0, the first success probability is that of the
    uniform superposition, [np.abs((1 + 0j) / np.sqrt(N)) ** 2], and the
    reported maximum is at least this first sample. *)
Theorem max_probability_at_least_initial_sample (g : Graph) (w : Z)
    (gamma time : option R) (n_time_steps : Z) :
  (- Z.of_nat (number_of_nodes g) <= w < Z.of_nat (number_of_nodes g))%Z ->
  (1 <= n_time_steps)%Z ->
  exists r,
    search_continuous_walk g w gamma time n_time_steps = Return r
    /\ nth 0 (Search.times r) 0 = 0
    /\ nth 0 (success_probs r) 0
       = np_abs (Cdiv_real C1 (sqrt (INR (number_of_nodes g)))) ^ 2
    /\ nth 0 (success_probs r) 0 <= max_probability r.
Proof.
  intros Hw Hnum.
  destruct (search_continuous_walk_spec g w gamma time n_time_steps Hw Hnum)
    as [r [H [E [EH [Hsq [Elin [Hlt [Hlen [Hsp [Hmax _]]]]]]]]]].
  exists r. split; [exact E|].
  match type of Elin with
  | linspace 0 ?T _ = _ =>
      destruct (linspace_samples 0 T n_time_steps Hnum) as [ts [Ets [_ Hfirst]]]
  end.
  rewrite Ets in Elin. injection Elin as Elin. subst ts.
  assert (H0 : (0 < length (Search.times r))%nat) by lia.
  specialize (Hsp 0%nat H0). rewrite Hfirst in Hsp.
  rewrite (success_probability_zero_time _ H w Hsq Hw) in Hsp.
  destruct (norm_index_in _ w Hw) as [_ Hk].
  rewrite (nth_uniform_superposition _ _ Hk) in Hsp.
  apply (f_equal (fun x => match x with Return p => p | Raise _ => 0 end)) in Hsp.
  split; [exact Hfirst|]. split; [symmetry; exact Hsp|].
  apply Hmax. lia.
Qed.

Lemma max_probability_at_least_initial_sample_witness :
  ((- Z.of_nat 2 <= 1 < Z.of_nat 2)%Z /\ (1 <= 200)%Z)
  /\ exists r,
       search_continuous_walk single_edge 1 None None 200 = Return r
       /\ nth 0 (Search.times r) 0 = 0
       /\ nth 0 (success_probs r) 0 = np_abs (Cdiv_real C1 (sqrt (INR 2))) ^ 2
       /\ nth 0 (success_probs r) 0 <= max_probability r.
Proof.
  split; [split; lia|].
  apply (max_probability_at_least_initial_sample single_edge 1 None None 200).
  - simpl. lia.
  - lia.
Defined.

Section FirstSampleInBinary64.

Import PrimFloat.

(** C10, as the specification words it, fails in float64.  On two nodes
    the amplitude of the uniform superposition is [1 / sqrt 2] rounded,
    0.7071067811865475, and the first success probability, the square of
    its modulus, is 0.4999999999999999, below [1 / 2].  Searching with
    [n_time_steps = 1] samples [t = 0] only, so this value is the
    [max_probability] returned. *)
Lemma initial_sample_below_uniform :
  Float64.uniform_amplitude 2 = 0x1.6a09e667f3bccp-1%float
  /\ Float64.initial_success_probability 2 = 0x1.ffffffffffffep-2%float
  /\ (Float64.initial_success_probability 2 <? 1 / 2)%float = true.
Proof. vm_compute. repeat split; reflexivity. Qed.

End FirstSampleInBinary64.

(** Without a time sample there is nothing to take the maximum of: the
    search raises [ValueError], from [linspace] for a negative count and
    from [argmax] for a count of zero. *)
Lemma search_continuous_walk_no_samples (g : Graph) (w : Z)
    (gamma time : option R) (n_time_steps : Z) :
  (- Z.of_nat (number_of_nodes g) <= w < Z.of_nat (number_of_nodes g))%Z ->
  (n_time_steps <= 0)%Z ->
  search_continuous_walk g w gamma time n_time_steps = Raise ValueError.
Proof.
  intros Hw Hnum.
  assert (Hn : (0 < number_of_nodes g)%nat) by lia.
  unfold search_continuous_walk.
  assert (Eg : exists gamma',
             match gamma with
             | Some gamma0 => Return gamma0
             | None => if Nat.eqb (number_of_nodes g) 0
                       then Raise ZeroDivisionError
                       else Return (1 / INR (number_of_nodes g))
             end = Return gamma').
  { destruct gamma; [eexists; reflexivity|].
    destruct (Nat.eqb_spec (number_of_nodes g) 0); [lia | eexists; reflexivity]. }
  destruct Eg as [gamma' ->]. simpl bind.
  unfold linspace.
  destruct (Z.ltb_spec n_time_steps 0) as [Hneg|Hzero]; [reflexivity|].
  assert (n_time_steps = 0%Z) by lia. subst n_time_steps. simpl bind.
  rewrite build_search_hamiltonian_in_range by assumption.
  reflexivity.
Qed.

(* --------------------------------------------------------------------- *)
(** ** Unitarity of the evolution in exact arithmetic *)
(* --------------------------------------------------------------------- *)

(** The exponential of [-1j * H * t], as the limit of its series, keeps
    the norm of every state when [H] is real and symmetric.  This is a
    fact about the real numbers.  scipy's [expm] works in [float64],
    where every product and sum is rounded and large entries overflow,
    so the lemmas of this part give no tolerance for the probabilities
    that the program returns. *)

Lemma rsum_ext (n : nat) (f g : nat -> R) :
  (forall i, (i < n)%nat -> f i = g i) -> rsum n f = rsum n g.
Proof.
  induction n as [|n IH]; intros H; simpl; [reflexivity|].
  rewrite IH by (intros i Hi; apply H; lia). rewrite H by lia. reflexivity.
Qed.

Lemma rsum_plus (n : nat) (f g : nat -> R) :
  rsum n (fun i => f i + g i) = rsum n f + rsum n g.
Proof. induction n as [|n IH]; simpl; [lra|]. rewrite IH. lra. Qed.

Lemma rsum_minus (n : nat) (f g : nat -> R) :
  rsum n (fun i => f i - g i) = rsum n f - rsum n g.
Proof. induction n as [|n IH]; simpl; [lra|]. rewrite IH. lra. Qed.

Lemma rsum_scal (n : nat) (c : R) (f : nat -> R) :
  rsum n (fun i => c * f i) = c * rsum n f.
Proof. induction n as [|n IH]; simpl; [lra|]. rewrite IH. lra. Qed.

Lemma rsum_zero (n : nat) : rsum n (fun _ => 0) = 0.
Proof. induction n as [|n IH]; simpl; [reflexivity|]. rewrite IH. lra. Qed.

Lemma rsum_const (n : nat) (c : R) : rsum n (fun _ => c) = INR n * c.
Proof.
  induction n as [|n IH]; [simpl; lra|].
  rewrite S_INR. simpl rsum. rewrite IH. lra.
Qed.

Lemma rsum_swap (n m : nat) (f : nat -> nat -> R) :
  rsum n (fun i => rsum m (fun j => f i j))
  = rsum m (fun j => rsum n (fun i => f i j)).
Proof.
  induction n as [|n IH]; simpl.
  - symmetry. apply rsum_zero.
  - rewrite IH. symmetry. apply rsum_plus.
Qed.

Lemma rsum_sum_f_R0 (n k : nat) (f : nat -> nat -> R) :
  rsum n (fun i => sum_f_R0 (fun d => f i d) k)
  = sum_f_R0 (fun d => rsum n (fun i => f i d)) k.
Proof.
  induction k as [|k IH]; simpl; [reflexivity|].
  rewrite rsum_plus, IH. reflexivity.
Qed.

Lemma rsum_delta (n i : nat) (x : nat -> R) :
  (i < n)%nat ->
  rsum n (fun j => (if Nat.eqb i j then 1 else 0) * x j) = x i.
Proof.
  induction n as [|n IH]; intros Hi; [lia|]. simpl.
  destruct (Nat.eqb_spec i n) as [->|Hne].
  - rewrite (rsum_ext n _ (fun _ => 0)).
    + rewrite rsum_zero. lra.
    + intros j Hj. destruct (Nat.eqb_spec n j); [lia | lra].
  - rewrite IH by lia. lra.
Qed.

Lemma rsum_abs_le (n : nat) (f g : nat -> R) :
  (forall i, (i < n)%nat -> Rabs (f i) <= g i) -> Rabs (rsum n f) <= rsum n g.
Proof.
  induction n as [|n IH]; intros H; simpl.
  - rewrite Rabs_R0. lra.
  - eapply Rle_trans; [apply Rabs_triang|].
    apply Rplus_le_compat; [apply IH; intros i Hi; apply H; lia | apply H; lia].
Qed.

Lemma rsum_le (n : nat) (f g : nat -> R) :
  (forall i, (i < n)%nat -> f i <= g i) -> rsum n f <= rsum n g.
Proof.
  induction n as [|n IH]; intros H; simpl; [lra|].
  apply Rplus_le_compat; [apply IH; intros i Hi; apply H; lia | apply H; lia].
Qed.

Lemma Un_cv_ext (u v : nat -> R) (l : R) :
  (forall k, u k = v k) -> Un_cv u l -> Un_cv v l.
Proof.
  intros H Hu eps Heps. destruct (Hu eps Heps) as [N HN].
  exists N. intros k Hk. rewrite <- H. apply HN; exact Hk.
Qed.

Lemma Un_cv_const (c : R) : Un_cv (fun _ => c) c.
Proof.
  intros eps Heps. exists 0%nat. intros k _.
  unfold Rdist. rewrite Rminus_diag, Rabs_R0. exact Heps.
Qed.

Lemma Un_cv_rsum (n : nat) (f : nat -> nat -> R) (l : nat -> R) :
  (forall j, (j < n)%nat -> Un_cv (fun k => f k j) (l j)) ->
  Un_cv (fun k => rsum n (f k)) (rsum n l).
Proof.
  induction n as [|n IH]; intros H; simpl.
  - apply Un_cv_const.
  - apply (CV_plus (fun k => rsum n (f k)) (fun k => f k n)).
    + apply IH. intros j Hj. apply H. lia.
    + apply H. lia.
Qed.

Lemma Csum_app (l1 l2 : list C) : Csum (l1 ++ l2) = Cplus (Csum l1) (Csum l2).
Proof.
  induction l1 as [|z l1 IH]; simpl.
  - destruct (Csum l2); unfold Cplus, C0, RtoC; simpl; f_equal; lra.
  - rewrite IH. destruct z, (Csum l1), (Csum l2); unfold Cplus; simpl; f_equal; lra.
Qed.

Lemma Csum_map_seq (n : nat) (f : nat -> C) :
  Csum (map f (seq 0 n)) = (rsum n (fun j => fst (f j)), rsum n (fun j => snd (f j))).
Proof.
  induction n as [|n IH]; [reflexivity|].
  rewrite seq_S, map_app, Csum_app, IH. simpl.
  unfold Cplus; simpl. f_equal; lra.
Qed.

Lemma mi_S (d : nat) : mi (S d) = (snd (mi d), - fst (mi d)).
Proof.
  simpl. unfold Cmult, Copp, Ci. simpl. f_equal; ring.
Qed.

Lemma mi_bound (d : nat) : Rabs (fst (mi d)) <= 1 /\ Rabs (snd (mi d)) <= 1.
Proof.
  induction d as [|d [IH1 IH2]].
  - simpl. rewrite Rabs_R1, Rabs_R0. lra.
  - rewrite mi_S. simpl. rewrite Rabs_Ropp. split; assumption.
Qed.

Section SkewSymmetricGenerator.

Variable n : nat.
Variable b : nat -> nat -> R.
Variable M : list (list C).
Hypothesis M_entries :
  forall i j, (i < n)%nat -> (j < n)%nat -> mget M i j = (0, - b i j).

Lemma mpow_entries (d i j : nat) :
  (i < n)%nat -> (j < n)%nat ->
  mget (mpow n M d) i j = Cmult (mi d) (RtoC (bpow n b d i j)).
Proof.
  revert i j. induction d as [|d IH]; intros i j Hi Hj.
  - simpl. unfold midentity. rewrite mget_mat_init by assumption.
    destruct (Nat.eqb i j); apply C_eq; simpl; lra.
  - simpl mpow. unfold mmul. rewrite mget_mat_init by assumption.
    rewrite Csum_map_seq. rewrite mi_S. apply C_eq.
    + simpl fst at 1.
      rewrite (rsum_ext n _ (fun l => snd (mi d) * (b i l * bpow n b d l j))).
      * rewrite rsum_scal. simpl. ring.
      * intros l Hl. rewrite M_entries, IH by assumption. simpl. ring.
    + simpl snd at 1.
      rewrite (rsum_ext n _ (fun l => - fst (mi d) * (b i l * bpow n b d l j))).
      * rewrite rsum_scal. simpl. ring.
      * intros l Hl. rewrite M_entries, IH by assumption. simpl. ring.
Qed.

Lemma expm_partial_entries (k i j : nat) :
  (i < n)%nat -> (j < n)%nat ->
  mget (expm_partial n M k) i j
  = (sum_f_R0 (fun d => fst (mi d) * bpow n b d i j * / INR (fact d)) k,
     sum_f_R0 (fun d => snd (mi d) * bpow n b d i j * / INR (fact d)) k).
Proof.
  intros Hi Hj. induction k as [|k IH].
  - simpl. unfold midentity. rewrite mget_mat_init by assumption.
    rewrite Rinv_1.
    destruct (Nat.eqb i j); apply C_eq; simpl; lra.
  - change (expm_partial n M (S k))
      with (madd n (expm_partial n M k)
                   (mscale n (/ INR (fact (S k))) (mpow n M (S k)))).
    unfold madd at 1. rewrite mget_mat_init by assumption.
    rewrite IH. unfold mscale. rewrite mget_mat_init by assumption.
    rewrite mpow_entries by assumption.
    apply C_eq; simpl fst; simpl snd; simpl sum_f_R0; ring.
Qed.

End SkewSymmetricGenerator.

Lemma bpow_bound (n : nat) (b : nat -> nat -> R) (mu : R) :
  0 <= mu ->
  (forall i j, (i < n)%nat -> (j < n)%nat -> Rabs (b i j) <= mu) ->
  forall d i j, (i < n)%nat -> (j < n)%nat ->
    Rabs (bpow n b d i j) <= (INR n * mu) ^ d.
Proof.
  intros Hmu Hb. induction d as [|d IH]; intros i j Hi Hj.
  - simpl. destruct (Nat.eqb i j); [rewrite Rabs_R1 | rewrite Rabs_R0]; lra.
  - simpl bpow.
    eapply Rle_trans.
    + apply (rsum_abs_le n _ (fun _ => mu * (INR n * mu) ^ d)).
      intros l Hl. rewrite Rabs_mult.
      apply Rmult_le_compat; try apply Rabs_pos; [apply Hb | apply IH]; assumption.
    + rewrite rsum_const. simpl pow. lra.
Qed.

(** A series dominated by the exponential series converges. *)
Lemma series_cv_exp_bound (u : nat -> R) (beta : R) :
  (forall d, Rabs (u d) <= / INR (fact d) * beta ^ d) ->
  { l : R | Un_cv (fun k => sum_f_R0 u k) l }.
Proof.
  intros Hu. apply cv_cauchy_2. apply cauchy_abs. apply cv_cauchy_1.
  apply (Rseries_CV_comp (fun d => Rabs (u d))
                         (fun d => / INR (fact d) * beta ^ d)).
  - intros d. split; [apply Rabs_pos | apply Hu].
  - exists (exp beta). apply (E1_cvg beta).
Qed.

Lemma lim_seq_cv (u : nat -> R) :
  (exists l, Un_cv u l) -> Un_cv u (lim_seq u).
Proof.
  intros H. unfold lim_seq. apply epsilon_spec. exact H.
Qed.

Lemma Rinv_fact_pos (d : nat) : 0 < / INR (fact d).
Proof. apply Rinv_0_lt_compat. apply INR_fact_lt_0. Qed.

Lemma mi_prod (p q : nat) :
  fst (mi p) * fst (mi q) + snd (mi p) * snd (mi q)
  = (-1) ^ q * fst (mi (p + q))
  /\ snd (mi p) * fst (mi q) - fst (mi p) * snd (mi q)
     = (-1) ^ q * snd (mi (p + q)).
Proof.
  induction q as [|q [IH1 IH2]].
  - rewrite Nat.add_0_r. simpl. lra.
  - rewrite Nat.add_succ_r, !mi_S. simpl fst. simpl snd.
    simpl pow. split.
    + replace (fst (mi p) * snd (mi q) + snd (mi p) * - fst (mi q))
        with (- (snd (mi p) * fst (mi q) - fst (mi p) * snd (mi q))) by ring.
      rewrite IH2. ring.
    + replace (snd (mi p) * snd (mi q) - fst (mi p) * - fst (mi q))
        with (fst (mi p) * fst (mi q) + snd (mi p) * snd (mi q)) by ring.
      rewrite IH1. ring.
Qed.

Lemma alternating_binomial (d : nat) :
  sum_f_R0 (fun p => (-1) ^ (d - p) * (/ INR (fact p) * / INR (fact (d - p)))) d
  = if Nat.eqb d 0 then 1 else 0.
Proof.
  assert (H : sum_f_R0 (fun p => (-1) ^ (d - p)
                                 * (/ INR (fact p) * / INR (fact (d - p)))) d
              = / INR (fact d) * (1 + -1) ^ d).
  { rewrite binomial. rewrite scal_sum. apply sum_eq. intros p Hp.
    unfold Binomial.C. rewrite pow1.
    pose proof (INR_fact_neq_0 d). pose proof (INR_fact_neq_0 p).
    pose proof (INR_fact_neq_0 (d - p)).
    field. auto. }
  rewrite H. replace (1 + -1) with 0 by lra.
  destruct d as [|d].
  - simpl. rewrite Rinv_1. lra.
  - rewrite pow_i by lia. rewrite Rmult_0_r. reflexivity.
Qed.

Section SymmetricPowers.

Variable n : nat.
Variable b : nat -> nat -> R.
Hypothesis b_sym :
  forall i j, (i < n)%nat -> (j < n)%nat -> b i j = b j i.

Lemma bvec_0 (x : nat -> R) (i : nat) : (i < n)%nat -> bvec n b x 0 i = x i.
Proof. intros Hi. unfold bvec. simpl. apply rsum_delta; exact Hi. Qed.

Lemma bvec_S (x : nat -> R) (d i : nat) :
  bvec n b x (S d) i = rsum n (fun l => b i l * bvec n b x d l).
Proof.
  unfold bvec. simpl bpow.
  rewrite (rsum_ext n _ (fun j => rsum n (fun l => b i l * bpow n b d l j * x j))).
  - rewrite rsum_swap. apply rsum_ext. intros l Hl.
    rewrite <- rsum_scal. apply rsum_ext. intros j Hj. ring.
  - intros j Hj. rewrite Rmult_comm, <- rsum_scal.
    apply rsum_ext. intros l Hl. ring.
Qed.

Lemma b_self_adjoint (u v : nat -> R) :
  rsum n (fun i => rsum n (fun l => b i l * u l) * v i)
  = rsum n (fun i => u i * rsum n (fun l => b i l * v l)).
Proof.
  rewrite (rsum_ext n _ (fun i => rsum n (fun l => b i l * u l * v i))).
  2:{ intros i Hi. rewrite Rmult_comm, <- rsum_scal.
      apply rsum_ext. intros l Hl. ring. }
  rewrite rsum_swap. apply rsum_ext. intros l Hl.
  rewrite <- rsum_scal. apply rsum_ext. intros i Hi.
  rewrite (b_sym i l Hi Hl). ring.
Qed.

(** Powers of a symmetric matrix move across the inner product. *)
Lemma bvec_inner (x y : nat -> R) (p q : nat) :
  rsum n (fun i => bvec n b x p i * bvec n b y q i)
  = rsum n (fun i => x i * bvec n b y (p + q) i).
Proof.
  revert q. induction p as [|p IH]; intros q.
  - simpl Nat.add. apply rsum_ext. intros i Hi. rewrite bvec_0 by exact Hi.
    reflexivity.
  - rewrite (rsum_ext n _ (fun i => rsum n (fun l => b i l * bvec n b x p l)
                                    * bvec n b y q i))
      by (intros i Hi; rewrite bvec_S; reflexivity).
    rewrite b_self_adjoint.
    rewrite (rsum_ext n _ (fun i => bvec n b x p i * bvec n b y (S q) i))
      by (intros i Hi; rewrite (bvec_S y q); reflexivity).
    rewrite IH. rewrite Nat.add_succ_r. reflexivity.
Qed.

End SymmetricPowers.

Lemma nth_matvec (n : nat) (U : list (list C)) (v : list C) (i : nat) :
  square n U -> length v = n -> (i < n)%nat ->
  nth i (matvec U v) C0
  = Csum (map (fun j => Cmult (mget U i j) (nth j v C0)) (seq 0 n)).
Proof.
  intros [HU Hrows] Hv Hi. unfold matvec.
  rewrite (nth_indep _ C0 (Csum (vmap2 Cmult [] v)))
    by (rewrite length_map; lia).
  rewrite (map_nth (fun row => Csum (vmap2 Cmult row v))).
  f_equal. apply (nth_ext _ _ C0 C0).
  - rewrite length_vmap2, length_map, length_seq.
    + apply Hrows. apply nth_In. lia.
    + rewrite Hv. apply Hrows. apply nth_In. lia.
  - intros j Hj.
    assert (Hrow : length (nth i U []) = n) by (apply Hrows, nth_In; lia).
    rewrite length_vmap2 in Hj by lia. rewrite Hrow in Hj.
    rewrite (nth_vmap2 Cmult _ _ j C0 C0 C0) by lia.
    rewrite (nth_map_seq _ 0 n j C0) by exact Hj. reflexivity.
Qed.

Lemma square_expm (n : nat) (M : list (list C)) :
  length M = n -> square n (expm M).
Proof.
  intros H. unfold expm. rewrite H. unfold mat_init. apply square_map_seq.
Qed.

Lemma sum_abs_le (F G : nat -> R) (N : nat) :
  (forall k, (k <= N)%nat -> Rabs (F k) <= G k) ->
  Rabs (sum_f_R0 F N) <= sum_f_R0 G N.
Proof.
  intros H. eapply Rle_trans; [apply Rsum_abs|].
  apply sum_Rle. exact H.
Qed.

Lemma sum_only_first (q : nat -> R) (k : nat) :
  sum_f_R0 (fun d => q d * (if Nat.eqb d 0 then 1 else 0)) k = q 0%nat.
Proof.
  induction k as [|k IH]; simpl.
  - ring.
  - simpl in IH. rewrite IH. ring.
Qed.

Lemma Un_cv_squeeze (u w : nat -> R) (l : R) :
  (forall k, (0 < k)%nat -> Rabs (u k - l) <= w k) ->
  Un_cv w 0 -> Un_cv u l.
Proof.
  intros H Hw eps Heps. destruct (Hw eps Heps) as [N HN].
  exists (S N). intros k Hk.
  specialize (HN k ltac:(lia)). unfold Rdist in *.
  rewrite Rminus_0_r in HN.
  eapply Rle_lt_trans; [apply H; lia|].
  eapply Rle_lt_trans; [apply Rle_abs | exact HN].
Qed.

Section InnerProductPreservation.

Variable n : nat.
Variable b : nat -> nat -> R.
Variable M : list (list C).
Variable mu : R.

Hypothesis M_entries :
  forall i j, (i < n)%nat -> (j < n)%nat -> mget M i j = (0, - b i j).
Hypothesis M_length : length M = n.
Hypothesis mu_nonneg : 0 <= mu.
Hypothesis b_bound :
  forall i j, (i < n)%nat -> (j < n)%nat -> Rabs (b i j) <= mu.
Hypothesis b_sym :
  forall i j, (i < n)%nat -> (j < n)%nat -> b i j = b j i.

Let beta : R := INR n * mu.

(** The 1-norm of a real vector. *)
Let norm1 (x : nat -> R) : R := rsum n (fun j => Rabs (x j)).

Lemma bvec_bound (x : nat -> R) (d i : nat) :
  (i < n)%nat -> Rabs (bvec n b x d i) <= beta ^ d * norm1 x.
Proof.
  intros Hi. unfold bvec, norm1. rewrite <- rsum_scal.
  apply rsum_abs_le. intros j Hj. rewrite Rabs_mult.
  apply Rmult_le_compat_r; [apply Rabs_pos|].
  apply (bpow_bound n b mu mu_nonneg b_bound); assumption.
Qed.

Lemma expm_entry_cv (i j : nat) :
  (i < n)%nat -> (j < n)%nat ->
  Un_cv (fun k => sum_f_R0 (fun d => fst (mi d) * bpow n b d i j * / INR (fact d)) k)
        (fst (mget (expm M) i j))
  /\ Un_cv (fun k => sum_f_R0 (fun d => snd (mi d) * bpow n b d i j * / INR (fact d)) k)
           (snd (mget (expm M) i j)).
Proof.
  intros Hi Hj.
  assert (E : mget (expm M) i j
              = Clim (fun k => mget (expm_partial n M k) i j)).
  { unfold expm. rewrite M_length. apply mget_mat_init; assumption. }
  rewrite E. unfold Clim. simpl fst. simpl snd.
  assert (Hb : forall (c : nat -> R), (forall d, Rabs (c d) <= 1) ->
               forall d, Rabs (c d * bpow n b d i j * / INR (fact d))
                         <= / INR (fact d) * beta ^ d).
  { intros c Hc d. rewrite !Rabs_mult.
    rewrite (Rabs_pos_eq (/ INR (fact d))) by (left; apply Rinv_fact_pos).
    pose proof (bpow_bound n b mu mu_nonneg b_bound d i j Hi Hj) as Hbp.
    fold beta in Hbp. pose proof (Rinv_fact_pos d). pose proof (Rabs_pos (c d)).
    pose proof (Rabs_pos (bpow n b d i j)). specialize (Hc d).
    rewrite (Rmult_comm (/ INR (fact d))).
    apply Rmult_le_compat_r; [lra|].
    replace (beta ^ d) with (1 * beta ^ d) by ring.
    apply Rmult_le_compat; assumption. }
  split.
  - apply (Un_cv_ext (fun k => fst (mget (expm_partial n M k) i j))).
    + intros k. rewrite (expm_partial_entries n b M M_entries k i j Hi Hj).
      reflexivity.
    + apply lim_seq_cv.
      destruct (series_cv_exp_bound
                  (fun d => fst (mi d) * bpow n b d i j * / INR (fact d)) beta)
        as [l Hl].
      { apply Hb. intros d. apply mi_bound. }
      exists l. apply (Un_cv_ext _ _ l) with (2 := Hl).
      intros k. rewrite (expm_partial_entries n b M M_entries k i j Hi Hj).
      reflexivity.
  - apply (Un_cv_ext (fun k => snd (mget (expm_partial n M k) i j))).
    + intros k. rewrite (expm_partial_entries n b M M_entries k i j Hi Hj).
      reflexivity.
    + apply lim_seq_cv.
      destruct (series_cv_exp_bound
                  (fun d => snd (mi d) * bpow n b d i j * / INR (fact d)) beta)
        as [l Hl].
      { apply Hb. intros d. apply mi_bound. }
      exists l. apply (Un_cv_ext _ _ l) with (2 := Hl).
      intros k. rewrite (expm_partial_entries n b M M_entries k i j Hi Hj).
      reflexivity.
Qed.

(** The partial sums applied to [x], entry by entry. *)
Lemma amp_partial (c : nat -> R) (x : nat -> R) (i k : nat) :
  rsum n (fun j => sum_f_R0 (fun d => c d * bpow n b d i j * / INR (fact d)) k * x j)
  = sum_f_R0 (fun d => c d * bvec n b x d i * / INR (fact d)) k.
Proof.
  rewrite (rsum_ext n _
             (fun j => sum_f_R0
                         (fun d => c d * bpow n b d i j * / INR (fact d) * x j) k)).
  - rewrite rsum_sum_f_R0. apply sum_eq. intros d _.
    unfold bvec.
    rewrite (rsum_ext n _ (fun j => (c d * / INR (fact d)) * (bpow n b d i j * x j)))
      by (intros j _; ring).
    rewrite rsum_scal. ring.
  - intros j _. rewrite Rmult_comm, scal_sum. reflexivity.
Qed.

Lemma amp_cv (x : nat -> R) (i : nat) :
  (i < n)%nat ->
  Un_cv (amp_re n b x i) (apply_re n (expm M) x i)
  /\ Un_cv (amp_im n b x i) (apply_im n (expm M) x i).
Proof.
  intros Hi. split.
  - apply (Un_cv_ext
             (fun k => rsum n (fun j =>
                sum_f_R0 (fun d => fst (mi d) * bpow n b d i j * / INR (fact d)) k
                * x j))).
    + intros k. apply amp_partial.
    + apply (Un_cv_rsum n (fun k j => _ * x j) (fun j => _ * x j)).
      intros j Hj. apply CV_mult; [|apply Un_cv_const].
      apply expm_entry_cv; assumption.
  - apply (Un_cv_ext
             (fun k => rsum n (fun j =>
                sum_f_R0 (fun d => snd (mi d) * bpow n b d i j * / INR (fact d)) k
                * x j))).
    + intros k. apply amp_partial.
    + apply (Un_cv_rsum n (fun k j => _ * x j) (fun j => _ * x j)).
      intros j Hj. apply CV_mult; [|apply Un_cv_const].
      apply expm_entry_cv; assumption.
Qed.

Lemma amp_term_bound (c : nat -> R) (x : nat -> R) (d i : nat) :
  Rabs (c d) <= 1 -> (i < n)%nat ->
  Rabs (c d * bvec n b x d i * / INR (fact d))
  <= norm1 x * (/ INR (fact d) * beta ^ d).
Proof.
  intros Hc Hi. rewrite !Rabs_mult.
  rewrite (Rabs_pos_eq (/ INR (fact d))) by (left; apply Rinv_fact_pos).
  pose proof (bvec_bound x d i Hi) as Hb.
  pose proof (Rinv_fact_pos d). pose proof (Rabs_pos (c d)).
  pose proof (Rabs_pos (bvec n b x d i)).
  replace (norm1 x * (/ INR (fact d) * beta ^ d))
    with (1 * (beta ^ d * norm1 x) * / INR (fact d)) by ring.
  apply Rmult_le_compat_r; [lra|].
  apply Rmult_le_compat; assumption.
Qed.

(** The part of a product of two partial sums beyond the diagonal is
    bounded by the remainder of the scalar exponential series. *)
Lemma remainder_bound (A A' : nat -> R) (a a' : R) (k : nat) :
  (forall d, Rabs (A d) <= a * (/ INR (fact d) * beta ^ d)) ->
  (forall d, Rabs (A' d) <= a' * (/ INR (fact d) * beta ^ d)) ->
  Rabs (sum_f_R0 (fun k' =>
          sum_f_R0 (fun l => A (S (l + k')) * A' (k - l)%nat) (pred (k - k')))
        (pred k))
  <= a * a' * Reste_E beta beta k.
Proof.
  intros HA HA'. unfold Reste_E. rewrite scal_sum.
  apply sum_abs_le. intros k' _.
  rewrite Rmult_comm, scal_sum.
  apply sum_abs_le. intros l _.
  rewrite Rabs_mult.
  eapply Rle_trans.
  - apply Rmult_le_compat; try apply Rabs_pos; [apply HA | apply HA'].
  - right. ring.
Qed.

(** Two real vectors. *)
Variable x y : nat -> R.

(** The diagonal part of a product of partial sums, summed over the
    entries. *)
Lemma diagonal_term (c c' : nat -> R) (p d : nat) :
  (p <= d)%nat ->
  rsum n (fun i =>
    (c p * bvec n b x p i * / INR (fact p))
    * (c' (d - p)%nat * bvec n b y (d - p) i * / INR (fact (d - p))))
  = (c p * c' (d - p)%nat) * (/ INR (fact p) * / INR (fact (d - p)))
    * rsum n (fun i => x i * bvec n b y d i).
Proof.
  intros Hp.
  rewrite (rsum_ext n _
    (fun i => ((c p * c' (d - p)%nat) * (/ INR (fact p) * / INR (fact (d - p))))
              * (bvec n b x p i * bvec n b y (d - p) i)))
    by (intros i _; ring).
  rewrite rsum_scal. rewrite (bvec_inner n b b_sym x y).
  replace (p + (d - p))%nat with d by lia. reflexivity.
Qed.

Lemma diagonal_sum_re (k : nat) :
  rsum n (fun i =>
    sum_f_R0 (fun d => sum_f_R0 (fun p =>
      (fst (mi p) * bvec n b x p i * / INR (fact p))
      * (fst (mi (d - p)) * bvec n b y (d - p) i * / INR (fact (d - p)))) d) k
    + sum_f_R0 (fun d => sum_f_R0 (fun p =>
      (snd (mi p) * bvec n b x p i * / INR (fact p))
      * (snd (mi (d - p)) * bvec n b y (d - p) i * / INR (fact (d - p)))) d) k)
  = rsum n (fun i => x i * y i).
Proof.
  rewrite (rsum_ext n _ (fun i =>
    sum_f_R0 (fun d => sum_f_R0 (fun p =>
      (fst (mi p) * bvec n b x p i * / INR (fact p))
      * (fst (mi (d - p)) * bvec n b y (d - p) i * / INR (fact (d - p)))
      + (snd (mi p) * bvec n b x p i * / INR (fact p))
        * (snd (mi (d - p)) * bvec n b y (d - p) i * / INR (fact (d - p)))) d) k)).
  2:{ intros i _. rewrite <- sum_plus. apply sum_eq. intros d _.
      rewrite <- sum_plus. reflexivity. }
  rewrite rsum_sum_f_R0.
  rewrite (sum_eq _ (fun d => (fst (mi d) * rsum n (fun i => x i * bvec n b y d i))
                              * (if Nat.eqb d 0 then 1 else 0))).
  - rewrite sum_only_first. simpl fst. rewrite Rmult_1_l.
    apply rsum_ext. intros i Hi. rewrite (bvec_0 n b y i Hi). reflexivity.
  - intros d _. rewrite rsum_sum_f_R0.
    rewrite <- alternating_binomial. rewrite scal_sum.
    apply sum_eq. intros p Hp.
    rewrite rsum_plus.
    rewrite (diagonal_term (fun d => fst (mi d)) (fun d => fst (mi d)) p d Hp).
    rewrite (diagonal_term (fun d => snd (mi d)) (fun d => snd (mi d)) p d Hp).
    destruct (mi_prod p (d - p)) as [E _].
    replace (p + (d - p))%nat with d in E by lia.
    rewrite <- Rmult_plus_distr_r, <- Rmult_plus_distr_r, E.
    set (s := (-1) ^ (d - p)). ring.
Qed.

Lemma diagonal_sum_im (k : nat) :
  rsum n (fun i =>
    sum_f_R0 (fun d => sum_f_R0 (fun p =>
      (snd (mi p) * bvec n b x p i * / INR (fact p))
      * (fst (mi (d - p)) * bvec n b y (d - p) i * / INR (fact (d - p)))) d) k
    - sum_f_R0 (fun d => sum_f_R0 (fun p =>
      (fst (mi p) * bvec n b x p i * / INR (fact p))
      * (snd (mi (d - p)) * bvec n b y (d - p) i * / INR (fact (d - p)))) d) k)
  = 0.
Proof.
  rewrite (rsum_ext n _ (fun i =>
    sum_f_R0 (fun d => sum_f_R0 (fun p =>
      (snd (mi p) * bvec n b x p i * / INR (fact p))
      * (fst (mi (d - p)) * bvec n b y (d - p) i * / INR (fact (d - p)))
      - (fst (mi p) * bvec n b x p i * / INR (fact p))
        * (snd (mi (d - p)) * bvec n b y (d - p) i * / INR (fact (d - p)))) d) k)).
  2:{ intros i _. rewrite <- minus_sum. apply sum_eq. intros d _.
      rewrite <- minus_sum. reflexivity. }
  rewrite rsum_sum_f_R0.
  rewrite (sum_eq _ (fun d => (snd (mi d) * rsum n (fun i => x i * bvec n b y d i))
                              * (if Nat.eqb d 0 then 1 else 0))).
  - rewrite sum_only_first. simpl snd. ring.
  - intros d _. rewrite rsum_sum_f_R0.
    rewrite <- alternating_binomial. rewrite scal_sum.
    apply sum_eq. intros p Hp.
    rewrite rsum_minus.
    rewrite (diagonal_term (fun d => snd (mi d)) (fun d => fst (mi d)) p d Hp).
    rewrite (diagonal_term (fun d => fst (mi d)) (fun d => snd (mi d)) p d Hp).
    destruct (mi_prod p (d - p)) as [_ E].
    replace (p + (d - p))%nat with d in E by lia.
    rewrite <- Rmult_minus_distr_r, <- Rmult_minus_distr_r, E.
    set (s := (-1) ^ (d - p)). ring.
Qed.

Lemma inner_re_cv :
  Un_cv (fun k => rsum n (fun i => amp_re n b x i k * amp_re n b y i k
                                   + amp_im n b x i k * amp_im n b y i k))
        (rsum n (fun i => apply_re n (expm M) x i * apply_re n (expm M) y i
                          + apply_im n (expm M) x i * apply_im n (expm M) y i)).
Proof.
  apply (Un_cv_rsum n
           (fun k i => amp_re n b x i k * amp_re n b y i k
                       + amp_im n b x i k * amp_im n b y i k)
           (fun i => apply_re n (expm M) x i * apply_re n (expm M) y i
                     + apply_im n (expm M) x i * apply_im n (expm M) y i)).
  intros i Hi.
  destruct (amp_cv x i Hi) as [Hxr Hxi]. destruct (amp_cv y i Hi) as [Hyr Hyi].
  apply (CV_plus (fun k => amp_re n b x i k * amp_re n b y i k)
                 (fun k => amp_im n b x i k * amp_im n b y i k));
    apply CV_mult; assumption.
Qed.

Lemma inner_im_cv :
  Un_cv (fun k => rsum n (fun i => amp_im n b x i k * amp_re n b y i k
                                   - amp_re n b x i k * amp_im n b y i k))
        (rsum n (fun i => apply_im n (expm M) x i * apply_re n (expm M) y i
                          - apply_re n (expm M) x i * apply_im n (expm M) y i)).
Proof.
  apply (Un_cv_rsum n
           (fun k i => amp_im n b x i k * amp_re n b y i k
                       - amp_re n b x i k * amp_im n b y i k)
           (fun i => apply_im n (expm M) x i * apply_re n (expm M) y i
                     - apply_re n (expm M) x i * apply_im n (expm M) y i)).
  intros i Hi.
  destruct (amp_cv x i Hi) as [Hxr Hxi]. destruct (amp_cv y i Hi) as [Hyr Hyi].
  apply (CV_minus (fun k => amp_im n b x i k * amp_re n b y i k)
                  (fun k => amp_re n b x i k * amp_im n b y i k));
    apply CV_mult; assumption.
Qed.

Lemma remainder_cv :
  Un_cv (fun k => INR n * (2 * (norm1 x * norm1 y) * Reste_E beta beta k)) 0.
Proof.
  replace 0 with (INR n * (2 * (norm1 x * norm1 y) * 0)) by ring.
  apply CV_mult; [apply Un_cv_const|].
  apply CV_mult; [apply Un_cv_const | apply Reste_E_cv].
Qed.

Lemma amp_remainder_bound (c c' : nat -> R) (i k : nat) :
  (forall d, Rabs (c d) <= 1) -> (forall d, Rabs (c' d) <= 1) -> (i < n)%nat ->
  Rabs (sum_f_R0 (fun k' => sum_f_R0 (fun l =>
          (c (S (l + k')) * bvec n b x (S (l + k')) i * / INR (fact (S (l + k'))))
          * (c' (k - l)%nat * bvec n b y (k - l) i * / INR (fact (k - l))))
          (pred (k - k'))) (pred k))
  <= norm1 x * norm1 y * Reste_E beta beta k.
Proof.
  intros Hc Hc' Hi.
  apply (remainder_bound (fun d => c d * bvec n b x d i * / INR (fact d))
                         (fun d => c' d * bvec n b y d i * / INR (fact d))).
  - intros d. apply (amp_term_bound c x d i); [apply Hc | exact Hi].
  - intros d. apply (amp_term_bound c' y d i); [apply Hc' | exact Hi].
Qed.

Lemma inner_re_cv_initial :
  Un_cv (fun k => rsum n (fun i => amp_re n b x i k * amp_re n b y i k
                                   + amp_im n b x i k * amp_im n b y i k))
        (rsum n (fun i => x i * y i)).
Proof.
  refine (Un_cv_squeeze _ _ _ _ remainder_cv).
  intros k Hk. cbv beta.
  rewrite <- (diagonal_sum_re k).
  unfold amp_re, amp_im.
  rewrite <- rsum_minus, <- rsum_const.
  apply rsum_abs_le. intros i Hi.
  rewrite !(cauchy_finite _ _ k Hk).
  match goal with
  | |- Rabs (?t1 + ?r1 + (?t2 + ?r2) - (?t1 + ?t2)) <= _ =>
      replace (t1 + r1 + (t2 + r2) - (t1 + t2)) with (r1 + r2) by ring
  end.
  eapply Rle_trans; [apply Rabs_triang|].
  replace (2 * (norm1 x * norm1 y) * Reste_E beta beta k)
    with (norm1 x * norm1 y * Reste_E beta beta k
          + norm1 x * norm1 y * Reste_E beta beta k) by ring.
  apply Rplus_le_compat.
  - apply (amp_remainder_bound (fun d => fst (mi d)) (fun d => fst (mi d)));
      try exact Hi; intros d; apply mi_bound.
  - apply (amp_remainder_bound (fun d => snd (mi d)) (fun d => snd (mi d)));
      try exact Hi; intros d; apply mi_bound.
Qed.

Lemma inner_im_cv_initial :
  Un_cv (fun k => rsum n (fun i => amp_im n b x i k * amp_re n b y i k
                                   - amp_re n b x i k * amp_im n b y i k))
        0.
Proof.
  refine (Un_cv_squeeze _ _ _ _ remainder_cv).
  intros k Hk. cbv beta.
  rewrite <- (diagonal_sum_im k).
  unfold amp_re, amp_im.
  rewrite <- rsum_minus, <- rsum_const.
  apply rsum_abs_le. intros i Hi.
  rewrite !(cauchy_finite _ _ k Hk).
  match goal with
  | |- Rabs (?t1 + ?r1 - (?t2 + ?r2) - (?t1 - ?t2)) <= _ =>
      replace (t1 + r1 - (t2 + r2) - (t1 - t2)) with (r1 - r2) by ring
  end.
  eapply Rle_trans; [apply Rabs_triang|]. rewrite Rabs_Ropp.
  replace (2 * (norm1 x * norm1 y) * Reste_E beta beta k)
    with (norm1 x * norm1 y * Reste_E beta beta k
          + norm1 x * norm1 y * Reste_E beta beta k) by ring.
  apply Rplus_le_compat.
  - apply (amp_remainder_bound (fun d => snd (mi d)) (fun d => fst (mi d)));
      try exact Hi; intros d; apply mi_bound.
  - apply (amp_remainder_bound (fun d => fst (mi d)) (fun d => snd (mi d)));
      try exact Hi; intros d; apply mi_bound.
Qed.

(** The exponential of [-1j] times a real symmetric matrix preserves the
    inner product of real vectors: its real part is the inner product of
    the arguments, its imaginary part vanishes. *)
Lemma expm_inner_re :
  rsum n (fun i => apply_re n (expm M) x i * apply_re n (expm M) y i
                   + apply_im n (expm M) x i * apply_im n (expm M) y i)
  = rsum n (fun i => x i * y i).
Proof. apply (UL_sequence _ _ _ inner_re_cv inner_re_cv_initial). Qed.

Lemma expm_inner_im :
  rsum n (fun i => apply_im n (expm M) x i * apply_re n (expm M) y i
                   - apply_re n (expm M) x i * apply_im n (expm M) y i)
  = 0.
Proof. apply (UL_sequence _ _ _ inner_im_cv inner_im_cv_initial). Qed.

End InnerProductPreservation.

Lemma rsum_shift (n : nat) (f : nat -> R) :
  rsum (S n) f = f 0%nat + rsum n (fun i => f (S i)).
Proof.
  induction n as [|n IH]; [simpl; lra|].
  change (rsum (S (S n)) f) with (rsum (S n) f + f (S n)).
  rewrite IH. simpl. lra.
Qed.

Lemma np_sum_map {A : Type} (f : A -> R) (l : list A) (d : A) :
  np_sum (map f l) = rsum (length l) (fun i => f (nth i l d)).
Proof.
  induction l as [|a l IH]; [reflexivity|].
  simpl length. rewrite rsum_shift. simpl. rewrite IH. reflexivity.
Qed.

Lemma nth_matvec_parts (n : nat) (U : list (list C)) (v : list C) (i : nat) :
  square n U -> length v = n -> (i < n)%nat ->
  nth i (matvec U v) C0
  = (apply_re n U (fun j => fst (nth j v C0)) i
     - apply_im n U (fun j => snd (nth j v C0)) i,
     apply_re n U (fun j => snd (nth j v C0)) i
     + apply_im n U (fun j => fst (nth j v C0)) i).
Proof.
  intros HU Hv Hi. rewrite (nth_matvec n U v i HU Hv Hi).
  rewrite Csum_map_seq. unfold apply_re, apply_im.
  rewrite <- rsum_minus, <- rsum_plus. reflexivity.
Qed.

(** The exponential of [-1j * B], for a real symmetric [B], preserves the
    norm of every complex vector. *)
Lemma expm_preserves_norm (n : nat) (b : nat -> nat -> R) (M : list (list C))
    (mu : R) (v : list C) :
  (forall i j, (i < n)%nat -> (j < n)%nat -> mget M i j = (0, - b i j)) ->
  length M = n ->
  0 <= mu ->
  (forall i j, (i < n)%nat -> (j < n)%nat -> Rabs (b i j) <= mu) ->
  (forall i j, (i < n)%nat -> (j < n)%nat -> b i j = b j i) ->
  length v = n ->
  np_sum (map (fun z => np_abs z ^ 2) (matvec (expm M) v))
  = np_sum (map (fun z => np_abs z ^ 2) v).
Proof.
  intros HM Hlen Hmu Hb Hsym Hv.
  rewrite !(np_sum_map _ _ C0).
  rewrite length_matvec, length_expm, Hlen, Hv.
  set (x := fun j => fst (nth j v C0)).
  set (y := fun j => snd (nth j v C0)).
  set (U := expm M).
  rewrite (rsum_ext n _ (fun i =>
             (apply_re n U x i * apply_re n U x i
              + apply_im n U x i * apply_im n U x i)
             + ((apply_re n U y i * apply_re n U y i
                 + apply_im n U y i * apply_im n U y i)
                + 2 * (apply_im n U x i * apply_re n U y i
                       - apply_re n U x i * apply_im n U y i)))).
  2:{ intros i Hi. rewrite np_abs_sq.
      rewrite (nth_matvec_parts n U v i (square_expm n M Hlen) Hv Hi).
      fold x. fold y. simpl fst. simpl snd. ring. }
  rewrite (rsum_plus n
             (fun i => apply_re n U x i * apply_re n U x i
                       + apply_im n U x i * apply_im n U x i)
             (fun i => (apply_re n U y i * apply_re n U y i
                        + apply_im n U y i * apply_im n U y i)
                       + 2 * (apply_im n U x i * apply_re n U y i
                              - apply_re n U x i * apply_im n U y i))).
  rewrite (rsum_plus n
             (fun i => apply_re n U y i * apply_re n U y i
                       + apply_im n U y i * apply_im n U y i)
             (fun i => 2 * (apply_im n U x i * apply_re n U y i
                            - apply_re n U x i * apply_im n U y i))).
  rewrite (rsum_scal n 2
             (fun i => apply_im n U x i * apply_re n U y i
                       - apply_re n U x i * apply_im n U y i)).
  unfold U.
  rewrite (expm_inner_re n b M mu HM Hlen Hmu Hb Hsym x x).
  rewrite (expm_inner_re n b M mu HM Hlen Hmu Hb Hsym y y).
  rewrite (expm_inner_im n b M mu HM Hlen Hmu Hb Hsym x y).
  rewrite Rmult_0_r, Rplus_0_r, <- rsum_plus.
  apply rsum_ext. intros i _. rewrite np_abs_sq. reflexivity.
Qed.

Lemma walk_generator_entries (g : Graph) (gamma t : R) (i j : nat) :
  (i < number_of_nodes g)%nat -> (j < number_of_nodes g)%nat ->
  mget (ContinuousWalk.generator gamma (dense_adjacency g) t) i j
  = (0, - (gamma * (if has_edge g i j then 1 else 0) * t)).
Proof.
  intros Hi Hj. unfold mget, ContinuousWalk.generator.
  rewrite (nth_mmap (number_of_nodes g) _ _ i j 0 C0
             (square_dense_adjacency g) Hi Hj).
  rewrite nth_dense_adjacency by assumption.
  apply C_eq; simpl; ring.
Qed.

(** The evolution operator of the walk preserves the norm of every state
    vector. *)
Lemma walk_evolution_preserves_norm (g : Graph) (gamma t : R) (psi : list C) :
  length psi = number_of_nodes g ->
  np_sum (map (fun z => np_abs z ^ 2)
              (matvec (expm (ContinuousWalk.generator gamma (dense_adjacency g) t))
                      psi))
  = np_sum (map (fun z => np_abs z ^ 2) psi).
Proof.
  intros Hlen.
  apply (expm_preserves_norm (number_of_nodes g)
           (fun i j => gamma * (if has_edge g i j then 1 else 0) * t)
           _ (Rabs (gamma * t))).
  - intros i j Hi Hj. apply walk_generator_entries; assumption.
  - unfold ContinuousWalk.generator. rewrite length_mmap.
    apply square_dense_adjacency.
  - apply Rabs_pos.
  - intros i j _ _. destruct (has_edge g i j).
    + right. f_equal. ring.
    + replace (gamma * 0 * t) with 0 by ring. rewrite Rabs_R0. apply Rabs_pos.
  - intros i j _ _. rewrite (has_edge_sym g i j). reflexivity.
  - exact Hlen.
Qed.

Lemma np_sum_localized (n k : nat) :
  (k < n)%nat ->
  np_sum (map (fun z => np_abs z ^ 2) (set_nth k (RtoC 1) (zeros C0 n))) = 1.
Proof.
  intros Hk. rewrite (localized_probabilities n k Hk).
  rewrite (np_sum_map _ _ 0%nat), length_seq.
  rewrite (rsum_ext n _ (fun j => (if Nat.eqb k j then 1 else 0) * 1)).
  - rewrite rsum_delta by exact Hk. reflexivity.
  - intros j Hj. rewrite seq_nth by exact Hj. simpl Nat.add.
    rewrite Nat.eqb_sym. destruct (Nat.eqb k j); ring.
Qed.


Lemma search_generator_entries (n : nat) (H : list (list R)) (t : R) (i j : nat) :
  square n H -> (i < n)%nat -> (j < n)%nat ->
  mget (Search.generator H t) i j = (0, - (nth j (nth i H []) 0 * t)).
Proof.
  intros HH Hi Hj. unfold mget, Search.generator.
  rewrite (nth_mmap n _ H i j 0 C0 HH Hi Hj).
  apply C_eq; simpl; ring.
Qed.

(** The evolution operator of the search preserves the norm of every
    state vector. *)
Lemma search_evolution_preserves_norm (g : Graph) (w : Z) (gamma t : R) :
  (- Z.of_nat (number_of_nodes g) <= w < Z.of_nat (number_of_nodes g))%Z ->
  exists H,
    build_search_hamiltonian g w gamma = Return H
    /\ forall psi : list C,
         length psi = number_of_nodes g ->
         np_sum (map (fun z => np_abs z ^ 2)
                     (matvec (expm (Search.generator H t)) psi))
         = np_sum (map (fun z => np_abs z ^ 2) psi).
Proof.
  intros Hw.
  assert (Hn : (0 < number_of_nodes g)%nat) by lia.
  destruct (build_search_hamiltonian_entries g w gamma Hn Hw) as [H [E [Hsq Hent]]].
  exists H. split; [exact E|]. intros psi Hlen.
  set (n := number_of_nodes g) in *.
  set (r := Z.to_nat (w mod Z.of_nat n)) in *.
  apply (expm_preserves_norm n
           (fun i j => nth j (nth i H []) 0 * t)
           _ ((Rabs gamma + 1) * Rabs t)).
  - intros i j Hi Hj. apply (search_generator_entries n); assumption.
  - unfold Search.generator. rewrite length_mmap. destruct Hsq; assumption.
  - apply Rmult_le_pos; [pose proof (Rabs_pos gamma); lra | apply Rabs_pos].
  - intros i j Hi Hj. rewrite Rabs_mult.
    apply Rmult_le_compat_r; [apply Rabs_pos|].
    rewrite (Hent i j Hi Hj), nth_dense_adjacency by assumption.
    eapply Rle_trans; [apply Rabs_triang|].
    apply Rplus_le_compat.
    + rewrite Rabs_mult, Rabs_Ropp.
      rewrite <- (Rmult_1_r (Rabs gamma)) at 2.
      apply Rmult_le_compat_l; [apply Rabs_pos|].
      destruct (has_edge g i j); [rewrite Rabs_R1 | rewrite Rabs_R0]; lra.
    + destruct (Nat.eqb i r && Nat.eqb j r); [rewrite Rabs_R1 | rewrite Rabs_R0]; lra.
  - intros i j Hi Hj.
    rewrite (Hent i j Hi Hj), (Hent j i Hj Hi), !nth_dense_adjacency by assumption.
    rewrite (has_edge_sym g i j), (andb_comm (Nat.eqb i r)). reflexivity.
  - exact Hlen.
Qed.

(* ===================================================================== *)
(** * Further properties of the code *)
(* ===================================================================== *)

(* --------------------------------------------------------------------- *)
(** ** The Grover coin *)
(* --------------------------------------------------------------------- *)

Lemma square_grover_coin (n : nat) : square (2 ^ n) (grover_coin n).
Proof.
  unfold grover_coin. apply square_mmap2.
  - apply square_mmap. exact (square_zeros2 1 (2 ^ n)).
  - apply square_map_seq.
Qed.

Lemma grover_coin_entries (n i j : nat) :
  (i < 2 ^ n)%nat -> (j < 2 ^ n)%nat ->
  nth j (nth i (grover_coin n) []) 0
  = 2 / INR (2 ^ n) - (if Nat.eqb i j then 1 else 0).
Proof.
  intros Hi Hj. unfold grover_coin.
  rewrite (nth_mmap2 (2 ^ n) Rminus _ _ i j 0 0 0);
    [| apply square_mmap; exact (square_zeros2 1 (2 ^ n))
     | apply square_map_seq | exact Hi | exact Hj].
  rewrite (nth_mmap (2 ^ n) _ _ i j 0 0 (square_zeros2 1 (2 ^ n)) Hi Hj).
  unfold zeros2, zeros, eye.
  rewrite (nth_repeat_lt _ [] _ i Hi), (nth_repeat_lt _ 0 _ j Hj).
  rewrite (nth_map_seq _ 0 (2 ^ n) i [] Hi), (nth_map_seq _ 0 (2 ^ n) j 0 Hj).
  simpl Nat.add. lra.
Qed.

(** X1.  The Grover coin on [n] coin qubits is a symmetric matrix whose
    rows are orthonormal: the inner product of row [i] and row [j] is 1
    for [i = j] and 0 otherwise.  So the matrix handed to [qc.unitary] is
    orthogonal, hence unitary, for every number of coin qubits. *)
Theorem grover_coin_orthogonal (n i j : nat) :
  (i < 2 ^ n)%nat -> (j < 2 ^ n)%nat ->
  let coin := grover_coin n in
  nth j (nth i coin []) 0 = nth i (nth j coin []) 0
  /\ rsum (2 ^ n) (fun l => nth l (nth i coin []) 0 * nth l (nth j coin []) 0)
     = if Nat.eqb i j then 1 else 0.
Proof.
  intros Hi Hj coin. unfold coin. split.
  - rewrite !grover_coin_entries by assumption. rewrite (Nat.eqb_sym i j). reflexivity.
  - set (d := (2 ^ n)%nat) in *.
    assert (Hd : 0 < INR d) by (apply lt_0_INR; lia).
    set (c := 2 / INR d).
    rewrite (rsum_ext d _ (fun l =>
               (c * c - (if Nat.eqb i l then 1 else 0) * c)
               - ((if Nat.eqb j l then 1 else 0) * c
                  - (if Nat.eqb i l then 1 else 0) * (if Nat.eqb j l then 1 else 0)))).
    2:{ intros l Hl. unfold c, d in *. rewrite !grover_coin_entries by assumption.
        ring. }
    rewrite (rsum_minus d
               (fun l => c * c - (if Nat.eqb i l then 1 else 0) * c)
               (fun l => (if Nat.eqb j l then 1 else 0) * c
                         - (if Nat.eqb i l then 1 else 0)
                           * (if Nat.eqb j l then 1 else 0))).
    rewrite (rsum_minus d (fun _ => c * c) (fun l => (if Nat.eqb i l then 1 else 0) * c)).
    rewrite (rsum_minus d (fun l => (if Nat.eqb j l then 1 else 0) * c)
               (fun l => (if Nat.eqb i l then 1 else 0)
                         * (if Nat.eqb j l then 1 else 0))).
    rewrite rsum_const.
    rewrite (rsum_delta d i (fun _ => c) Hi), (rsum_delta d j (fun _ => c) Hj).
    rewrite (rsum_delta d i (fun l => if Nat.eqb j l then 1 else 0) Hi).
    rewrite (Nat.eqb_sym j i). unfold c. destruct (Nat.eqb i j); field; lra.
Qed.

Lemma grover_coin_orthogonal_witness :
  ((0 < 2 ^ 2)%nat /\ (3 < 2 ^ 2)%nat)
  /\ nth 3 (nth 0 (grover_coin 2) []) 0 = nth 0 (nth 3 (grover_coin 2) []) 0
  /\ rsum (2 ^ 2) (fun l => nth l (nth 0 (grover_coin 2) []) 0
                            * nth l (nth 3 (grover_coin 2) []) 0)
     = 0.
Proof.
  split; [split; simpl; lia|].
  apply (grover_coin_orthogonal 2 0 3); simpl; lia.
Defined.

(* --------------------------------------------------------------------- *)
(** ** The built circuit *)
(* --------------------------------------------------------------------- *)

Lemma extend_nil (qc : QuantumCircuit) : extend qc [] = qc.
Proof. destruct qc. unfold extend. simpl. rewrite app_nil_r. reflexivity. Qed.

Lemma extend_extend (qc : QuantumCircuit) (l1 l2 : list instruction) :
  extend (extend qc l1) l2 = extend qc (l1 ++ l2).
Proof. unfold extend. simpl. rewrite app_assoc. reflexivity. Qed.

Lemma append_extend (qc : QuantumCircuit) (op : instruction) :
  append qc op = extend qc [op].
Proof. reflexivity. Qed.

Lemma fold_left_append {A : Type} (g : A -> instruction) (xs : list A) :
  forall qc, fold_left (fun qc x => append qc (g x)) xs qc = extend qc (map g xs).
Proof.
  induction xs as [|x xs IH]; intros qc; simpl.
  - symmetry. apply extend_nil.
  - rewrite IH, append_extend, extend_extend. reflexivity.
Qed.

Lemma for_each_extend {A : Type}
    (f : A -> QuantumCircuit -> result QuantumCircuit)
    (g : A -> list instruction) (xs : list A) :
  (forall x qc, In x xs -> f x qc = Return (extend qc (g x))) ->
  forall qc, for_each f xs qc = Return (extend qc (flat_map g xs)).
Proof.
  induction xs as [|x xs IH]; intros Hf qc; simpl.
  - rewrite extend_nil. reflexivity.
  - rewrite Hf by (left; reflexivity). simpl bind.
    rewrite IH by (intros y q Hy; apply Hf; right; exact Hy).
    rewrite extend_extend. reflexivity.
Qed.

Lemma for_enumerate_extend {A : Type} (g : nat -> A -> instruction)
    (xs : list A) :
  forall (i : nat) (qc : QuantumCircuit),
  for_enumerate (fun i x qc => Return (append qc (g i x))) i xs qc
  = Return (extend qc (map (fun p => g (fst p) (snd p))
                           (combine (seq i (length xs)) xs))).
Proof.
  induction xs as [|x xs IH]; intros i qc; simpl.
  - rewrite extend_nil. reflexivity.
  - rewrite IH, append_extend, extend_extend. reflexivity.
Qed.

Lemma getitem_seq (s n i : nat) :
  (i < n)%nat -> getitem (seq s n) (Z.of_nat i) = Return (s + i)%nat.
Proof.
  intros Hi. rewrite (getitem_nat _ i 0%nat) by (rewrite length_seq; exact Hi).
  rewrite seq_nth by exact Hi. reflexivity.
Qed.

Lemma firstn_seq (s n i : nat) : (i <= n)%nat -> firstn i (seq s n) = seq s i.
Proof.
  revert s n. induction i as [|i IH]; intros s n Hi; [reflexivity|].
  destruct n as [|n]; [lia|]. simpl. rewrite IH by lia. reflexivity.
Qed.

Lemma flat_map_singleton {A B : Type} (g : A -> B) (l : list A) :
  flat_map (fun x => [g x]) l = map g l.
Proof. induction l as [|x l IH]; simpl; congruence. Qed.

Lemma flat_map_nil {A B : Type} (l : list A) :
  flat_map (fun _ => @nil B) l = [].
Proof. induction l as [|x l IH]; [reflexivity | exact IH]. Qed.

Lemma flat_map_const {A B : Type} (b : B) (l : list A) :
  flat_map (fun _ => [b]) l = repeat b (length l).
Proof. induction l as [|x l IH]; [reflexivity | simpl; rewrite IH; reflexivity]. Qed.

Lemma combine_seq (a b k : nat) :
  combine (seq a k) (seq b k) = map (fun i => (a + i, b + i)%nat) (seq 0 k).
Proof.
  revert a b. induction k as [|k IH]; intros a b; [reflexivity|].
  simpl. rewrite !Nat.add_0_r. f_equal.
  rewrite IH, <- (seq_shift k 0), map_map.
  apply map_ext. intros i. f_equal; lia.
Qed.

Lemma filter_map_false {A B : Type} (p : B -> bool) (g : A -> B) (l : list A) :
  (forall x, p (g x) = false) -> filter p (map g l) = [].
Proof.
  intros H. induction l as [|x l IH]; [reflexivity|]. simpl. rewrite H. exact IH.
Qed.

Lemma filter_map_true {A B : Type} (p : B -> bool) (g : A -> B) (l : list A) :
  (forall x, p (g x) = true) -> filter p (map g l) = map g l.
Proof.
  intros H. induction l as [|x l IH]; [reflexivity|]. simpl. rewrite H, IH. reflexivity.
Qed.

Lemma filter_flat_map {A B : Type} (p : B -> bool) (g : A -> list B) (l : list A) :
  filter p (flat_map g l) = flat_map (fun x => filter p (g x)) l.
Proof.
  induction l as [|x l IH]; [reflexivity|].
  cbn [flat_map]. rewrite filter_app, IH. reflexivity.
Qed.

(** One walk step on coin qubits [0 .. n_coin - 1] and position qubits
    [n_coin .. n_coin + k - 1] appends the coin operator, the controlled
    NOT and the multi-controlled NOTs, in this order. *)
Lemma walk_step_ops (coin_type : string) (n_coin k step : nat)
    (qc : QuantumCircuit) :
  (1 <= n_coin)%nat -> (1 <= k)%nat ->
  walk_step coin_type n_coin (seq 0 n_coin) (seq n_coin k) step qc
  = Return (extend qc (step_ops coin_type n_coin k step)).
Proof.
  intros Hc Hk. unfold walk_step.
  change 0%Z with (Z.of_nat 0).
  rewrite !(getitem_seq 0 n_coin 0) by lia.
  rewrite (getitem_seq n_coin k 0) by lia.
  rewrite Nat.add_0_r. simpl Nat.add.
  assert (E : (if String.eqb coin_type "hadamard" && Nat.eqb n_coin 1
               then c0 <- Return 0%nat ;; Return (append qc (h c0))
               else Return (append qc (unitary (grover_coin n_coin) (seq 0 n_coin)
                                               (coin_label step))))
              = Return (extend qc [coin_op coin_type n_coin step])).
  { unfold coin_op.
    destruct (String.eqb coin_type "hadamard" && Nat.eqb n_coin 1); reflexivity. }
  rewrite E. simpl bind. rewrite length_seq.
  rewrite (for_each_extend _ (fun i => [mcx (0%nat :: seq n_coin i) (n_coin + i)])).
  - rewrite append_extend, !extend_extend. unfold step_ops, shift_ops.
    rewrite flat_map_singleton, Nat.add_0_r. reflexivity.
  - intros i q Hi. apply in_seq in Hi.
    rewrite getitem_seq by lia. cbn [bind].
    rewrite (firstn_seq n_coin k i) by lia.
    destruct n_coin as [|c']; [lia | reflexivity].
Qed.

(** The whole circuit for at least one position qubit: a Hadamard gate
    on every coin qubit, the instructions of the steps in order, then one
    measurement per position qubit. *)
Lemma build_closed_form (k s : nat) (coin_type : string) :
  (1 <= k)%nat ->
  let c := n_coin_of coin_type k in
  build_coined_walk_circuit k s coin_type
  = Return {| num_qubits := k + c;
              num_clbits := k;
              data := map h (seq 0 c)
                      ++ flat_map (step_ops coin_type c k) (seq 0 s)
                      ++ map (fun i => measure (c + i) i) (seq 0 k) |}.
Proof.
  intros Hk c. unfold build_coined_walk_circuit. fold (n_coin_of coin_type k). fold c.
  assert (Hc : (1 <= c)%nat)
    by (unfold c, n_coin_of; destruct (String.eqb coin_type "hadamard"); lia).
  replace (k + c - c)%nat with k by lia.
  rewrite fold_left_append.
  rewrite (for_each_extend _ (step_ops coin_type c k))
    by (intros step q _; apply walk_step_ops; assumption).
  simpl bind. rewrite for_enumerate_extend. simpl bind.
  rewrite !extend_extend. unfold extend. simpl. f_equal. f_equal. f_equal. f_equal.
  rewrite length_seq, combine_seq, map_map. reflexivity.
Qed.

(** X2.  For at least one position qubit the builder returns a circuit
    with [n_position_qubits + n_coin] qubits, one classical bit per
    position qubit and [n_coin + n_steps * (n_position_qubits + 1)
    + n_position_qubits] instructions, where [n_coin] is 1 for the
    Hadamard walk and [n_position_qubits] otherwise. *)
Theorem circuit_registers_and_size (k s : nat) (coin_type : string) :
  (1 <= k)%nat ->
  let n_coin := if String.eqb coin_type "hadamard" then 1%nat else k in
  exists qc,
    build_coined_walk_circuit k s coin_type = Return qc
    /\ num_qubits qc = (k + n_coin)%nat
    /\ num_clbits qc = k
    /\ length (data qc) = (n_coin + s * (k + 1) + k)%nat.
Proof.
  intros Hk n_coin. eexists. split; [apply build_closed_form; exact Hk|].
  fold (n_coin_of coin_type k). cbn [num_qubits num_clbits data].
  split; [reflexivity|]. split; [reflexivity|].
  rewrite !length_app, !length_map, !length_seq.
  assert (E : forall l, length (flat_map (step_ops coin_type (n_coin_of coin_type k) k) l)
                        = (length l * (k + 1))%nat).
  { induction l as [|x l IH]; [reflexivity|].
    cbn [flat_map]. rewrite length_app, IH. unfold step_ops, shift_ops.
    simpl length. rewrite length_map, length_seq. lia. }
  rewrite E, length_seq. unfold n_coin, n_coin_of. lia.
Qed.

Lemma circuit_registers_and_size_witness :
  (1 <= 3)%nat
  /\ exists qc,
       build_coined_walk_circuit 3 5 "grover" = Return qc
       /\ num_qubits qc = 6%nat
       /\ num_clbits qc = 3%nat
       /\ length (data qc) = 26%nat.
Proof.
  split; [lia|].
  apply (circuit_registers_and_size 3 5 "grover"). lia.
Defined.

(** X3.  With [n_steps = 0] the loop over the steps adds nothing: for
    every number of position qubits, zero included, the circuit consists
    of the Hadamard gates that prepare the coin register followed by the
    measurements of the position register, and nothing shifts the
    position. *)
Theorem zero_steps_prepare_and_measure (k : nat) (coin_type : string) :
  let n_coin := if String.eqb coin_type "hadamard" then 1%nat else k in
  build_coined_walk_circuit k 0 coin_type
  = Return {| num_qubits := k + n_coin;
              num_clbits := k;
              data := map h (seq 0 n_coin)
                      ++ map (fun i => measure (n_coin + i) i) (seq 0 k) |}.
Proof.
  intros n_coin. unfold build_coined_walk_circuit. fold n_coin.
  replace (k + n_coin - n_coin)%nat with k by lia.
  rewrite fold_left_append.
  change (seq 0 0) with (@nil nat). cbn [for_each bind].
  rewrite for_enumerate_extend. cbn [bind].
  rewrite !extend_extend. unfold extend. simpl.
  rewrite length_seq, combine_seq, map_map. reflexivity.
Qed.

(** X4.  The Hadamard walk raises [IndexError] exactly when it is asked
    for at least one step on an empty position register: the shift then
    reads [pos_qubits[0]] of an empty list.  In every other case the
    builder does not raise [IndexError]. *)
Theorem hadamard_builder_index_error (k s : nat) :
  build_coined_walk_circuit k s "hadamard" = Raise IndexError
  <-> (k = 0 /\ s <> 0)%nat.
Proof.
  split.
  - intros E. destruct k as [|k].
    + split; [reflexivity|]. intros ->. discriminate E.
    + destruct (build_returns (S k) s "hadamard") as [qc Eqc]; [lia|].
      rewrite Eqc in E. discriminate E.
  - intros [-> Hs]. destruct s as [|s]; [congruence | reflexivity].
Qed.

(** X5.  Every instruction of a circuit built for at least one position
    qubit fits the circuit: its qubit indices lie below [num_qubits], its
    classical bit index below [num_clbits], no gate names a qubit twice
    (the target of a multi-controlled NOT is none of its controls), and
    the coin matrix has as many rows and columns as its qubits have basis
    states. *)
Theorem circuit_instructions_valid (k s : nat) (coin_type : string) :
  (1 <= k)%nat ->
  exists qc,
    build_coined_walk_circuit k s coin_type = Return qc
    /\ Forall (valid_instruction (num_qubits qc) (num_clbits qc)) (data qc).
Proof.
  intros Hk. eexists. split; [apply build_closed_form; exact Hk|].
  cbn [num_qubits num_clbits data].
  set (c := n_coin_of coin_type k).
  assert (Hc : (1 <= c)%nat)
    by (unfold c, n_coin_of; destruct (String.eqb coin_type "hadamard"); lia).
  apply Forall_app. split; [|apply Forall_app; split].
  - apply Forall_forall. intros op Hop. apply in_map_iff in Hop.
    destruct Hop as [q [<- Hq]]. apply in_seq in Hq. simpl. lia.
  - apply Forall_flat_map. apply Forall_forall. intros step _.
    unfold step_ops, shift_ops. constructor; [|constructor].
    + unfold coin_op.
      destruct (String.eqb coin_type "hadamard" && Nat.eqb c 1); simpl; [lia|].
      rewrite length_seq. split; [apply square_grover_coin|].
      split; [apply seq_NoDup|]. intros q Hq. apply in_seq in Hq. lia.
    + simpl. lia.
    + apply Forall_forall. intros op Hop. apply in_map_iff in Hop.
      destruct Hop as [i [<- Hi]]. apply in_seq in Hi. simpl. split.
      * constructor.
        -- intros [H0|Hs]; [lia|]. apply in_seq in Hs. lia.
        -- constructor; [|apply seq_NoDup].
           intros Hs. apply in_seq in Hs. lia.
      * intros q [<-|[<-|Hq]]; [lia|lia|]. apply in_seq in Hq. lia.
  - apply Forall_forall. intros op Hop. apply in_map_iff in Hop.
    destruct Hop as [i [<- Hi]]. apply in_seq in Hi. simpl. lia.
Qed.

Lemma circuit_instructions_valid_witness :
  (1 <= 2)%nat
  /\ exists qc,
       build_coined_walk_circuit 2 3 "hadamard" = Return qc
       /\ Forall (valid_instruction (num_qubits qc) (num_clbits qc)) (data qc).
Proof.
  split; [lia|].
  apply (circuit_instructions_valid 2 3 "hadamard"). lia.
Defined.

(** X6.  Measurements close the circuit: for at least one position qubit
    the instruction list is a list of gates without any measurement,
    followed by exactly one measurement per position qubit, the [i]-th
    position qubit into classical bit [i].  No coin qubit is ever
    measured and nothing acts after a measurement. *)
Theorem measurements_close_the_circuit (k s : nat) (coin_type : string) :
  (1 <= k)%nat ->
  let n_coin := if String.eqb coin_type "hadamard" then 1%nat else k in
  exists qc gates,
    build_coined_walk_circuit k s coin_type = Return qc
    /\ data qc = gates ++ map (fun i => measure (n_coin + i) i) (seq 0 k)
    /\ forall q c, ~ In (measure q c) gates.
Proof.
  intros Hk n_coin. eexists. eexists.
  split; [apply build_closed_form; exact Hk|].
  fold (n_coin_of coin_type k). cbn [data]. split; [apply app_assoc|].
  intros q c Hin. apply in_app_or in Hin. destruct Hin as [Hin|Hin].
  - apply in_map_iff in Hin. destruct Hin as [x [Hx _]]. discriminate.
  - apply in_flat_map in Hin. destruct Hin as [step [_ Hin]].
    unfold step_ops, shift_ops, coin_op in Hin.
    destruct Hin as [Hin|[Hin|Hin]].
    + destruct (String.eqb coin_type "hadamard" && Nat.eqb (n_coin_of coin_type k) 1);
        discriminate.
    + discriminate.
    + apply in_map_iff in Hin. destruct Hin as [x [Hx _]]. discriminate.
Qed.

Lemma measurements_close_the_circuit_witness :
  (1 <= 2)%nat
  /\ exists qc gates,
       build_coined_walk_circuit 2 1 "grover" = Return qc
       /\ data qc = gates ++ [measure 2 0; measure 3 1]
       /\ forall q c, ~ In (measure q c) gates.
Proof.
  split; [lia|].
  apply (measurements_close_the_circuit 2 1 "grover"). lia.
Defined.

(** X7.  For a coin type other than ['hadamard'] and at least one
    position qubit, the circuit applies the Grover coin of all
    [n_position_qubits] coin qubits once per step, labelled ['C0'], ['C1'],
    ... in step order, and its only Hadamard gates are the initial ones,
    one per coin qubit. *)
Theorem grover_walk_coin_gates (k s : nat) (coin_type : string) :
  coin_type <> "hadamard"%string -> (1 <= k)%nat ->
  exists qc,
    build_coined_walk_circuit k s coin_type = Return qc
    /\ filter is_unitary (data qc)
       = map (fun step => unitary (grover_coin k) (seq 0 k) (coin_label step))
             (seq 0 s)
    /\ filter is_h (data qc) = map h (seq 0 k).
Proof.
  intros Hc Hk. apply String.eqb_neq in Hc.
  eexists. split; [apply build_closed_form; exact Hk|].
  unfold n_coin_of. rewrite Hc. cbn [data].
  rewrite !filter_app, !filter_flat_map.
  rewrite (filter_map_false is_unitary h) by reflexivity.
  rewrite (filter_map_false is_unitary) by reflexivity.
  rewrite (filter_map_true is_h h) by reflexivity.
  rewrite (filter_map_false is_h) by reflexivity.
  rewrite app_nil_r. cbn [app]. split.
  - rewrite <- flat_map_singleton. apply flat_map_ext. intros step.
    unfold step_ops, shift_ops, coin_op. rewrite Hc. cbn [andb filter is_unitary].
    rewrite filter_map_false by reflexivity. reflexivity.
  - rewrite (flat_map_ext _ (fun _ => [])).
    + rewrite flat_map_nil, app_nil_r. reflexivity.
    + intros step. unfold step_ops, shift_ops, coin_op. rewrite Hc.
      cbn [andb filter is_h]. apply filter_map_false. reflexivity.
Qed.

Lemma grover_walk_coin_gates_witness :
  ("grover"%string <> "hadamard"%string /\ (1 <= 2)%nat)
  /\ exists qc,
       build_coined_walk_circuit 2 2 "grover" = Return qc
       /\ filter is_unitary (data qc)
          = [ unitary (grover_coin 2) [0%nat; 1%nat] "C0";
              unitary (grover_coin 2) [0%nat; 1%nat] "C1" ]
       /\ filter is_h (data qc) = [h 0; h 1].
Proof.
  split; [split; [discriminate | lia]|].
  apply (grover_walk_coin_gates 2 2 "grover"); [discriminate | lia].
Defined.

(** X8.  The Hadamard walk on at least one position qubit uses a single
    coin qubit and no matrix at all: the circuit has
    [n_position_qubits + 1] qubits, contains no [unitary] instruction,
    and its Hadamard gates are the initial one and one per step, all on
    qubit 0. *)
Theorem hadamard_walk_coin_gates (k s : nat) :
  (1 <= k)%nat ->
  exists qc,
    build_coined_walk_circuit k s "hadamard" = Return qc
    /\ num_qubits qc = (k + 1)%nat
    /\ filter is_unitary (data qc) = []
    /\ filter is_h (data qc) = repeat (h 0) (S s).
Proof.
  intros Hk. eexists. split; [apply build_closed_form; exact Hk|].
  change (n_coin_of "hadamard" k) with 1%nat. cbn [data num_qubits].
  split; [reflexivity|].
  rewrite !filter_app, !filter_flat_map.
  rewrite (filter_map_false is_unitary h) by reflexivity.
  rewrite (filter_map_false is_unitary) by reflexivity.
  rewrite (filter_map_true is_h h) by reflexivity.
  rewrite (filter_map_false is_h) by reflexivity.
  rewrite !app_nil_r. cbn [app]. split.
  - rewrite (flat_map_ext _ (fun _ => [])).
    + apply flat_map_nil.
    + intros step. unfold step_ops, shift_ops, coin_op. simpl.
      apply filter_map_false. reflexivity.
  - rewrite (flat_map_ext _ (fun _ => [h 0])).
    + change (map h (seq 0 1)) with [h 0]. cbn [app repeat]. f_equal.
      rewrite flat_map_const, length_seq. reflexivity.
    + intros step. unfold step_ops, shift_ops, coin_op. simpl.
      f_equal. apply filter_map_false. reflexivity.
Qed.

Lemma hadamard_walk_coin_gates_witness :
  (1 <= 3)%nat
  /\ exists qc,
       build_coined_walk_circuit 3 2 "hadamard" = Return qc
       /\ num_qubits qc = 4%nat
       /\ filter is_unitary (data qc) = []
       /\ filter is_h (data qc) = [h 0; h 0; h 0].
Proof.
  split; [lia|].
  apply (hadamard_walk_coin_gates 3 2). lia.
Defined.

(* --------------------------------------------------------------------- *)
(** ** Running the coined walk *)
(* --------------------------------------------------------------------- *)

Lemma fold_left_bits (b : list bool) (acc : Z) :
  fold_left (fun acc (bit : bool) => (2 * acc + (if bit then 1 else 0))%Z) b acc
  = (acc * 2 ^ Z.of_nat (length b)
     + fold_left (fun acc (bit : bool) => (2 * acc + (if bit then 1 else 0))%Z) b 0)%Z.
Proof.
  revert acc. induction b as [|x b IH]; intros acc.
  - simpl. lia.
  - cbn [fold_left length]. rewrite IH.
    rewrite (IH (2 * 0 + (if x then 1 else 0))%Z).
    rewrite Nat2Z.inj_succ, Z.pow_succ_r by lia. ring.
Qed.

Lemma binary_value_cons (x : bool) (b : list bool) :
  binary_value (x :: b)
  = ((if x then 1 else 0) * 2 ^ Z.of_nat (length b) + binary_value b)%Z.
Proof.
  unfold binary_value. cbn [fold_left]. rewrite fold_left_bits. destruct x; lia.
Qed.

Lemma binary_value_range (b : list bool) :
  (0 <= binary_value b < 2 ^ Z.of_nat (length b))%Z.
Proof.
  induction b as [|x b IH]; [unfold binary_value; simpl; lia|].
  rewrite binary_value_cons. cbn [length]. rewrite Nat2Z.inj_succ, Z.pow_succ_r by lia.
  destruct x; lia.
Qed.

(** Bit strings of equal length with equal values are equal. *)
Lemma binary_value_inj (b1 b2 : list bool) :
  length b1 = length b2 -> binary_value b1 = binary_value b2 -> b1 = b2.
Proof.
  revert b2. induction b1 as [|x b1 IH]; intros [|y b2] Hlen Hv;
    try discriminate; [reflexivity|].
  injection Hlen as Hlen. rewrite !binary_value_cons in Hv.
  pose proof (binary_value_range b1) as H1. pose proof (binary_value_range b2) as H2.
  rewrite Hlen in H1, Hv.
  assert (Hp : (0 < 2 ^ Z.of_nat (length b2))%Z) by (apply Z.pow_pos_nonneg; lia).
  assert (Hxy : x = y) by (destruct x, y; try reflexivity; lia).
  subst y. f_equal. apply IH; [exact Hlen | lia].
Qed.

Lemma int2_binary_value (b : list bool) :
  b <> [] -> int2 b = Return (binary_value b).
Proof. destruct b; [congruence | reflexivity]. Qed.

Lemma np_sum_set_nth (i : nat) (p : R) (a : list R) :
  (i < length a)%nat -> np_sum (set_nth i p a) = np_sum a + (p - nth i a 0).
Proof.
  revert i. induction a as [|x a IH]; intros i Hi; [simpl in Hi; lia|].
  destruct i as [|i]; simpl.
  - lra.
  - rewrite IH by (simpl in Hi; lia). lra.
Qed.

Lemma np_sum_zeros (n : nat) : np_sum (zeros 0 n) = 0.
Proof.
  unfold zeros. induction n as [|n IH]; simpl; [reflexivity|]. rewrite IH. lra.
Qed.

Lemma np_sum_scaled_counts (l : list (bitstring * Z)) (shots : Z) :
  np_sum (map (fun item => IZR (snd item) / IZR shots) l)
  = IZR (fold_right Z.add 0%Z (map snd l)) / IZR shots.
Proof.
  induction l as [|x l IH]; simpl.
  - unfold Rdiv. ring.
  - rewrite IH, plus_IZR. unfold Rdiv. ring.
Qed.

(** The loop that stores the relative frequencies: with distinct keys of
    [k >= 1] bits each, every key sets its own entry and no other. *)
Lemma store_counts (k : nat) (shots : Z) (counts : list (bitstring * Z)) :
  (1 <= k)%nat -> shots <> 0%Z ->
  NoDup (map fst counts) ->
  (forall item, In item counts -> length (fst item) = k) ->
  forall a : list R,
    length a = (2 ^ k)%nat ->
    exists a',
      for_each (fun item probabilities =>
                  idx <- int2 (fst item) ;;
                  p <- true_divide (snd item) shots ;;
                  setitem probabilities idx p)
               counts a = Return a'
      /\ length a' = (2 ^ k)%nat
      /\ (forall item, In item counts ->
            nth (Z.to_nat (binary_value (fst item))) a' 0
            = IZR (snd item) / IZR shots)
      /\ (forall i, (forall item, In item counts ->
                       Z.to_nat (binary_value (fst item)) <> i) ->
            nth i a' 0 = nth i a 0)
      /\ np_sum a'
         = np_sum a
           + np_sum (map (fun item =>
                            IZR (snd item) / IZR shots
                            - nth (Z.to_nat (binary_value (fst item))) a 0)
                         counts).
Proof.
  intros Hk Hshots.
  set (body := fun (item : bitstring * Z) (probabilities : list R) =>
                 idx <- int2 (fst item) ;;
                 p <- true_divide (snd item) shots ;;
                 setitem probabilities idx p).
  induction counts as [|item counts IH]; intros Hnd Hlen a Ha.
  - exists a. cbn [for_each map np_sum fold_right].
    split; [reflexivity|]. split; [exact Ha|]. split; [intros item []|].
    split; [reflexivity | lra].
  - cbn [map] in Hnd. apply NoDup_cons_iff in Hnd. destruct Hnd as [Hnotin Hnd].
    assert (Hl : length (fst item) = k) by (apply Hlen; left; reflexivity).
    pose proof (binary_value_range (fst item)) as Hv. rewrite Hl in Hv.
    assert (Hpow : Z.of_nat (2 ^ k) = (2 ^ Z.of_nat k)%Z).
    { rewrite Nat2Z.inj_pow. reflexivity. }
    set (i := Z.to_nat (binary_value (fst item))).
    assert (Hi : (i < 2 ^ k)%nat) by (unfold i; lia).
    set (p := IZR (snd item) / IZR shots).
    assert (Ebody : body item a = Return (set_nth i p a)).
    { unfold body.
      rewrite int2_binary_value by (intros E; rewrite E in Hl; simpl in Hl; lia).
      cbn [bind]. unfold true_divide.
      destruct (Z.eqb_spec shots 0) as [E|_]; [contradiction|]. cbn [bind].
      unfold setitem. rewrite Ha, norm_index_nonneg by lia. reflexivity. }
    cbn [for_each]. rewrite Ebody. cbn [bind].
    destruct (IH Hnd (fun it Hit => Hlen it (or_intror Hit)) (set_nth i p a))
      as [a' [E [Hla [Hent [Hsame Hsum]]]]];
      [rewrite length_set_nth; exact Ha|].
    assert (Hother : forall it, In it counts ->
                       Z.to_nat (binary_value (fst it)) <> i).
    { intros it Hit Heq. apply Hnotin.
      replace (fst item) with (fst it); [apply in_map; exact Hit|].
      apply binary_value_inj.
      - rewrite Hl. apply Hlen. right; exact Hit.
      - pose proof (binary_value_range (fst it)). unfold i in Heq. lia. }
    exists a'. split; [exact E|]. split; [exact Hla|]. split; [|split].
    + intros it [<-|Hit]; [|apply Hent; exact Hit].
      fold i. fold p. rewrite (Hsame i Hother).
      apply nth_set_nth_eq. rewrite Ha. exact Hi.
    + intros j Hj. rewrite Hsame by (intros it Hit; apply Hj; right; exact Hit).
      apply nth_set_nth_neq. intros E'. apply (Hj item (or_introl eq_refl)).
      fold i. symmetry. exact E'.
    + rewrite Hsum, np_sum_set_nth by (rewrite Ha; exact Hi).
      cbn [map np_sum fold_right]. fold i. fold p.
      rewrite (map_ext_in
                 (fun it => IZR (snd it) / IZR shots
                            - nth (Z.to_nat (binary_value (fst it))) (set_nth i p a) 0)
                 (fun it => IZR (snd it) / IZR shots
                            - nth (Z.to_nat (binary_value (fst it))) a 0)).
      * unfold np_sum. lra.
      * intros it Hit. f_equal. apply nth_set_nth_neq.
        exact (Hother it Hit).
Qed.

Section SimulatedRun.

Variable simulate : QuantumCircuit -> Z -> Z -> result (list (bitstring * Z)).

(** X9.  [run_coined_walk] turns counts into relative frequencies.  Let
    the walk have at least one position qubit, and let the simulator
    return, for the built circuit, counts whose keys are distinct bit
    strings with one bit per position qubit and whose values add up to a
    positive number of shots.  Then the result carries the built circuit,
    the positions [0 .. 2^n - 1] and [2^n] probabilities: the entry at the
    value of a key is that key's count divided by [shots], every other
    entry is 0, and the probabilities sum to 1. *)
Theorem run_coined_walk_frequencies (k s : nat) (coin_type : string)
    (shots seed : Z) (qc : QuantumCircuit) (counts : list (bitstring * Z)) :
  (1 <= k)%nat ->
  build_coined_walk_circuit k s coin_type = Return qc ->
  simulate qc shots seed = Return counts ->
  NoDup (map fst counts) ->
  (forall item, In item counts -> length (fst item) = k) ->
  (0 < shots)%Z ->
  fold_right Z.add 0%Z (map snd counts) = shots ->
  exists r,
    run_coined_walk simulate k s coin_type shots seed = Return r
    /\ circuit r = qc
    /\ positions r = seq 0 (2 ^ k)
    /\ length (CoinedWalk.probabilities r) = (2 ^ k)%nat
    /\ (forall item, In item counts ->
          nth (Z.to_nat (binary_value (fst item))) (CoinedWalk.probabilities r) 0
          = IZR (snd item) / IZR shots)
    /\ (forall i, (forall item, In item counts ->
                     Z.to_nat (binary_value (fst item)) <> i) ->
          nth i (CoinedWalk.probabilities r) 0 = 0)
    /\ np_sum (CoinedWalk.probabilities r) = 1.
Proof.
  intros Hk Eqc Ecounts Hnd Hlen Hshots Htotal.
  unfold run_coined_walk. rewrite Eqc. cbn [bind]. rewrite Ecounts. cbn [bind].
  destruct (store_counts k shots counts Hk ltac:(lia) Hnd Hlen (zeros 0 (2 ^ k)))
    as [a' [E [Hla [Hent [Hsame Hsum]]]]]; [apply repeat_length|].
  rewrite E. cbn [bind]. eexists. split; [reflexivity|].
  cbn [circuit positions CoinedWalk.probabilities].
  split; [reflexivity|]. split; [reflexivity|]. split; [exact Hla|].
  split; [exact Hent|]. split.
  - intros i Hi. rewrite (Hsame i Hi).
    destruct (Nat.lt_ge_cases i (2 ^ k)) as [Hlt|Hge].
    + unfold zeros. apply nth_repeat_lt. exact Hlt.
    + apply nth_overflow. unfold zeros. rewrite repeat_length. exact Hge.
  - rewrite Hsum, np_sum_zeros.
    rewrite (map_ext_in _ (fun item => IZR (snd item) / IZR shots)).
    + rewrite np_sum_scaled_counts, Htotal.
      assert (0 < IZR shots) by (apply IZR_lt; exact Hshots). field. lra.
    + intros item Hit.
      pose proof (binary_value_range (fst item)) as Hv.
      rewrite (Hlen item Hit) in Hv.
      unfold zeros. rewrite nth_repeat_lt; [lra|].
      assert (Hpow : Z.of_nat (2 ^ k) = (2 ^ Z.of_nat k)%Z)
        by (rewrite Nat2Z.inj_pow; reflexivity).
      lia.
Qed.

End SimulatedRun.

Lemma run_coined_walk_frequencies_witness :
  let simulate := fun (_ : QuantumCircuit) (_ _ : Z) =>
                    Return [([false], 3%Z); ([true], 5%Z)] in
  let qc := {| num_qubits := 2;
               num_clbits := 1;
               data := [ h 0;
                         unitary (grover_coin 1) [0%nat] "C0";
                         cx 0 1;
                         measure 1 0 ] |} in
  let counts := [([false], 3%Z); ([true], 5%Z)] in
  ((1 <= 1)%nat
   /\ build_coined_walk_circuit 1 1 "grover" = Return qc
   /\ simulate qc 8%Z 42%Z = Return counts
   /\ NoDup (map fst counts)
   /\ (forall item, In item counts -> length (fst item) = 1%nat)
   /\ (0 < 8)%Z
   /\ fold_right Z.add 0%Z (map snd counts) = 8%Z)
  /\ exists r,
       run_coined_walk simulate 1 1 "grover" 8 42 = Return r
       /\ circuit r = qc
       /\ positions r = seq 0 (2 ^ 1)
       /\ length (CoinedWalk.probabilities r) = (2 ^ 1)%nat
       /\ (forall item, In item counts ->
             nth (Z.to_nat (binary_value (fst item))) (CoinedWalk.probabilities r) 0
             = IZR (snd item) / IZR 8)
       /\ (forall i, (forall item, In item counts ->
                        Z.to_nat (binary_value (fst item)) <> i) ->
             nth i (CoinedWalk.probabilities r) 0 = 0)
       /\ np_sum (CoinedWalk.probabilities r) = 1.
Proof.
  intros simulate qc counts.
  assert (Hnd : NoDup (map fst counts)).
  { simpl. constructor; [intros [H|[]]; discriminate|].
    constructor; [intros []|constructor]. }
  assert (Hlen : forall item, In item counts -> length (fst item) = 1%nat).
  { intros item [<-|[<-|[]]]; reflexivity. }
  split; [split; [lia | split; [reflexivity | split; [reflexivity |
          split; [exact Hnd | split; [exact Hlen | split; [lia | reflexivity]]]]]]|].
  apply (run_coined_walk_frequencies simulate 1 1 "grover" 8 42 qc counts);
    [lia | reflexivity | reflexivity | exact Hnd | exact Hlen | lia | reflexivity].
Defined.

(* --------------------------------------------------------------------- *)
(** ** The continuous-time walk *)
(* --------------------------------------------------------------------- *)

(** X10.  On a graph with [N >= 1] nodes [evolve_continuous_walk] raises
    [IndexError] exactly for an initial node outside [-N, N); an index in
    [-N, 0) is accepted and counts from the end, so it gives the result of
    the index increased by [N]. *)
Theorem evolve_index_error (g : Graph) (initial_node : Z) (t gamma : R) :
  (0 < number_of_nodes g)%nat ->
  (evolve_continuous_walk g initial_node t gamma = Raise IndexError
   <-> (initial_node < - Z.of_nat (number_of_nodes g)
        \/ Z.of_nat (number_of_nodes g) <= initial_node)%Z)
  /\ ((- Z.of_nat (number_of_nodes g) <= initial_node < 0)%Z ->
      evolve_continuous_walk g initial_node t gamma
      = evolve_continuous_walk g (initial_node + Z.of_nat (number_of_nodes g))
                               t gamma).
Proof.
  intros Hn. split; [split|].
  - intros E.
    destruct (Z_lt_le_dec initial_node (- Z.of_nat (number_of_nodes g)));
      [left; assumption|].
    destruct (Z_lt_le_dec initial_node (Z.of_nat (number_of_nodes g)));
      [|right; assumption].
    rewrite evolve_continuous_walk_in_range in E by lia. discriminate.
  - intros Hout. unfold evolve_continuous_walk.
    rewrite adjacency_hamiltonian_nonempty by exact Hn. cbn [bind].
    unfold setitem, zeros. rewrite repeat_length.
    rewrite norm_index_out by exact Hout. reflexivity.
  - intros Hi.
    rewrite !evolve_continuous_walk_in_range by lia.
    replace ((initial_node + Z.of_nat (number_of_nodes g))
               mod Z.of_nat (number_of_nodes g))%Z
      with (initial_node mod Z.of_nat (number_of_nodes g))%Z; [reflexivity|].
    rewrite <- (Z_mod_plus_full initial_node 1 (Z.of_nat (number_of_nodes g))).
    f_equal. lia.
Qed.

Lemma evolve_index_error_witness :
  (0 < 2)%nat
  /\ (evolve_continuous_walk single_edge (-1) 1 1 = Raise IndexError
      <-> (-1 < - Z.of_nat 2 \/ Z.of_nat 2 <= -1)%Z)
  /\ ((- Z.of_nat 2 <= -1 < 0)%Z ->
      evolve_continuous_walk single_edge (-1) 1 1
      = evolve_continuous_walk single_edge (-1 + Z.of_nat 2) 1 1).
Proof.
  split; [lia|].
  apply (evolve_index_error single_edge (-1) 1 1). simpl. lia.
Defined.

(** X11.  From an initial node that can index the state, the evolution
    returns, for every time and every coupling, a state and a probability
    vector with one entry per node, and each probability is the squared
    modulus of the amplitude at its node. *)
Theorem evolve_probabilities_are_squared_moduli (g : Graph) (initial_node : Z)
    (t gamma : R) :
  (- Z.of_nat (number_of_nodes g) <= initial_node
   < Z.of_nat (number_of_nodes g))%Z ->
  exists r,
    evolve_continuous_walk g initial_node t gamma = Return r
    /\ length (state r) = number_of_nodes g
    /\ length (probabilities r) = number_of_nodes g
    /\ forall j, (j < number_of_nodes g)%nat ->
         nth j (probabilities r) 0 = np_abs (nth j (state r) C0) ^ 2.
Proof.
  intros Hi.
  eexists. split; [apply evolve_continuous_walk_in_range; exact Hi|].
  cbn [probabilities state].
  set (psi_0 := set_nth _ (RtoC 1) (zeros C0 (number_of_nodes g))).
  set (psi_t := matvec _ psi_0).
  assert (Hlen : length psi_t = number_of_nodes g).
  { unfold psi_t. rewrite length_matvec, length_expm.
    unfold ContinuousWalk.generator. rewrite length_mmap.
    apply square_dense_adjacency. }
  split; [exact Hlen|]. split; [rewrite length_map; exact Hlen|].
  intros j Hj.
  rewrite (nth_indep _ 0 (np_abs C0 ^ 2)) by (rewrite length_map, Hlen; exact Hj).
  apply (map_nth (fun z => np_abs z ^ 2)).
Qed.

Lemma evolve_probabilities_are_squared_moduli_witness :
  (- Z.of_nat 2 <= 0 < Z.of_nat 2)%Z
  /\ exists r,
       evolve_continuous_walk single_edge 0 (PI / 4) 1 = Return r
       /\ length (state r) = 2%nat
       /\ length (probabilities r) = 2%nat
       /\ forall j, (j < 2)%nat ->
            nth j (probabilities r) 0 = np_abs (nth j (state r) C0) ^ 2.
Proof.
  split; [lia|].
  apply (evolve_probabilities_are_squared_moduli single_edge 0 (PI / 4) 1).
  simpl. lia.
Defined.

Lemma walk_generator_rescale (gamma t : R) (A : list (list R)) :
  ContinuousWalk.generator gamma A t = ContinuousWalk.generator 1 A (gamma * t).
Proof.
  unfold ContinuousWalk.generator, mmap.
  apply map_ext. intros row. apply map_ext. intros a.
  apply C_eq; simpl; ring.
Qed.

(** X12.  The coupling constant only rescales time: evolving for [time]
    with coupling [gamma] gives the result, or raises the exception, of
    evolving for [gamma * time] with coupling 1. *)
Theorem coupling_rescales_time (g : Graph) (initial_node : Z) (t gamma : R) :
  evolve_continuous_walk g initial_node t gamma
  = evolve_continuous_walk g initial_node (gamma * t) 1.
Proof.
  unfold evolve_continuous_walk.
  destruct (adjacency_hamiltonian g) as [A|e]; [|reflexivity]. cbn [bind].
  destruct (setitem (zeros C0 (number_of_nodes g)) initial_node (RtoC 1))
    as [psi_0|e]; [|reflexivity]. cbn [bind].
  rewrite walk_generator_rescale. reflexivity.
Qed.

Lemma sum_f_R0_only_first (q : nat -> R) (k : nat) :
  (forall d, q (S d) = 0) -> sum_f_R0 q k = q 0%nat.
Proof.
  intros H. induction k as [|k IH]; simpl; [reflexivity|].
  rewrite IH, H. ring.
Qed.

(** A zero row of the real matrix [B] gives the matching row of the
    identity in the exponential of [-1j * B]. *)
Lemma expm_zero_row (n : nat) (b : nat -> nat -> R) (M : list (list C))
    (i j : nat) :
  (forall i j, (i < n)%nat -> (j < n)%nat -> mget M i j = (0, - b i j)) ->
  length M = n ->
  (i < n)%nat -> (j < n)%nat ->
  (forall l, (l < n)%nat -> b i l = 0) ->
  mget (expm M) i j = if Nat.eqb i j then C1 else C0.
Proof.
  intros HM Hlen Hi Hj Hrow. unfold expm. rewrite Hlen.
  rewrite mget_mat_init by assumption.
  apply Clim_const. intros k.
  rewrite (expm_partial_entries n b M HM k i j Hi Hj).
  assert (Hz : forall d, bpow n b (S d) i j = 0).
  { intros d. simpl. rewrite (rsum_ext n _ (fun _ => 0)).
    - apply rsum_zero.
    - intros l Hl. rewrite Hrow by exact Hl. ring. }
  rewrite !sum_f_R0_only_first by (intros d; rewrite Hz; ring).
  simpl. rewrite Rinv_1.
  destruct (Nat.eqb i j); apply C_eq; simpl; ring.
Qed.

Lemma Csum_delta (n i : nat) (v : nat -> C) :
  (i < n)%nat ->
  Csum (map (fun l => Cmult (if Nat.eqb i l then C1 else C0) (v l)) (seq 0 n))
  = v i.
Proof.
  intros Hi. rewrite Csum_map_seq. apply C_eq; simpl.
  - rewrite (rsum_ext n _ (fun l => (if Nat.eqb i l then 1 else 0) * fst (v l))).
    + apply rsum_delta. exact Hi.
    + intros l _. destruct (Nat.eqb i l); simpl; ring.
  - rewrite (rsum_ext n _ (fun l => (if Nat.eqb i l then 1 else 0) * snd (v l))).
    + apply (rsum_delta n i (fun l => snd (v l))). exact Hi.
    + intros l _. destruct (Nat.eqb i l); simpl; ring.
Qed.

(** X13.  A node without edges keeps its amplitude: for every time and
    coupling, the evolved state has at an isolated node [j] the amplitude
    of the initial state, so the probability of [j] stays 1 when the walk
    starts at [j] and 0 when it starts anywhere else. *)
Theorem isolated_node_keeps_amplitude (g : Graph) (initial_node : Z)
    (t gamma : R) (j : nat) :
  (- Z.of_nat (number_of_nodes g) <= initial_node
   < Z.of_nat (number_of_nodes g))%Z ->
  (j < number_of_nodes g)%nat ->
  (forall l, (l < number_of_nodes g)%nat -> has_edge g j l = false) ->
  let k := Z.to_nat (initial_node mod Z.of_nat (number_of_nodes g)) in
  exists r,
    evolve_continuous_walk g initial_node t gamma = Return r
    /\ nth j (state r) C0 = (if Nat.eqb j k then RtoC 1 else C0)
    /\ nth j (probabilities r) 0 = (if Nat.eqb j k then 1 else 0).
Proof.
  intros Hi Hj Hiso k.
  destruct (norm_index_in _ _ Hi) as [_ Hk]. fold k in Hk.
  set (n := number_of_nodes g) in *.
  eexists. split; [apply evolve_continuous_walk_in_range; exact Hi|].
  cbn [probabilities state]. fold n. fold k.
  set (psi_0 := set_nth k (RtoC 1) (zeros C0 n)).
  set (M := ContinuousWalk.generator gamma (dense_adjacency g) t).
  assert (H0 : length psi_0 = n)
    by (unfold psi_0; rewrite length_set_nth; apply repeat_length).
  assert (HM : length M = n).
  { unfold M, ContinuousWalk.generator. rewrite length_mmap.
    apply square_dense_adjacency. }
  assert (Hamp : nth j (matvec (expm M) psi_0) C0 = nth j psi_0 C0).
  { rewrite (nth_matvec n _ _ j (square_expm n M HM) H0 Hj).
    rewrite (map_ext_in _ (fun l => Cmult (if Nat.eqb j l then C1 else C0)
                                          (nth l psi_0 C0))).
    - apply (Csum_delta n j (fun l => nth l psi_0 C0) Hj).
    - intros l Hl. apply in_seq in Hl. f_equal.
      apply (expm_zero_row n
               (fun i l => gamma * (if has_edge g i l then 1 else 0) * t)).
      + intros a c Ha Hc. apply walk_generator_entries; assumption.
      + exact HM.
      + exact Hj.
      + lia.
      + intros m Hm. rewrite Hiso by exact Hm. ring. }
  assert (Hpsi : nth j psi_0 C0 = if Nat.eqb j k then RtoC 1 else C0).
  { unfold psi_0. destruct (Nat.eqb_spec j k) as [->|Hne].
    - apply nth_set_nth_eq. unfold zeros. rewrite repeat_length. exact Hk.
    - rewrite nth_set_nth_neq by (intros E; apply Hne; exact E).
      unfold zeros. apply nth_repeat_lt. exact Hj. }
  split; [rewrite Hamp; exact Hpsi|].
  rewrite (nth_indep _ 0 (np_abs C0 ^ 2))
    by (rewrite length_map, length_matvec, length_expm, HM; exact Hj).
  rewrite (map_nth (fun z => np_abs z ^ 2)), Hamp, Hpsi.
  destruct (Nat.eqb j k); [|unfold C0]; rewrite np_abs_real; ring.
Qed.

Lemma isolated_node_keeps_amplitude_witness :
  let g := {| number_of_nodes := 3; edges := [(0%nat, 1%nat)] |} in
  ((- Z.of_nat 3 <= 0 < Z.of_nat 3)%Z
   /\ (2 < 3)%nat
   /\ (forall l, (l < 3)%nat -> has_edge g 2 l = false))
  /\ exists r,
       evolve_continuous_walk g 0 1 1 = Return r
       /\ nth 2 (state r) C0 = C0
       /\ nth 2 (probabilities r) 0 = 0.
Proof.
  intros g.
  assert (H : forall l, (l < 3)%nat -> has_edge g 2 l = false).
  { intros l Hl. destruct l as [|[|[|l]]]; [reflexivity | reflexivity | reflexivity | lia]. }
  split; [split; [lia | split; [lia | exact H]]|].
  apply (isolated_node_keeps_amplitude g 0 1 1 2); [simpl; lia | simpl; lia | exact H].
Defined.

(* --------------------------------------------------------------------- *)
(** ** The time sweep, continued *)
(* --------------------------------------------------------------------- *)

Lemma mapM_app {A B : Type} (f : A -> result B) (xs ys : list A) :
  mapM f (xs ++ ys)
  = (us <- mapM f xs ;; vs <- mapM f ys ;; Return (us ++ vs)).
Proof.
  induction xs as [|x xs IH]; simpl.
  - destruct (mapM f ys); reflexivity.
  - destruct (f x) as [y|e]; [|reflexivity]. simpl. rewrite IH.
    destruct (mapM f xs) as [us|e]; [|reflexivity]. simpl.
    destruct (mapM f ys) as [vs|e]; reflexivity.
Qed.

(** X14.  Sweeping over two time ranges one after the other is sweeping
    over each of them and stacking the results: the times and the rows of
    the probability matrix are concatenated, and the sweep over the
    concatenation raises exactly what the first failing part raises. *)
Theorem sweep_of_concatenated_times (g : Graph) (initial_node : Z)
    (ts1 ts2 : list R) (gamma : R) :
  sweep_evolution g initial_node (ts1 ++ ts2) gamma
  = (r1 <- sweep_evolution g initial_node ts1 gamma ;;
     r2 <- sweep_evolution g initial_node ts2 gamma ;;
     Return {| ContinuousWalk.times :=
                 ContinuousWalk.times r1 ++ ContinuousWalk.times r2;
               prob_matrix := prob_matrix r1 ++ prob_matrix r2 |}).
Proof.
  rewrite !sweep_evolution_refines_spec. unfold sweep_spec.
  rewrite mapM_app.
  destruct (mapM _ ts1) as [us|e]; [|reflexivity]. cbn [bind].
  destruct (mapM _ ts2) as [vs|e]; reflexivity.
Qed.

(** X15.  From an initial node that can index the state, the sweep
    returns for every time range: the times are the given ones and the
    probability matrix has the shape (n_times, n_nodes), one row per
    requested time and one entry per node in every row. *)
Theorem sweep_matrix_shape (g : Graph) (initial_node : Z)
    (time_range : list R) (gamma : R) :
  (- Z.of_nat (number_of_nodes g) <= initial_node
   < Z.of_nat (number_of_nodes g))%Z ->
  exists r,
    sweep_evolution g initial_node time_range gamma = Return r
    /\ ContinuousWalk.times r = time_range
    /\ length (prob_matrix r) = length time_range
    /\ forall i, (i < length time_range)%nat ->
         length (nth i (prob_matrix r) []) = number_of_nodes g.
Proof.
  intros Hi.
  rewrite sweep_evolution_refines_spec. unfold sweep_spec.
  destruct (mapM_returns
              (fun t => result <- evolve_continuous_walk g initial_node t gamma ;;
                        Return (probabilities result)) time_range)
    as [rows Hrows].
  { intros t _. rewrite (evolve_continuous_walk_in_range g initial_node t gamma Hi).
    eexists; reflexivity. }
  rewrite Hrows. cbn [bind]. eexists. split; [reflexivity|].
  cbn [prob_matrix ContinuousWalk.times].
  destruct (mapM_Return_inv _ _ _ Hrows) as [Hlen Hnth].
  split; [reflexivity|]. split; [exact Hlen|].
  intros i Hlt. specialize (Hnth i 0 [] Hlt). cbv beta in Hnth.
  rewrite (evolve_continuous_walk_in_range g initial_node _ gamma Hi) in Hnth.
  cbn [bind probabilities] in Hnth.
  apply (f_equal (fun r => match r with Return x => x | Raise _ => [] end)) in Hnth.
  cbv beta iota in Hnth. rewrite <- Hnth.
  rewrite length_map, length_matvec, length_expm.
  unfold ContinuousWalk.generator. rewrite length_mmap.
  apply square_dense_adjacency.
Qed.

Lemma sweep_matrix_shape_witness :
  (- Z.of_nat 2 <= 1 < Z.of_nat 2)%Z
  /\ exists r,
       sweep_evolution single_edge 1 [0; PI / 4; PI / 2] 1 = Return r
       /\ ContinuousWalk.times r = [0; PI / 4; PI / 2]
       /\ length (prob_matrix r) = 3%nat
       /\ forall i, (i < 3)%nat ->
            length (nth i (prob_matrix r) []) = 2%nat.
Proof.
  split; [lia|].
  apply (sweep_matrix_shape single_edge 1 [0; PI / 4; PI / 2] 1).
  simpl. lia.
Defined.

(** X16.  The sweep checks the initial node only by evolving: on a graph
    with at least one node and an initial node outside [-N, N), an empty
    time range is answered with empty arrays and no error, while every
    non-empty time range raises [IndexError]. *)
Theorem sweep_checks_node_only_when_evolving (g : Graph) (initial_node : Z)
    (gamma : R) :
  (0 < number_of_nodes g)%nat ->
  (initial_node < - Z.of_nat (number_of_nodes g)
   \/ Z.of_nat (number_of_nodes g) <= initial_node)%Z ->
  sweep_evolution g initial_node [] gamma
  = Return {| ContinuousWalk.times := []; prob_matrix := [] |}
  /\ forall t ts,
       sweep_evolution g initial_node (t :: ts) gamma = Raise IndexError.
Proof.
  intros Hn Hout. split; [reflexivity|].
  intros t ts. rewrite sweep_evolution_refines_spec. unfold sweep_spec.
  cbn [mapM]. unfold evolve_continuous_walk at 1.
  rewrite adjacency_hamiltonian_nonempty by exact Hn. cbn [bind].
  unfold setitem, zeros. rewrite repeat_length.
  rewrite norm_index_out by exact Hout. reflexivity.
Qed.

Lemma sweep_checks_node_only_when_evolving_witness :
  ((0 < 2)%nat /\ (5 < - Z.of_nat 2 \/ Z.of_nat 2 <= 5)%Z)
  /\ sweep_evolution single_edge 5 [] 1
     = Return {| ContinuousWalk.times := []; prob_matrix := [] |}
  /\ forall t ts,
       sweep_evolution single_edge 5 (t :: ts) 1 = Raise IndexError.
Proof.
  split; [split; [lia | right; simpl; lia]|].
  apply (sweep_checks_node_only_when_evolving single_edge 5 1);
    [simpl; lia | right; simpl; lia].
Defined.

(* --------------------------------------------------------------------- *)
(** ** The search, continued *)
(* --------------------------------------------------------------------- *)

(** X17.  For a marked vertex that can index the oracle, the search
    Hamiltonian is a real symmetric [N] by [N] matrix. *)
Theorem search_hamiltonian_symmetric (g : Graph) (w : Z) (gamma : R) :
  (- Z.of_nat (number_of_nodes g) <= w < Z.of_nat (number_of_nodes g))%Z ->
  exists H,
    build_search_hamiltonian g w gamma = Return H
    /\ square (number_of_nodes g) H
    /\ forall i j, (i < number_of_nodes g)%nat -> (j < number_of_nodes g)%nat ->
         nth j (nth i H []) 0 = nth i (nth j H []) 0.
Proof.
  intros Hw.
  assert (Hn : (0 < number_of_nodes g)%nat) by lia.
  destruct (build_search_hamiltonian_entries g w gamma Hn Hw) as [H [E [Hsq Hent]]].
  exists H. split; [exact E|]. split; [exact Hsq|].
  intros i j Hi Hj.
  rewrite (Hent i j Hi Hj), (Hent j i Hj Hi), !nth_dense_adjacency by assumption.
  rewrite (has_edge_sym g i j), andb_comm. reflexivity.
Qed.

Lemma search_hamiltonian_symmetric_witness :
  (- Z.of_nat 2 <= 1 < Z.of_nat 2)%Z
  /\ exists H,
       build_search_hamiltonian single_edge 1 (1 / 2) = Return H
       /\ square 2 H
       /\ forall i j, (i < 2)%nat -> (j < 2)%nat ->
            nth j (nth i H []) 0 = nth i (nth j H []) 0.
Proof.
  split; [lia|].
  apply (search_hamiltonian_symmetric single_edge 1 (1 / 2)). simpl. lia.
Defined.

(** The scan returns the first position that holds the maximum: either
    nothing in [l] exceeds the incoming best, or the result is a position
    of [l] whose value exceeds the incoming best and everything before
    it. *)
Lemma argmax_from_first (l : list R) :
  forall (best_i : nat) (best : R) (i : nat),
  let r := argmax_from best_i best i l in
  (r = best_i /\ forall x, In x l -> x <= best)
  \/ ((i <= r < i + length l)%nat
      /\ best < nth (r - i) l 0
      /\ (forall p, (p < r - i)%nat -> nth p l 0 < nth (r - i) l 0)
      /\ forall x, In x l -> x <= nth (r - i) l 0).
Proof.
  induction l as [|x l IH]; intros best_i best i; cbn zeta.
  - left. split; [reflexivity | intros x []].
  - simpl argmax_from. destruct (Rlt_dec best x) as [Hlt|Hge].
    + right. destruct (IH i x (S i)) as [[Er Hall]|[Hr [Hb [Hfirst Hall]]]].
      * rewrite Er, Nat.sub_diag. simpl.
        split; [lia|]. split; [exact Hlt|]. split; [intros p Hp; lia|].
        intros y [<-|Hy]; [lra | apply Hall; exact Hy].
      * set (r := argmax_from i x (S i) l) in *.
        replace (r - i)%nat with (S (r - S i)) by lia. simpl.
        split; [lia|]. split; [lra|]. split.
        -- intros [|p] Hp; [exact Hb | apply Hfirst; lia].
        -- intros y [<-|Hy]; [lra | apply Hall; exact Hy].
    + destruct (IH best_i best (S i)) as [[Er Hall]|[Hr [Hb [Hfirst Hall]]]].
      * left. split; [exact Er|].
        intros y [<-|Hy]; [lra | apply Hall; exact Hy].
      * right. set (r := argmax_from best_i best (S i) l) in *.
        replace (r - i)%nat with (S (r - S i)) by lia. simpl.
        split; [lia|]. split; [exact Hb|]. split.
        -- intros [|p] Hp; [lra | apply Hfirst; lia].
        -- intros y [<-|Hy]; [lra | apply Hall; exact Hy].
Qed.

Lemma argmax_first (l : list R) (idx : Z) :
  argmax l = Return idx ->
  exists j,
    idx = Z.of_nat j
    /\ (j < length l)%nat
    /\ (forall i, (i < length l)%nat -> nth i l 0 <= nth j l 0)
    /\ forall i, (i < j)%nat -> nth i l 0 < nth j l 0.
Proof.
  destruct l as [|x l]; [discriminate|]. intros E. injection E as <-.
  exists (argmax_from 0 x 1 l). split; [reflexivity|].
  destruct (argmax_from_first l 0 x 1) as [[Er Hall]|[Hr [Hb [Hfirst Hall]]]].
  - rewrite Er. simpl. split; [lia|]. split; [|intros i Hi; lia].
    intros [|i] Hi; [lra|]. apply Hall. apply nth_In. lia.
  - set (r := argmax_from 0 x 1 l) in *.
    replace r with (S (r - 1)) by lia. simpl. split; [lia|]. split.
    + intros [|i] Hi; [lra|]. apply Hall. apply nth_In. lia.
    + intros [|i] Hi; [exact Hb | apply Hfirst; lia].
Qed.

(** X18.  Ties go to the earliest time: the reported optimum is the
    first sample that attains the maximum, so every earlier sample has a
    strictly smaller success probability. *)
Theorem search_reports_earliest_maximum (g : Graph) (w : Z)
    (gamma time : option R) (n_time_steps : Z) :
  (- Z.of_nat (number_of_nodes g) <= w < Z.of_nat (number_of_nodes g))%Z ->
  (1 <= n_time_steps)%Z ->
  exists r j,
    search_continuous_walk g w gamma time n_time_steps = Return r
    /\ (j < length (success_probs r))%nat
    /\ optimal_time r = nth j (Search.times r) 0
    /\ max_probability r = nth j (success_probs r) 0
    /\ forall i, (i < j)%nat -> nth i (success_probs r) 0 < max_probability r.
Proof.
  intros Hw Hnum.
  destruct (search_continuous_walk_spec g w gamma time n_time_steps Hw Hnum)
    as [r [H [E [_ [_ [_ [_ [Hlen _]]]]]]]].
  exists r. pose proof E as E'. unfold search_continuous_walk in E'.
  apply bind_Return_inv in E'. destruct E' as [gamma' [_ E']].
  apply bind_Return_inv in E'. destruct E' as [ts [_ E']].
  apply bind_Return_inv in E'. destruct E' as [H' [_ E']].
  apply bind_Return_inv in E'. destruct E' as [ps [_ E']].
  apply bind_Return_inv in E'. destruct E' as [idx [Eidx E']].
  apply bind_Return_inv in E'. destruct E' as [ot [Eot E']].
  apply bind_Return_inv in E'. destruct E' as [mp [Emp E']].
  injection E' as <-. cbn [success_probs Search.times optimal_time max_probability] in *.
  destruct (argmax_first ps idx Eidx) as [j [-> [Hj [_ Hfirst]]]].
  rewrite (getitem_nat ts j 0) in Eot by lia.
  rewrite (getitem_nat ps j 0) in Emp by exact Hj.
  injection Eot as <-. injection Emp as <-.
  exists j. split; [exact E|]. split; [exact Hj|].
  split; [reflexivity|]. split; [reflexivity|]. exact Hfirst.
Qed.

Lemma search_reports_earliest_maximum_witness :
  ((- Z.of_nat 2 <= 0 < Z.of_nat 2)%Z /\ (1 <= 200)%Z)
  /\ exists r j,
       search_continuous_walk single_edge 0 None None 200 = Return r
       /\ (j < length (success_probs r))%nat
       /\ optimal_time r = nth j (Search.times r) 0
       /\ max_probability r = nth j (success_probs r) 0
       /\ forall i, (i < j)%nat -> nth i (success_probs r) 0 < max_probability r.
Proof.
  split; [split; lia|].
  apply (search_reports_earliest_maximum single_edge 0 None None 200);
    [simpl; lia | lia].
Defined.

(** X19.  For a marked vertex that can index the state and at least one
    time sample, the search returns [n_time_steps] sampled times and one
    success probability per sample. *)
Theorem search_one_probability_per_sample (g : Graph) (w : Z)
    (gamma time : option R) (n_time_steps : Z) :
  (- Z.of_nat (number_of_nodes g) <= w < Z.of_nat (number_of_nodes g))%Z ->
  (1 <= n_time_steps)%Z ->
  exists r,
    search_continuous_walk g w gamma time n_time_steps = Return r
    /\ length (Search.times r) = Z.to_nat n_time_steps
    /\ length (success_probs r) = Z.to_nat n_time_steps.
Proof.
  intros Hw Hnum.
  destruct (search_continuous_walk_spec g w gamma time n_time_steps Hw Hnum)
    as [r [H [E [_ [_ [_ [Hlt [Hlen _]]]]]]]].
  exists r. split; [exact E|]. split; [exact Hlt | lia].
Qed.

Lemma search_one_probability_per_sample_witness :
  ((- Z.of_nat 2 <= 1 < Z.of_nat 2)%Z /\ (1 <= 50)%Z)
  /\ exists r,
       search_continuous_walk single_edge 1 None None 50 = Return r
       /\ length (Search.times r) = Z.to_nat 50
       /\ length (success_probs r) = Z.to_nat 50.
Proof.
  split; [split; lia|].
  apply (search_one_probability_per_sample single_edge 1 None None 50);
    [simpl; lia | lia].
Defined.

(** With at least two samples, [linspace] from 0 puts sample [i] at [i]
    times the step [stop / (num - 1)]. *)
Lemma linspace_grid (stop : R) (num : Z) (ts : list R) :
  (2 <= num)%Z ->
  linspace 0 stop num = Return ts ->
  length ts = Z.to_nat num
  /\ forall i, (i < Z.to_nat num)%nat ->
       nth i ts 0 = INR i * (stop / INR (Z.to_nat num - 1)).
Proof.
  intros Hnum E. unfold linspace in E.
  replace (num <? 0)%Z with false in E by (symmetry; apply Z.ltb_ge; lia).
  destruct (Z.to_nat num) as [|[|m]] eqn:En; [lia | lia |].
  assert (Ets : ts = map (fun i => INR i * ((stop - 0) / INR (S m)) + 0)
                         (seq 0 (S m)) ++ [stop]) by congruence.
  clear E. subst ts. split.
  - rewrite length_app, length_map, length_seq. simpl. lia.
  - intros i Hi. replace (S (S m) - 1)%nat with (S m) by lia.
    assert (Hm : 0 < INR (S m)) by (apply lt_0_INR; lia).
    destruct (Nat.eq_dec i (S m)) as [->|Hne].
    + rewrite app_nth2 by (rewrite length_map, length_seq; lia).
      rewrite length_map, length_seq, Nat.sub_diag. simpl nth. field. lra.
    + rewrite app_nth1 by (rewrite length_map, length_seq; lia).
      rewrite (nth_map_seq _ 0 (S m) i 0) by lia.
      simpl Nat.add. rewrite Rminus_0_r. ring.
Qed.

(** X20.  With at least two samples the sampled times are evenly spaced
    over the whole horizon [T], the given [time] or, by default,
    [pi/2 * sqrt(N)]: sample [i] is [i * T / (n_time_steps - 1)], the
    first is 0 and the last is [T].  For a horizon that is not negative
    the reported optimal time lies in [0, T]. *)
Theorem search_samples_evenly_spaced (g : Graph) (w : Z)
    (gamma time : option R) (n_time_steps : Z) :
  (- Z.of_nat (number_of_nodes g) <= w < Z.of_nat (number_of_nodes g))%Z ->
  (2 <= n_time_steps)%Z ->
  let T := match time with
           | Some t => t
           | None => PI / 2 * sqrt (INR (number_of_nodes g))
           end in
  let last := (Z.to_nat n_time_steps - 1)%nat in
  exists r,
    search_continuous_walk g w gamma time n_time_steps = Return r
    /\ length (Search.times r) = Z.to_nat n_time_steps
    /\ (forall i, (i <= last)%nat ->
          nth i (Search.times r) 0 = INR i * (T / INR last))
    /\ nth 0 (Search.times r) 0 = 0
    /\ nth last (Search.times r) 0 = T
    /\ (0 <= T -> 0 <= optimal_time r <= T).
Proof.
  intros Hw Hnum T last.
  assert (Hnum1 : (1 <= n_time_steps)%Z) by lia.
  destruct (search_continuous_walk_spec g w gamma time n_time_steps Hw Hnum1)
    as [r [H [E [_ [_ [Elin [Hlt [Hlen [_ [_ [j [Hj [_ Hopt]]]]]]]]]]]]].
  fold T in Elin.
  destruct (linspace_grid T n_time_steps _ Hnum Elin) as [_ Hgrid].
  fold last in Hgrid.
  assert (Hlast : (Z.to_nat n_time_steps = S last)%nat) by (unfold last; lia).
  assert (Hpos : 0 < INR last) by (apply lt_0_INR; unfold last; lia).
  exists r. split; [exact E|]. split; [exact Hlt|].
  split; [intros i Hi; apply Hgrid; lia|].
  split; [rewrite Hgrid by lia; simpl; ring|].
  split; [rewrite Hgrid by lia; field; lra|].
  intros HT. rewrite <- Hopt, Hgrid by lia.
  assert (Hjl : INR j <= INR last) by (apply le_INR; lia).
  assert (H0j : 0 <= INR j) by apply pos_INR.
  assert (Hq : 0 <= T / INR last)
    by (apply Rmult_le_pos; [exact HT | left; apply Rinv_0_lt_compat; exact Hpos]).
  split.
  - apply Rmult_le_pos; assumption.
  - replace T with (INR last * (T / INR last)) at 2 by (field; lra).
    apply Rmult_le_compat_r; assumption.
Qed.

Lemma search_samples_evenly_spaced_witness :
  ((- Z.of_nat 2 <= 0 < Z.of_nat 2)%Z /\ (2 <= 5)%Z)
  /\ exists r,
       search_continuous_walk single_edge 0 (Some 1) (Some 8) 5 = Return r
       /\ length (Search.times r) = Z.to_nat 5
       /\ (forall i, (i <= Z.to_nat 5 - 1)%nat ->
             nth i (Search.times r) 0 = INR i * (8 / INR (Z.to_nat 5 - 1)))
       /\ nth 0 (Search.times r) 0 = 0
       /\ nth (Z.to_nat 5 - 1) (Search.times r) 0 = 8
       /\ (0 <= 8 -> 0 <= optimal_time r <= 8).
Proof.
  split; [split; lia|].
  apply (search_samples_evenly_spaced single_edge 0 (Some 1) (Some 8) 5);
    [simpl; lia | lia].
Defined.

(** On a graph with at least one node and a sample count that is not
    negative, a marked vertex outside [-N, N) makes the search raise
    [IndexError], from the oracle assignment. *)
Lemma search_continuous_walk_out_of_range (g : Graph) (w : Z)
    (gamma time : option R) (n_time_steps : Z) :
  (0 < number_of_nodes g)%nat ->
  (0 <= n_time_steps)%Z ->
  (w < - Z.of_nat (number_of_nodes g) \/ Z.of_nat (number_of_nodes g) <= w)%Z ->
  search_continuous_walk g w gamma time n_time_steps = Raise IndexError.
Proof.
  intros Hn Hnum Hw. unfold search_continuous_walk.
  assert (Eg : exists gamma',
             match gamma with
             | Some gamma0 => Return gamma0
             | None => if Nat.eqb (number_of_nodes g) 0
                       then Raise ZeroDivisionError
                       else Return (1 / INR (number_of_nodes g))
             end = Return gamma').
  { destruct gamma; [eexists; reflexivity|].
    destruct (Nat.eqb_spec (number_of_nodes g) 0); [lia | eexists; reflexivity]. }
  destruct Eg as [gamma' ->]. cbn [bind].
  unfold linspace.
  replace (n_time_steps <? 0)%Z with false by (symmetry; apply Z.ltb_ge; lia).
  cbn [bind].
  rewrite build_search_hamiltonian_out_of_range by assumption. reflexivity.
Qed.

(** X21.  On a graph with [N >= 1] nodes and for a sample count that is
    not negative, the search raises [IndexError] exactly for a marked
    vertex outside [-N, N). *)
Theorem search_index_error (g : Graph) (w : Z) (gamma time : option R)
    (n_time_steps : Z) :
  (0 < number_of_nodes g)%nat ->
  (0 <= n_time_steps)%Z ->
  search_continuous_walk g w gamma time n_time_steps = Raise IndexError
  <-> (w < - Z.of_nat (number_of_nodes g) \/ Z.of_nat (number_of_nodes g) <= w)%Z.
Proof.
  intros Hn Hnum. split.
  2:{ apply search_continuous_walk_out_of_range; assumption. }
  - intros E.
    destruct (Z_lt_le_dec w (- Z.of_nat (number_of_nodes g))) as [Hlo|Hlo];
      [left; exact Hlo|].
    destruct (Z_lt_le_dec w (Z.of_nat (number_of_nodes g))) as [Hhi|Hhi];
      [|right; exact Hhi].
    destruct (Z.eq_dec n_time_steps 0) as [->|Hne].
    + rewrite search_continuous_walk_no_samples in E by lia. discriminate E.
    + destruct (search_continuous_walk_spec g w gamma time n_time_steps
                  (conj Hlo Hhi)) as [r [_ [Er _]]]; [lia|].
      rewrite Er in E. discriminate E.
Qed.

Lemma search_index_error_witness :
  ((0 < 2)%nat /\ (0 <= 200)%Z)
  /\ (search_continuous_walk single_edge 2 None None 200 = Raise IndexError
      <-> (2 < - Z.of_nat 2 \/ Z.of_nat 2 <= 2)%Z).
Proof.
  split; [split; lia|].
  apply (search_index_error single_edge 2 None None 200); [simpl; lia | lia].
Defined.

(** X22.  The search needs a time sample.  On a graph with at least one
    node a negative [n_time_steps] raises [ValueError] (from [linspace],
    before the marked vertex is looked at), and [n_time_steps = 0] with a
    marked vertex inside [-N, N) raises [ValueError] as well (from
    [argmax] of an empty array). *)
Theorem search_needs_a_sample (g : Graph) (w : Z) (gamma time : option R)
    (n_time_steps : Z) :
  (0 < number_of_nodes g)%nat ->
  (n_time_steps < 0
   \/ (n_time_steps = 0
       /\ - Z.of_nat (number_of_nodes g) <= w < Z.of_nat (number_of_nodes g)))%Z ->
  search_continuous_walk g w gamma time n_time_steps = Raise ValueError.
Proof.
  intros Hn Hnum. unfold search_continuous_walk.
  assert (Eg : exists gamma',
             match gamma with
             | Some gamma0 => Return gamma0
             | None => if Nat.eqb (number_of_nodes g) 0
                       then Raise ZeroDivisionError
                       else Return (1 / INR (number_of_nodes g))
             end = Return gamma').
  { destruct gamma; [eexists; reflexivity|].
    destruct (Nat.eqb_spec (number_of_nodes g) 0); [lia | eexists; reflexivity]. }
  destruct Eg as [gamma' ->]. cbn [bind].
  unfold linspace.
  destruct Hnum as [Hneg|[-> Hw]].
  - replace (n_time_steps <? 0)%Z with true by (symmetry; apply Z.ltb_lt; lia).
    reflexivity.
  - cbn [Z.ltb Z.compare Z.to_nat bind].
    rewrite build_search_hamiltonian_in_range by assumption.
    reflexivity.
Qed.

Lemma search_needs_a_sample_witness :
  ((0 < 2)%nat
   /\ (0 < 0 \/ (0 = 0 /\ - Z.of_nat 2 <= 1 < Z.of_nat 2))%Z)
  /\ search_continuous_walk single_edge 1 None None 0 = Raise ValueError.
Proof.
  split; [split; [lia | right; simpl; lia]|].
  apply (search_needs_a_sample single_edge 1 None None 0);
    [simpl; lia | right; simpl; lia].
Defined.

(** X23.  On a graph without nodes the default coupling [1.0 / n] divides
    by zero: the search raises [ZeroDivisionError] whatever the other
    arguments are.  With an explicit coupling and a sample count that is
    not negative, it fails in the Hamiltonian builder instead, where
    networkx refuses the empty graph. *)
Theorem search_empty_graph (g : Graph) (w : Z) (gamma : R)
    (time : option R) (n_time_steps : Z) :
  number_of_nodes g = 0%nat ->
  search_continuous_walk g w None time n_time_steps = Raise ZeroDivisionError
  /\ ((0 <= n_time_steps)%Z ->
      search_continuous_walk g w (Some gamma) time n_time_steps
      = Raise NetworkXError).
Proof.
  intros Hn. unfold search_continuous_walk. rewrite Hn. split; [reflexivity|].
  intros Hnum. cbn [bind]. unfold linspace.
  replace (n_time_steps <? 0)%Z with false by (symmetry; apply Z.ltb_ge; lia).
  cbn [bind]. unfold build_search_hamiltonian, nx_adjacency_matrix.
  rewrite Hn. reflexivity.
Qed.

Lemma search_empty_graph_witness :
  let g := {| number_of_nodes := 0; edges := [] |} in
  number_of_nodes g = 0%nat
  /\ search_continuous_walk g 0 None None 200 = Raise ZeroDivisionError
  /\ ((0 <= 200)%Z ->
      search_continuous_walk g 0 (Some 1) None 200 = Raise NetworkXError).
Proof.
  intros g. split; [reflexivity|].
  apply (search_empty_graph g 0 1 None 200). reflexivity.
Defined.

(* --------------------------------------------------------------------- *)
(** ** The search benchmark *)
(* --------------------------------------------------------------------- *)

Lemma for_each_collect {A B : Type} (f : A -> result B) (g1 g2 : B -> R)
    (xs : list A) :
  forall acc : list R * list R,
  for_each (fun x acc => r <- f x ;; Return (fst acc ++ [g1 r], snd acc ++ [g2 r]))
           xs acc
  = (rs <- mapM f xs ;; Return (fst acc ++ map g1 rs, snd acc ++ map g2 rs)).
Proof.
  induction xs as [|x xs IH]; intros [a b]; simpl.
  - rewrite !app_nil_r. reflexivity.
  - destruct (f x) as [r|e]; [|reflexivity]. simpl. rewrite IH.
    destruct (mapM f xs) as [rs|e]; [|reflexivity]. simpl.
    rewrite <- !app_assoc. reflexivity.
Qed.

(** The benchmark runs one default search per node count and collects
    two fields of each result. *)
Lemma benchmark_search_mapM (graph_builder : nat -> Graph)
    (node_counts : list nat) (w : Z) (k : Z) :
  benchmark_search graph_builder node_counts w k
  = (rs <- mapM (fun n => search_continuous_walk (graph_builder n) w None None k)
                node_counts ;;
     Return {| n_nodes := node_counts;
               optimal_times := map optimal_time rs;
               max_probs := map max_probability rs |}).
Proof.
  unfold benchmark_search.
  rewrite (for_each_collect
             (fun n => search_continuous_walk (graph_builder n) w None None k)
             optimal_time max_probability).
  destruct (mapM _ node_counts); reflexivity.
Qed.

(** X24.  If the marked vertex can index the state of every graph that
    the builder makes for the requested node counts, and there is at
    least one time sample, the benchmark returns the node counts
    unchanged and two lists of the same length, whose [i]-th entries are
    the optimal time and the maximal probability of the search, with
    default coupling and horizon, on the graph built for the [i]-th node
    count. *)
Theorem benchmark_search_entries (graph_builder : nat -> Graph)
    (node_counts : list nat) (w : Z) (k : Z) :
  (forall n, In n node_counts ->
     (- Z.of_nat (number_of_nodes (graph_builder n)) <= w
      < Z.of_nat (number_of_nodes (graph_builder n)))%Z) ->
  (1 <= k)%Z ->
  exists b,
    benchmark_search graph_builder node_counts w k = Return b
    /\ n_nodes b = node_counts
    /\ length (optimal_times b) = length node_counts
    /\ length (max_probs b) = length node_counts
    /\ forall i, (i < length node_counts)%nat ->
         exists r,
           search_continuous_walk (graph_builder (nth i node_counts 0%nat)) w
                                  None None k = Return r
           /\ nth i (optimal_times b) 0 = optimal_time r
           /\ nth i (max_probs b) 0 = max_probability r.
Proof.
  intros Hw Hk. rewrite benchmark_search_mapM.
  destruct (mapM_returns
              (fun n => search_continuous_walk (graph_builder n) w None None k)
              node_counts) as [rs Ers].
  { intros n Hn.
    destruct (search_continuous_walk_spec (graph_builder n) w None None k
                (Hw n Hn) Hk) as [r [_ [E _]]].
    exists r. exact E. }
  rewrite Ers. cbn [bind]. eexists. split; [reflexivity|].
  cbn [n_nodes optimal_times max_probs].
  destruct (mapM_Return_inv _ _ _ Ers) as [Hlen Hnth].
  split; [reflexivity|]. rewrite !length_map.
  split; [exact Hlen|]. split; [exact Hlen|].
  intros i Hi.
  set (d := {| optimal_time := 0; max_probability := 0;
               Search.times := []; success_probs := [] |}).
  exists (nth i rs d). split; [apply (Hnth i 0%nat d Hi)|].
  split.
  - change 0 with (optimal_time d). apply map_nth.
  - change 0 with (max_probability d). apply map_nth.
Qed.

Lemma benchmark_search_entries_witness :
  ((forall n, In n [2%nat; 2%nat] ->
      (- Z.of_nat (number_of_nodes ((fun _ => single_edge) n)) <= 0
       < Z.of_nat (number_of_nodes ((fun _ => single_edge) n)))%Z)
   /\ (1 <= 200)%Z)
  /\ exists b,
       benchmark_search (fun _ => single_edge) [2%nat; 2%nat] 0 200 = Return b
       /\ n_nodes b = [2%nat; 2%nat]
       /\ length (optimal_times b) = 2%nat
       /\ length (max_probs b) = 2%nat
       /\ forall i, (i < 2)%nat ->
            exists r,
              search_continuous_walk
                ((fun _ => single_edge) (nth i [2%nat; 2%nat] 0%nat)) 0
                None None 200 = Return r
              /\ nth i (optimal_times b) 0 = optimal_time r
              /\ nth i (max_probs b) 0 = max_probability r.
Proof.
  split; [split; [intros n _; simpl; lia | lia]|].
  apply (benchmark_search_entries (fun _ => single_edge) [2%nat; 2%nat] 0 200);
    [intros n _; simpl; lia | lia].
Defined.

(** X25.  One graph that is too small aborts the whole benchmark: if all
    built graphs have at least one node, there is at least one time
    sample, and the marked vertex lies outside [-N, N) for the graph of
    some requested node count, the benchmark raises [IndexError] and
    returns none of the results computed before. *)
Theorem benchmark_search_index_error (graph_builder : nat -> Graph)
    (node_counts : list nat) (w : Z) (k : Z) :
  (1 <= k)%Z ->
  (forall n, In n node_counts -> (0 < number_of_nodes (graph_builder n))%nat) ->
  (exists n, In n node_counts
             /\ (w < - Z.of_nat (number_of_nodes (graph_builder n))
                 \/ Z.of_nat (number_of_nodes (graph_builder n)) <= w)%Z) ->
  benchmark_search graph_builder node_counts w k = Raise IndexError.
Proof.
  intros Hk Hpos Hbad. rewrite benchmark_search_mapM.
  assert (E : mapM (fun n => search_continuous_walk (graph_builder n) w None None k)
                   node_counts = Raise IndexError).
  { induction node_counts as [|m ms IH].
    - destruct Hbad as [n [[] _]].
    - cbn [mapM].
      destruct (Z_lt_le_dec w (- Z.of_nat (number_of_nodes (graph_builder m))))
        as [Hlo|Hlo];
        [rewrite search_continuous_walk_out_of_range;
           [reflexivity | apply Hpos; left; reflexivity | lia | left; exact Hlo]|].
      destruct (Z_lt_le_dec w (Z.of_nat (number_of_nodes (graph_builder m))))
        as [Hhi|Hhi];
        [|rewrite search_continuous_walk_out_of_range;
           [reflexivity | apply Hpos; left; reflexivity | lia | right; exact Hhi]].
      destruct (search_continuous_walk_spec (graph_builder m) w None None k
                  (conj Hlo Hhi) Hk) as [r [_ [Er _]]].
      rewrite Er. cbn [bind]. rewrite IH; [reflexivity | |].
      + intros n Hn. apply Hpos. right. exact Hn.
      + destruct Hbad as [n [[<-|Hn] Hout]]; [lia|]. exists n. split; assumption. }
  rewrite E. reflexivity.
Qed.

Lemma benchmark_search_index_error_witness :
  let graph_builder := fun n => {| number_of_nodes := n; edges := [] |} in
  ((1 <= 200)%Z
   /\ (forall n, In n [3%nat; 1%nat; 4%nat] ->
         (0 < number_of_nodes (graph_builder n))%nat)
   /\ (exists n, In n [3%nat; 1%nat; 4%nat]
                 /\ (2 < - Z.of_nat (number_of_nodes (graph_builder n))
                     \/ Z.of_nat (number_of_nodes (graph_builder n)) <= 2)%Z))
  /\ benchmark_search graph_builder [3%nat; 1%nat; 4%nat] 2 200 = Raise IndexError.
Proof.
  intros graph_builder.
  assert (Hpos : forall n, In n [3%nat; 1%nat; 4%nat] ->
                   (0 < number_of_nodes (graph_builder n))%nat).
  { intros n [<-|[<-|[<-|[]]]]; simpl; lia. }
  assert (Hbad : exists n, In n [3%nat; 1%nat; 4%nat]
                   /\ (2 < - Z.of_nat (number_of_nodes (graph_builder n))
                       \/ Z.of_nat (number_of_nodes (graph_builder n)) <= 2)%Z).
  { exists 1%nat. split; [right; left; reflexivity | right; simpl; lia]. }
  split; [split; [lia | split; [exact Hpos | exact Hbad]]|].
  apply (benchmark_search_index_error graph_builder [3%nat; 1%nat; 4%nat] 2 200);
    [lia | exact Hpos | exact Hbad].
Defined.

(* --------------------------------------------------------------------- *)
(** ** The classical hitting time *)
(* --------------------------------------------------------------------- *)

Import GraphUtils.

Section HittingTime.

Variable rng : Type.
Variable mt19937_seed : Z -> rng.
Variable draw : rng -> nat -> nat * rng.

Lemma RandomState_accepted (seed : Z) :
  (0 <= seed < 2 ^ 32)%Z ->
  RandomState mt19937_seed seed = Return (mt19937_seed seed).
Proof.
  intros Hs. unfold RandomState.
  replace ((0 <=? seed) && (seed <? 2 ^ 32))%Z with true; [reflexivity|].
  symmetry. apply andb_true_iff. split; [apply Z.leb_le | apply Z.ltb_lt]; lia.
Qed.

Lemma run_trials_at_target (k : nat) (g : Graph) (v total : nat) (s : rng) :
  run_trials draw k g v v total s = Some (Return (total, s)).
Proof.
  revert total. induction k as [|k IH]; intros total; [reflexivity|].
  cbn [run_trials walk_until]. rewrite Nat.eqb_refl.
  rewrite IH, Nat.add_0_r. reflexivity.
Qed.

(** X26.  When the start is the target no trial takes a step and the
    generator is seeded but never asked.  For every graph and generator:
    a seed outside [0, 2^32) raises [ValueError], whatever the other
    arguments are; for a seed inside, the estimate is 0 for a non-zero
    number of trials, and the final division raises [ZeroDivisionError]
    for [n_trials = 0].  This holds even when the start is not a node of
    the graph. *)
Theorem hitting_time_from_target_is_zero (g : Graph) (v : nat)
    (n_trials seed : Z) :
  classical_hitting_time mt19937_seed draw g v v n_trials seed
  = Some (if ((0 <=? seed) && (seed <? 2 ^ 32))%Z
          then if (n_trials =? 0)%Z then Raise ZeroDivisionError else Return 0
          else Raise ValueError).
Proof.
  unfold classical_hitting_time, RandomState.
  destruct ((0 <=? seed) && (seed <? 2 ^ 32))%Z; [|reflexivity].
  rewrite run_trials_at_target.
  destruct (n_trials =? 0)%Z; [reflexivity|].
  f_equal. f_equal. simpl INR. unfold Rdiv. ring.
Qed.

(** From a node of a graph in which every node has a neighbour, one
    trial returns within the iteration bound, after at most
    [limit + 1] steps. *)
Lemma walk_until_bounded (g : Graph) (target limit : nat) :
  (forall s high, (0 < high)%nat -> (fst (draw s high) < high)%nat) ->
  (forall v, (v < number_of_nodes g)%nat ->
     adjacent g v <> []
     /\ forall u, In u (adjacent g v) -> (u < number_of_nodes g)%nat) ->
  forall (fuel current steps : nat) (s : rng),
    (current < number_of_nodes g)%nat ->
    (steps <= limit)%nat -> (limit < steps + fuel)%nat ->
    exists steps' s',
      walk_until draw fuel g target limit current steps s
      = Some (Return (steps', s'))
      /\ (steps <= steps' <= S limit)%nat.
Proof.
  intros Hdraw Hadj.
  induction fuel as [|fuel IH]; intros current steps s Hc Hs Hf; [lia|].
  cbn [walk_until].
  destruct (Nat.eqb current target); [exists steps, s; split; [reflexivity | lia]|].
  destruct (Hadj current Hc) as [Hne Hin].
  unfold walk_once, neighbors, randint.
  replace (current <? number_of_nodes g)%nat with true
    by (symmetry; apply Nat.ltb_lt; exact Hc).
  cbn [bind].
  assert (Hlen : (0 < length (adjacent g current))%nat)
    by (destruct (adjacent g current); [congruence | simpl; lia]).
  destruct (Nat.eqb_spec (length (adjacent g current)) 0) as [E0|_]; [lia|].
  cbn [bind].
  pose proof (Hdraw s _ Hlen) as Hd.
  rewrite (getitem_nat _ _ 0%nat Hd). cbn [bind].
  destruct (Nat.ltb_spec limit (S steps)) as [Hbreak|Hgo].
  - eexists. eexists. split; [reflexivity | lia].
  - destruct (IH (nth (fst (draw s (length (adjacent g current))))
                      (adjacent g current) 0%nat)
                 (S steps) (snd (draw s (length (adjacent g current)))))
      as [steps' [s' [E Hb]]]; [apply Hin, nth_In; exact Hd | lia | lia |].
    exists steps', s'. split; [exact E | lia].
Qed.

Lemma run_trials_bounded (g : Graph) (start target : nat) :
  (forall s high, (0 < high)%nat -> (fst (draw s high) < high)%nat) ->
  (forall v, (v < number_of_nodes g)%nat ->
     adjacent g v <> []
     /\ forall u, In u (adjacent g v) -> (u < number_of_nodes g)%nat) ->
  (start < number_of_nodes g)%nat ->
  forall (k total : nat) (s : rng),
    exists total' s',
      run_trials draw k g start target total s = Some (Return (total', s'))
      /\ (total <= total' <= total + k * S (10 * number_of_nodes g ^ 2))%nat.
Proof.
  intros Hdraw Hadj Hstart.
  induction k as [|k IH]; intros total s.
  - exists total, s. split; [reflexivity | lia].
  - cbn [run_trials].
    destruct (walk_until_bounded g target (10 * number_of_nodes g ^ 2) Hdraw Hadj
                (S (10 * number_of_nodes g ^ 2)) start 0 s Hstart)
      as [steps [s1 [E Hb]]]; [lia | lia |].
    rewrite E.
    destruct (IH (total + steps)%nat s1) as [total' [s' [E' Hb']]].
    exists total', s'. split; [exact E'|].
    set (c := S (10 * number_of_nodes g ^ 2)) in *.
    change (S k * c)%nat with (c + k * c)%nat. lia.
Qed.

(** X27.  The estimate always comes back and is capped.  Let the
    generator return indices below its argument, let every node have at
    least one neighbour, all of them nodes, let the start be a node and
    let there be at least one trial and a seed in [0, 2^32).  Then the
    function returns (the [while] loop stops by itself, whether or not
    the target can be reached) and the estimate lies between 0 and
    [10 * N^2 + 1]. *)
Theorem hitting_time_bounded (g : Graph) (start target : nat)
    (n_trials seed : Z) :
  (forall s high, (0 < high)%nat -> (fst (draw s high) < high)%nat) ->
  (forall v, (v < number_of_nodes g)%nat ->
     adjacent g v <> []
     /\ forall u, In u (adjacent g v) -> (u < number_of_nodes g)%nat) ->
  (start < number_of_nodes g)%nat ->
  (1 <= n_trials)%Z ->
  (0 <= seed < 2 ^ 32)%Z ->
  exists x,
    classical_hitting_time mt19937_seed draw g start target n_trials seed
    = Some (Return x)
    /\ 0 <= x <= INR (10 * number_of_nodes g ^ 2) + 1.
Proof.
  intros Hdraw Hadj Hstart Hn Hseed. unfold classical_hitting_time.
  rewrite (RandomState_accepted seed Hseed).
  destruct (run_trials_bounded g start target Hdraw Hadj Hstart
              (Z.to_nat n_trials) 0 (mt19937_seed seed))
    as [total [s' [E Hb]]].
  rewrite E.
  replace (n_trials =? 0)%Z with false by (symmetry; apply Z.eqb_neq; lia).
  eexists. split; [reflexivity|].
  assert (Hpos : 0 < IZR n_trials) by (apply IZR_lt; lia).
  assert (Ht : INR total <= IZR n_trials * (INR (10 * number_of_nodes g ^ 2) + 1)).
  { rewrite <- S_INR. rewrite <- (Z2Nat.id n_trials) at 1 by lia.
    rewrite <- INR_IZR_INZ, <- mult_INR. apply le_INR. lia. }
  split.
  - apply Rmult_le_pos; [apply pos_INR | left; apply Rinv_0_lt_compat; exact Hpos].
  - apply (Rmult_le_reg_l (IZR n_trials)); [exact Hpos|].
    replace (IZR n_trials * (INR total / IZR n_trials)) with (INR total)
      by (field; lra).
    exact Ht.
Qed.

(** X28.  A start that has no neighbour to move to makes the first trial
    fail: for a start different from the target, at least one trial and a
    seed in [0, 2^32), the function raises [NetworkXError] when the start
    is not a node of the graph, and [ValueError], from [randint(0)], when
    the start is a node without edges. *)
Theorem hitting_time_start_without_neighbors (g : Graph) (start target : nat)
    (n_trials seed : Z) :
  start <> target ->
  (1 <= n_trials)%Z ->
  ((start < number_of_nodes g)%nat -> adjacent g start = []) ->
  (0 <= seed < 2 ^ 32)%Z ->
  classical_hitting_time mt19937_seed draw g start target n_trials seed
  = Some (Raise (if (start <? number_of_nodes g)%nat then ValueError
                 else NetworkXError)).
Proof.
  intros Hne Hn Hiso Hseed. unfold classical_hitting_time.
  rewrite (RandomState_accepted seed Hseed).
  destruct (Z.to_nat n_trials) as [|k] eqn:Ek; [lia|].
  cbn [run_trials walk_until].
  destruct (Nat.eqb_spec start target) as [E|_]; [contradiction|].
  unfold walk_once, neighbors, randint.
  destruct (Nat.ltb_spec start (number_of_nodes g)) as [Hin|Hout].
  - cbn [bind]. rewrite (Hiso Hin). reflexivity.
  - reflexivity.
Qed.

Lemma walk_until_saturates (g : Graph) (target limit : nat) :
  (forall s high, (0 < high)%nat -> (fst (draw s high) < high)%nat) ->
  (forall v, (v < number_of_nodes g)%nat ->
     adjacent g v <> []
     /\ forall u, In u (adjacent g v) -> (u < number_of_nodes g)%nat) ->
  (number_of_nodes g <= target)%nat ->
  forall (fuel current steps : nat) (s : rng),
    (current < number_of_nodes g)%nat ->
    (steps <= limit)%nat -> (limit < steps + fuel)%nat ->
    exists s',
      walk_until draw fuel g target limit current steps s
      = Some (Return (S limit, s')).
Proof.
  intros Hdraw Hadj Htarget.
  induction fuel as [|fuel IH]; intros current steps s Hc Hs Hf; [lia|].
  cbn [walk_until].
  destruct (Nat.eqb_spec current target) as [E|_]; [lia|].
  destruct (Hadj current Hc) as [Hne Hin].
  unfold walk_once, neighbors, randint.
  replace (current <? number_of_nodes g)%nat with true
    by (symmetry; apply Nat.ltb_lt; exact Hc).
  cbn [bind].
  assert (Hlen : (0 < length (adjacent g current))%nat)
    by (destruct (adjacent g current); [congruence | simpl; lia]).
  destruct (Nat.eqb_spec (length (adjacent g current)) 0) as [E0|_]; [lia|].
  cbn [bind].
  pose proof (Hdraw s _ Hlen) as Hd.
  rewrite (getitem_nat _ _ 0%nat Hd). cbn [bind].
  destruct (Nat.ltb_spec limit (S steps)) as [Hbreak|Hgo].
  - replace (S steps) with (S limit) by lia. eexists. reflexivity.
  - apply IH; [apply Hin, nth_In; exact Hd | lia | lia].
Qed.

Lemma run_trials_saturates (g : Graph) (start target : nat) :
  (forall s high, (0 < high)%nat -> (fst (draw s high) < high)%nat) ->
  (forall v, (v < number_of_nodes g)%nat ->
     adjacent g v <> []
     /\ forall u, In u (adjacent g v) -> (u < number_of_nodes g)%nat) ->
  (start < number_of_nodes g)%nat ->
  (number_of_nodes g <= target)%nat ->
  forall (k total : nat) (s : rng),
    exists s',
      run_trials draw k g start target total s
      = Some (Return ((total + k * S (10 * number_of_nodes g ^ 2))%nat, s')).
Proof.
  intros Hdraw Hadj Hstart Htarget.
  induction k as [|k IH]; intros total s.
  - exists s. cbn [run_trials]. rewrite Nat.mul_0_l, Nat.add_0_r. reflexivity.
  - cbn [run_trials].
    destruct (walk_until_saturates g target (10 * number_of_nodes g ^ 2)
                Hdraw Hadj Htarget
                (S (10 * number_of_nodes g ^ 2)) start 0 s Hstart)
      as [s1 E]; [lia | lia |].
    rewrite E.
    destruct (IH (total + S (10 * number_of_nodes g ^ 2))%nat s1) as [s' E'].
    exists s'. rewrite E'. f_equal. f_equal. f_equal.
    set (c := S (10 * number_of_nodes g ^ 2)).
    change (S k * c)%nat with (c + k * c)%nat. lia.
Qed.

(** X29.  A target that is not a node of the graph is not reported:
    under the conditions of X27 (a seed in [0, 2^32) among them) every
    trial runs into the step limit, and the function returns exactly
    [10 * N^2 + 1], with no error. *)
Theorem hitting_time_of_missing_target (g : Graph) (start target : nat)
    (n_trials seed : Z) :
  (forall s high, (0 < high)%nat -> (fst (draw s high) < high)%nat) ->
  (forall v, (v < number_of_nodes g)%nat ->
     adjacent g v <> []
     /\ forall u, In u (adjacent g v) -> (u < number_of_nodes g)%nat) ->
  (start < number_of_nodes g)%nat ->
  (number_of_nodes g <= target)%nat ->
  (1 <= n_trials)%Z ->
  (0 <= seed < 2 ^ 32)%Z ->
  classical_hitting_time mt19937_seed draw g start target n_trials seed
  = Some (Return (INR (10 * number_of_nodes g ^ 2) + 1)).
Proof.
  intros Hdraw Hadj Hstart Htarget Hn Hseed. unfold classical_hitting_time.
  rewrite (RandomState_accepted seed Hseed).
  destruct (run_trials_saturates g start target Hdraw Hadj Hstart Htarget
              (Z.to_nat n_trials) 0 (mt19937_seed seed)) as [s' E].
  rewrite E.
  replace (n_trials =? 0)%Z with false by (symmetry; apply Z.eqb_neq; lia).
  f_equal. f_equal.
  assert (Hpos : 0 < IZR n_trials) by (apply IZR_lt; lia).
  rewrite Nat.add_0_l, mult_INR, S_INR.
  rewrite INR_IZR_INZ, Z2Nat.id by lia. field. lra.
Qed.

End HittingTime.

Lemma hitting_time_bounded_witness :
  let draw := fun (s : unit) (high : nat) => (0%nat, s) in
  ((forall s high, (0 < high)%nat -> (fst (draw s high) < high)%nat)
   /\ (forall v, (v < number_of_nodes single_edge)%nat ->
         adjacent single_edge v <> []
         /\ forall u, In u (adjacent single_edge v) ->
              (u < number_of_nodes single_edge)%nat)
   /\ (0 < number_of_nodes single_edge)%nat
   /\ (1 <= 10000)%Z
   /\ (0 <= 42 < 2 ^ 32)%Z)
  /\ exists x,
       classical_hitting_time (fun _ => tt) draw single_edge 0 1 10000 42
       = Some (Return x)
       /\ 0 <= x <= INR (10 * number_of_nodes single_edge ^ 2) + 1.
Proof.
  intros draw.
  assert (Hdraw : forall s high, (0 < high)%nat -> (fst (draw s high) < high)%nat)
    by (intros s high H; exact H).
  assert (Hadj : forall v, (v < number_of_nodes single_edge)%nat ->
            adjacent single_edge v <> []
            /\ forall u, In u (adjacent single_edge v) ->
                 (u < number_of_nodes single_edge)%nat).
  { intros [|[|v]] Hv; simpl in Hv; [| |lia].
    - split; [discriminate | intros u [<-|[]]; simpl; lia].
    - split; [discriminate | intros u [<-|[]]; simpl; lia]. }
  split; [split; [exact Hdraw | split; [exact Hadj | split; [simpl; lia |
          split; lia]]]|].
  apply (hitting_time_bounded unit (fun _ => tt) draw single_edge 0 1 10000 42);
    [exact Hdraw | exact Hadj | simpl; lia | lia | lia].
Defined.

Lemma hitting_time_start_without_neighbors_witness :
  let g := {| number_of_nodes := 3; edges := [(0%nat, 1%nat)] |} in
  (2%nat <> 0%nat /\ (1 <= 10000)%Z
   /\ ((2 < number_of_nodes g)%nat -> adjacent g 2 = [])
   /\ (0 <= 42 < 2 ^ 32)%Z)
  /\ classical_hitting_time (fun _ => tt) (fun (s : unit) (_ : nat) => (0%nat, s))
       g 2 0 10000 42
     = Some (Raise ValueError).
Proof.
  intros g.
  split; [split; [discriminate | split; [lia | split;
          [intros _; reflexivity | lia]]]|].
  apply (hitting_time_start_without_neighbors unit (fun _ => tt)
           (fun s _ => (0%nat, s)) g 2 0 10000 42);
    [discriminate | lia | intros _; reflexivity | lia].
Defined.

Lemma hitting_time_of_missing_target_witness :
  let draw := fun (s : unit) (high : nat) => (0%nat, s) in
  ((forall s high, (0 < high)%nat -> (fst (draw s high) < high)%nat)
   /\ (forall v, (v < number_of_nodes single_edge)%nat ->
         adjacent single_edge v <> []
         /\ forall u, In u (adjacent single_edge v) ->
              (u < number_of_nodes single_edge)%nat)
   /\ (0 < number_of_nodes single_edge)%nat
   /\ (number_of_nodes single_edge <= 2)%nat
   /\ (1 <= 10000)%Z
   /\ (0 <= 42 < 2 ^ 32)%Z)
  /\ classical_hitting_time (fun _ => tt) draw single_edge 0 2 10000 42
     = Some (Return (INR (10 * number_of_nodes single_edge ^ 2) + 1)).
Proof.
  intros draw.
  assert (Hdraw : forall s high, (0 < high)%nat -> (fst (draw s high) < high)%nat)
    by (intros s high H; exact H).
  assert (Hadj : forall v, (v < number_of_nodes single_edge)%nat ->
            adjacent single_edge v <> []
            /\ forall u, In u (adjacent single_edge v) ->
                 (u < number_of_nodes single_edge)%nat).
  { intros [|[|v]] Hv; simpl in Hv; [| |lia].
    - split; [discriminate | intros u [<-|[]]; simpl; lia].
    - split; [discriminate | intros u [<-|[]]; simpl; lia]. }
  split; [split; [exact Hdraw | split; [exact Hadj | split; [simpl; lia |
          split; [simpl; lia | split; lia]]]]|].
  apply (hitting_time_of_missing_target unit (fun _ => tt) draw single_edge 0 2
           10000 42);
    [exact Hdraw | exact Hadj | simpl; lia | simpl; lia | lia | lia].
Defined.
